(** * BinaryTree: a shallow embedding of binarytree.hpp

    The container of binarytree.hpp is a pointer structure: nodes are
    allocated with [new], linked through [left] and [right], and released
    with [delete].  The embedding keeps that structure.  A world holds the
    free store (a finite map from addresses to nodes), the container
    objects that are alive (a finite map from variable names to their
    fields) and the number of nodes the free store can hold.  Member
    functions are computations over that world that return a value, throw a
    C++ exception, run into undefined behaviour, or do not terminate. *)

From Stdlib Require Import ZArith String.
From Stdlib Require OrderedTypeEx.
From stdpp Require Import gmap strings list pretty.

(** ** Values shared by every instantiation of the template *)

(** The two exceptions derived from [std::exception] that the code can
    meet: the [std::runtime_error] thrown by [insert] on a duplicate, and
    the [std::bad_alloc] thrown by [new]. *)
Inductive exn := DuplicateInsertionError | BadAlloc.

Inductive outcome (A : Type) : Type :=
| Ok (a : A)
| Throw (e : exn)
| Undefined
| Diverge.
Arguments Ok {A} a.
Arguments Throw {A} e.
Arguments Undefined {A}.
Arguments Diverge {A}.

Abbreviation addr := positive (only parsing).
Abbreviation ptr := (option positive) (only parsing).
Abbreviation objid := string (only parsing).

(** [struct Node]. [nullptr] is [None]. *)
Module Node.
Record t (T : Type) : Type := mk { data : T; left : ptr; right : ptr }.
Arguments mk {T} data left right.
Arguments data {T} n : rename.
Arguments left {T} n : rename.
Arguments right {T} n : rename.
End Node.

(** The data members of [BinaryTree] that vary: [root] and [node_count]
    (a [size_t], kept in [0, 2^64)).  The members [compare] and [equal] are
    objects of the template's functor types; functor objects of one type
    behave alike, so they are the operations of the class [Element]
    below. *)
Record BinaryTree : Type := mkBinaryTree { root : ptr; node_count : Z }.

(** [class const_iterator]. *)
Module const_iterator.
Record t : Type := mk { current : ptr; root : ptr }.
End const_iterator.

(** An lvalue of type [Node*]: what a parameter [Node*& dest] can be bound
    to, namely the member [root] of a container or the [left] or [right]
    field of a node. *)
Inductive lvalue :=
| LRoot (o : objid)
| LLeft (a : addr)
| LRight (a : addr).

Record world (T : Type) : Type := mkWorld {
  heap : gmap positive (Node.t T);
  objs : gmap string BinaryTree;
  capacity : nat
}.
Arguments mkWorld {T} heap objs capacity.
Arguments heap {T} w.
Arguments objs {T} w.
Arguments capacity {T} w.

(** The template parameters: the element type with its own [operator<]
    (used by [const_iterator::findNext]) and [operator<<] (used when
    printing), and the functors [Compare] and [Equal]. *)
Class Element (T : Type) : Type := {
  compare : T → T → bool;
  equal : T → T → bool;
  operator_lt : T → T → bool;
  operator_out : T → string
}.

(** [size_t] arithmetic wraps around; the width is that of an LP64
    platform. *)
Definition SIZE_WIDTH : Z := 64.
Definition size_t_wrap (z : Z) : Z := (z mod 2 ^ SIZE_WIDTH)%Z.

(** ** Computations *)

Definition M (T A : Type) : Type := world T → outcome A * world T.

Definition ret {T A} (a : A) : M T A := fun w => (Ok a, w).
Definition throw {T A} (e : exn) : M T A := fun w => (Throw e, w).
Definition undefined {T A} : M T A := fun w => (Undefined, w).
Definition diverge {T A} : M T A := fun w => (Diverge, w).

Definition bind {T A B} (m : M T A) (k : A → M T B) : M T B :=
  fun w =>
    match m w with
    | (Ok a, w') => k a w'
    | (Throw e, w') => (Throw e, w')
    | (Undefined, w') => (Undefined, w')
    | (Diverge, w') => (Diverge, w')
    end.

(** [try { m } catch (std::exception& e) { handler }] *)
Definition try_catch {T A} (m : M T A) (handler : exn → M T A) : M T A :=
  fun w =>
    match m w with
    | (Throw e, w') => handler e w'
    | r => r
    end.

(** The same for code that only reads the free store. *)
Definition obind {A B} (m : outcome A) (k : A → outcome B) : outcome B :=
  match m with
  | Ok a => k a
  | Throw e => Throw e
  | Undefined => Undefined
  | Diverge => Diverge
  end.

Definition lift {T A} (f : world T → outcome A) : M T A := fun w => (f w, w).

Declare Scope comp_scope.
Delimit Scope comp_scope with comp.
Notation "'let*' x ':=' m 'in' k" := (bind m (fun x => k))
  (at level 10, x name, m at level 100, k at level 200, only parsing) : comp_scope.
Notation "'let?' x ':=' m 'in' k" := (obind m (fun x => k))
  (at level 10, x name, m at level 100, k at level 200, only parsing) : comp_scope.
Local Open Scope comp_scope.

(** Every recursion and loop of the code follows pointers of the free
    store.  On a store with [n] live nodes a chain of more than [n] nested
    calls (or loop rounds) visits some node twice, and then the code, whose
    choices depend on the visited node only, does not terminate.  The
    recursive functions below take the bound as [fuel]; the public members
    start them with [depth_bound], so [Diverge] is returned only where the
    code runs forever. *)
Definition depth_bound {T} (w : world T) : nat := S (size (heap w)).

Definition with_bound {T A} (f : nat → M T A) : M T A :=
  fun w => f (depth_bound w) w.

Section Code.
Context {T : Type} {E : Element T}.

(** *** The free store *)

(** [p->...] on a pointer that is null or dangling is undefined. *)
Definition deref (h : gmap positive (Node.t T)) (p : ptr) : outcome (Node.t T) :=
  match p with
  | None => Undefined
  | Some a => match h !! a with Some n => Ok n | None => Undefined end
  end.

Definition load (p : ptr) : M T (Node.t T) := lift (fun w => deref (heap w) p).

(** [new Node(value)]: throws [std::bad_alloc] when the store is full. *)
Definition new_Node (value : T) : M T positive :=
  fun w =>
    if decide (size (heap w) < capacity w) then
      let a := fresh (dom (heap w)) in
      (Ok a, mkWorld (<[a := Node.mk value None None]> (heap w)) (objs w) (capacity w))
    else (Throw BadAlloc, w).

(** [delete node] for a non-null [node]. *)
Definition delete_Node (a : positive) : M T unit :=
  fun w =>
    match heap w !! a with
    | Some _ => (Ok tt, mkWorld (delete a (heap w)) (objs w) (capacity w))
    | None => (Undefined, w)
    end.

Definition set_left (a : positive) (p : ptr) : M T unit :=
  fun w =>
    match heap w !! a with
    | Some n =>
        (Ok tt, mkWorld (<[a := Node.mk (Node.data n) p (Node.right n)]> (heap w))
                        (objs w) (capacity w))
    | None => (Undefined, w)
    end.

Definition set_right (a : positive) (p : ptr) : M T unit :=
  fun w =>
    match heap w !! a with
    | Some n =>
        (Ok tt, mkWorld (<[a := Node.mk (Node.data n) (Node.left n) p]> (heap w))
                        (objs w) (capacity w))
    | None => (Undefined, w)
    end.

(** *** The members of a container object *)

Definition get_obj (this : objid) : M T BinaryTree :=
  fun w => match objs w !! this with Some bt => (Ok bt, w) | None => (Undefined, w) end.

Definition put_obj (this : objid) (bt : BinaryTree) : M T unit :=
  fun w => (Ok tt, mkWorld (heap w) (<[this := bt]> (objs w)) (capacity w)).

Definition set_root (this : objid) (p : ptr) : M T unit :=
  let* bt := get_obj this in put_obj this (mkBinaryTree p (node_count bt)).

Definition set_node_count (this : objid) (n : Z) : M T unit :=
  let* bt := get_obj this in put_obj this (mkBinaryTree (root bt) n).

(** [node_count++] *)
Definition incr_node_count (this : objid) : M T unit :=
  let* bt := get_obj this in set_node_count this (size_t_wrap (node_count bt + 1)).

(** Storage for a new object named [this]; a name is declared once. *)
Definition declare (this : objid) (bt : BinaryTree) : M T unit :=
  fun w =>
    match objs w !! this with
    | Some _ => (Undefined, w)
    | None => (Ok tt, mkWorld (heap w) (<[this := bt]> (objs w)) (capacity w))
    end.

(** The storage of an object goes away: at the end of its lifetime, or
    when its constructor throws. *)
Definition forget (this : objid) : M T unit :=
  fun w => (Ok tt, mkWorld (heap w) (delete this (objs w)) (capacity w)).

Definition read_lvalue (l : lvalue) : M T ptr :=
  match l with
  | LRoot o => let* bt := get_obj o in ret (root bt)
  | LLeft a => let* n := load (Some a) in ret (Node.left n)
  | LRight a => let* n := load (Some a) in ret (Node.right n)
  end.

Definition write_lvalue (l : lvalue) (p : ptr) : M T unit :=
  match l with
  | LRoot o => set_root o p
  | LLeft a => set_left a p
  | LRight a => set_right a p
  end.

(** *** Private member functions *)

(** [Node* insert(Node* node, const T& value)] *)
Fixpoint insert_node (fuel : nat) (this : objid) (node : ptr) (value : T) : M T ptr :=
  match fuel with
  | O => diverge
  | S fuel =>
      match node with
      | None =>
          let* _ := incr_node_count this in
          let* a := new_Node value in
          ret (Some a)
      | Some a =>
          let* n := load node in
          if equal value (Node.data n) then throw DuplicateInsertionError
          else if compare value (Node.data n) then
            let* p := insert_node fuel this (Node.left n) value in
            let* _ := set_left a p in
            ret node
          else
            let* p := insert_node fuel this (Node.right n) value in
            let* _ := set_right a p in
            ret node
      end
  end.

(** [bool exists(Node* node, const T& value) const] *)
Fixpoint exists_node (fuel : nat) (h : gmap positive (Node.t T)) (node : ptr) (value : T)
  : outcome bool :=
  match fuel with
  | O => Diverge
  | S fuel =>
      match node with
      | None => Ok false
      | Some _ =>
          let? n := deref h node in
          if equal (Node.data n) value then Ok true
          else if compare value (Node.data n) then exists_node fuel h (Node.left n) value
          else exists_node fuel h (Node.right n) value
      end
  end.

(** [Node* find_subtree(Node* node, const T& value) const] *)
Fixpoint find_subtree (fuel : nat) (h : gmap positive (Node.t T)) (node : ptr) (value : T)
  : outcome ptr :=
  match fuel with
  | O => Diverge
  | S fuel =>
      match node with
      | None => Ok None
      | Some _ =>
          let? n := deref h node in
          if equal (Node.data n) value then Ok node
          else if compare value (Node.data n) then find_subtree fuel h (Node.left n) value
          else find_subtree fuel h (Node.right n) value
      end
  end.

(** [void print_in_order(Node* node, std::ostream& os) const]; the stream
    is the text written to it so far. *)
Fixpoint print_in_order (fuel : nat) (h : gmap positive (Node.t T)) (node : ptr) (os : string)
  : outcome string :=
  match fuel with
  | O => Diverge
  | S fuel =>
      match node with
      | None => Ok os
      | Some _ =>
          let? n := deref h node in
          let? os := print_in_order fuel h (Node.left n) os in
          let os := (os ++ operator_out (Node.data n) ++ " ")%string in
          print_in_order fuel h (Node.right n) os
      end
  end.

(** [void destroy_tree(Node* node)] *)
Fixpoint destroy_tree (fuel : nat) (node : ptr) : M T unit :=
  match fuel with
  | O => diverge
  | S fuel =>
      match node with
      | None => ret tt
      | Some a =>
          let* n := load node in
          let* _ := destroy_tree fuel (Node.left n) in
          let* n := load node in
          let* _ := destroy_tree fuel (Node.right n) in
          delete_Node a
      end
  end.

(** [void copy_subtree(Node*& dest, Node* src) const] *)
Fixpoint copy_subtree (fuel : nat) (dest : lvalue) (src : ptr) : M T unit :=
  match fuel with
  | O => diverge
  | S fuel =>
      match src with
      | None => ret tt
      | Some _ =>
          let* s := load src in
          let* a := new_Node (Node.data s) in
          let* _ := write_lvalue dest (Some a) in
          let* s := load src in
          let* _ :=
            match Node.left s with
            | Some _ =>
                let* d := read_lvalue dest in
                match d with
                | Some d => copy_subtree fuel (LLeft d) (Node.left s)
                | None => undefined
                end
            | None => ret tt
            end in
          let* s := load src in
          match Node.right s with
          | Some _ =>
              let* d := read_lvalue dest in
              match d with
              | Some d => copy_subtree fuel (LRight d) (Node.right s)
              | None => undefined
              end
          | None => ret tt
          end
      end
  end.

(** [size_t count_nodes(Node* node) const] *)
Fixpoint count_nodes (fuel : nat) (h : gmap positive (Node.t T)) (node : ptr) : outcome Z :=
  match fuel with
  | O => Diverge
  | S fuel =>
      match node with
      | None => Ok 0%Z
      | Some _ =>
          let? n := deref h node in
          let? l := count_nodes fuel h (Node.left n) in
          let? n := deref h node in
          let? r := count_nodes fuel h (Node.right n) in
          Ok (size_t_wrap (size_t_wrap (1 + l) + r))
      end
  end.


(** *** Public member functions *)

(** A constructor of the object named [this]: the members are
    initialised, the body runs, and an exception that leaves the body ends
    the construction, so that no object named [this] exists afterwards. *)
Definition constructing (this : objid) (body : M T unit) : M T unit :=
  let* _ := declare this (mkBinaryTree None 0) in
  try_catch body (fun e => let* _ := forget this in throw e).

(** [BinaryTree()] *)
Definition BinaryTree_default (this : objid) : M T unit :=
  constructing this (ret tt).

(** [void insert(const T& value)] *)
Definition insert (this : objid) (value : T) : M T unit :=
  try_catch
    (let* bt := get_obj this in
     let* p := with_bound (fun fuel => insert_node fuel this (root bt) value) in
     set_root this p)
    (fun e => throw e).

(** [for (InputIt it = first; it != last; ++it) insert( *it )] *)
Fixpoint insert_range (this : objid) (values : list T) : M T unit :=
  match values with
  | [] => ret tt
  | value :: values =>
      let* _ := insert this value in
      insert_range this values
  end.

(** [destroy_tree(root)] as the constructors, the assignment and the
    destructor call it. *)
Definition destroy_root (this : objid) : M T unit :=
  let* bt := get_obj this in
  with_bound (fun fuel => destroy_tree fuel (root bt)).

(** [BinaryTree(InputIt first, InputIt last, Compare comp, Equal eq)] *)
Definition BinaryTree_range (this : objid) (values : list T) : M T unit :=
  constructing this
    (try_catch (insert_range this values)
       (fun e => let* _ := destroy_root this in throw e)).

(** The [try] block shared by the copy constructor and [operator=]. *)
Definition copy_from (this other : objid) : M T unit :=
  try_catch
    (let* o := get_obj other in
     match root o with
     | Some _ =>
         let* _ := with_bound (fun fuel => copy_subtree fuel (LRoot this) (root o)) in
         let* o := get_obj other in
         set_node_count this (node_count o)
     | None => ret tt
     end)
    (fun e => let* _ := destroy_root this in throw e).

(** [BinaryTree(const BinaryTree& other)] *)
Definition BinaryTree_copy (this other : objid) : M T unit :=
  constructing this (copy_from this other).

(** [BinaryTree& operator=(const BinaryTree& other)]; the assignments of
    [compare] and [equal] copy functors of the same types and change
    nothing. *)
Definition operator_assign (this other : objid) : M T unit :=
  if decide (this = other) then ret tt
  else
    let* _ := destroy_root this in
    let* _ := set_root this None in
    let* _ := set_node_count this 0 in
    copy_from this other.

(** [~BinaryTree()], followed by the end of the object's storage. *)
Definition BinaryTree_destroy (this : objid) : M T unit :=
  let* _ := destroy_root this in
  forget this.

(** [bool exists(const T& value) const] *)
Definition exists_ (this : objid) (value : T) : M T bool :=
  try_catch
    (let* bt := get_obj this in
     lift (fun w => exists_node (depth_bound w) (heap w) (root bt) value))
    (fun e => throw e).

(** [size_t size() const] *)
Definition size_ (this : objid) : M T Z :=
  let* bt := get_obj this in
  ret (node_count bt).

(** [BinaryTree subtree(const T& value) const].  The local [sub_tree] is
    the returned object (the copy on return is elided); when an exception
    leaves the function the local is destroyed on the way out. *)
Definition subtree (this : objid) (value : T) (sub_tree : objid) : M T unit :=
  let* _ := BinaryTree_default sub_tree in
  try_catch
    (try_catch
       (let* bt := get_obj this in
        let* subtree_root :=
          lift (fun w => find_subtree (depth_bound w) (heap w) (root bt) value) in
        match subtree_root with
        | Some _ =>
            let* _ := with_bound (fun fuel => copy_subtree fuel (LRoot sub_tree) subtree_root) in
            let* st := get_obj sub_tree in
            let* n := lift (fun w => count_nodes (depth_bound w) (heap w) (root st)) in
            set_node_count sub_tree n
        | None => ret tt
        end)
       (fun e => throw e))
    (fun e => let* _ := BinaryTree_destroy sub_tree in throw e).

(** [friend std::ostream& operator<<(std::ostream& os, const BinaryTree& tree)] *)
Definition operator_out_tree (os : string) (tree : objid) : M T string :=
  try_catch
    (let* bt := get_obj tree in
     lift (fun w => print_in_order (depth_bound w) (heap w) (root bt) os))
    (fun e => throw e).

(** *** [const_iterator] *)

(** [while (next->left != nullptr) next = next->left;], the loop of the
    iterator's constructor and of the first branch of [findNext]. *)
Fixpoint descend_left (fuel : nat) (h : gmap positive (Node.t T)) (next : ptr) : outcome ptr :=
  match fuel with
  | O => Diverge
  | S fuel =>
      let? n := deref h next in
      match Node.left n with
      | Some _ => descend_left fuel h (Node.left n)
      | None => Ok next
      end
  end.

(** [while (ancestor != node) ...], the loop of the second branch of
    [findNext]; it compares with the element type's [operator<]. *)
Fixpoint climb (fuel : nat) (h : gmap positive (Node.t T)) (node successor ancestor : ptr)
  : outcome ptr :=
  match fuel with
  | O => Diverge
  | S fuel =>
      if decide (ancestor = node) then Ok successor
      else
        let? n := deref h node in
        let? an := deref h ancestor in
        if operator_lt (Node.data n) (Node.data an)
        then climb fuel h node ancestor (Node.left an)
        else climb fuel h node successor (Node.right an)
  end.

(** [Node *findNext(Node *node) const] *)
Definition findNext (h : gmap positive (Node.t T)) (it : const_iterator.t) (node : ptr)
  : outcome ptr :=
  let? n := deref h node in
  match Node.right n with
  | Some _ => descend_left (S (size h)) h (Node.right n)
  | None => climb (S (size h)) h node None (const_iterator.root it)
  end.

(** [const_iterator(Node *node, Node *root)] *)
Definition const_iterator_new (h : gmap positive (Node.t T)) (node root : ptr)
  : outcome const_iterator.t :=
  match node with
  | Some _ =>
      let? c := descend_left (S (size h)) h node in
      Ok (const_iterator.mk c root)
  | None => Ok (const_iterator.mk None root)
  end.

(** [const T &operator*() const] *)
Definition operator_deref (h : gmap positive (Node.t T)) (it : const_iterator.t) : outcome T :=
  let? n := deref h (const_iterator.current it) in
  Ok (Node.data n).

(** [const_iterator &operator++()] *)
Definition operator_inc (h : gmap positive (Node.t T)) (it : const_iterator.t)
  : outcome const_iterator.t :=
  match const_iterator.current it with
  | Some _ =>
      let? c := findNext h it (const_iterator.current it) in
      Ok (const_iterator.mk c (const_iterator.root it))
  | None => Ok it
  end.

(** [bool operator==(const const_iterator &other) const] *)
Definition operator_eq (it other : const_iterator.t) : bool :=
  bool_decide (const_iterator.current it = const_iterator.current other).

(** [bool operator!=(const const_iterator &other) const] *)
Definition operator_ne (it other : const_iterator.t) : bool :=
  negb (operator_eq it other).

(** [const_iterator begin() const] *)
Definition begin_ (h : gmap positive (Node.t T)) (bt : BinaryTree) : outcome const_iterator.t :=
  const_iterator_new h (root bt) (root bt).

(** [const_iterator end() const] *)
Definition end_ (h : gmap positive (Node.t T)) (bt : BinaryTree) : outcome const_iterator.t :=
  const_iterator_new h None (root bt).

(** The loop [for (it = tree.begin(); it != tree.end(); ++it) body( *it )]
    of [printIF], with the state of the body passed along. *)
Fixpoint iterate_from {A} (fuel : nat) (h : gmap positive (Node.t T)) (bt : BinaryTree)
    (body : T → A → A) (it : const_iterator.t) (acc : A) : outcome A :=
  match fuel with
  | O => Diverge
  | S fuel =>
      let? e := end_ h bt in
      if operator_ne it e then
        let? x := operator_deref h it in
        let? it := operator_inc h it in
        iterate_from fuel h bt body it (body x acc)
      else Ok acc
  end.

Definition iterate {A} (tree : objid) (body : T → A → A) (acc : A) : M T A :=
  let* bt := get_obj tree in
  lift (fun w =>
    let? it := begin_ (heap w) bt in
    iterate_from (depth_bound w) (heap w) bt body it acc).

(** The sequence of elements met when iterating from [begin()] to
    [end()]. *)
Definition elements_of (tree : objid) : M T (list T) :=
  iterate tree (fun x acc => acc ++ [x]) [].

(** [void printIF(const BinaryTree& tree, Predicate pred)]; [cout] is the
    text written to [std::cout] so far. *)
Definition printIF (tree : objid) (pred : T → bool) (cout : string) : M T string :=
  let* cout :=
    iterate tree
      (fun x cout => if pred x then (cout ++ operator_out x ++ " ")%string else cout) cout in
  ret (cout ++ String (Ascii.ascii_of_nat 10) EmptyString)%string.

End Code.

(** ** The tree a pointer stands for *)

(** A tree of nodes with the address of each node.  [repr h p t] says that
    in the free store [h] the pointer [p] leads to exactly the nodes of
    [t], linked as in [t]. *)
Inductive tree (T : Type) : Type :=
| Leaf
| Nd (a : positive) (l : tree T) (d : T) (r : tree T).
Arguments Leaf {T}.
Arguments Nd {T} a l d r.

(** The same tree without addresses: what "structurally identical" and
    "the elements at the same relative position" speak about. *)
Inductive shape (T : Type) : Type :=
| SLeaf
| SNode (l : shape T) (d : T) (r : shape T).
Arguments SLeaf {T}.
Arguments SNode {T} l d r.

Section Trees.
Context {T : Type}.

Definition rootp (t : tree T) : ptr :=
  match t with Leaf => None | Nd a _ _ _ => Some a end.

Fixpoint addrs (t : tree T) : list positive :=
  match t with Leaf => [] | Nd a l _ r => addrs l ++ a :: addrs r end.

(** Left subtree, then the node, then the right subtree. *)
Fixpoint inorder (t : tree T) : list T :=
  match t with Leaf => [] | Nd _ l d r => inorder l ++ d :: inorder r end.

Fixpoint height (t : tree T) : nat :=
  match t with Leaf => 0 | Nd _ l _ r => S (Nat.max (height l) (height r)) end.

Definition nodes (t : tree T) : nat := length (addrs t).

(** The nodes in traversal order, each with its address. *)
Fixpoint entries (t : tree T) : list (positive * T) :=
  match t with Leaf => [] | Nd a l d r => entries l ++ (a, d) :: entries r end.

(** The address that follows [k] in a sequence of addresses. *)
Fixpoint successor (ks : list positive) (k : positive) : ptr :=
  match ks with
  | [] => None
  | x :: ks => if decide (x = k) then head ks else successor ks k
  end.

Definition is_node (t : tree T) : bool :=
  match t with Leaf => false | Nd _ _ _ _ => true end.

Definition root_element (t : tree T) : option T :=
  match t with Leaf => None | Nd _ _ d _ => Some d end.

(** [rooted s t]: [s] is [t] itself or what hangs below one of the nodes
    of [t]. *)
Inductive rooted (s : tree T) : tree T → Prop :=
| rooted_here : rooted s s
| rooted_left a l d r : rooted s l → rooted s (Nd a l d r)
| rooted_right a l d r : rooted s r → rooted s (Nd a l d r).

Fixpoint erase (t : tree T) : shape T :=
  match t with Leaf => SLeaf | Nd _ l d r => SNode (erase l) d (erase r) end.

Fixpoint repr (h : gmap positive (Node.t T)) (p : ptr) (t : tree T) : Prop :=
  match t with
  | Leaf => p = None
  | Nd a l d r =>
      p = Some a ∧
      ∃ pl pr, h !! a = Some (Node.mk d pl pr) ∧ repr h pl l ∧ repr h pr r
  end.

(** The node stored for address [k] by [graft]. *)
Fixpoint tree_lookup (t : tree T) (k : positive) : option (Node.t T) :=
  match t with
  | Leaf => None
  | Nd a l d r =>
      if decide (k = a) then Some (Node.mk d (rootp l) (rootp r))
      else match tree_lookup r k with
           | Some n => Some n
           | None => tree_lookup l k
           end
  end.

(** The free store with the nodes of [t] added. *)
Fixpoint graft (t : tree T) (h : gmap positive (Node.t T)) : gmap positive (Node.t T) :=
  match t with
  | Leaf => h
  | Nd a l d r => <[a := Node.mk d (rootp l) (rootp r)]> (graft r (graft l h))
  end.

(** The free store with the nodes at [ks] released. *)
Definition free_all (ks : list positive) (h : gmap positive (Node.t T))
  : gmap positive (Node.t T) :=
  foldr delete h ks.

(** The container [o] of world [w] holds the tree [t], and owns each of
    its nodes once. *)
Definition holds (w : world T) (o : objid) (t : tree T) : Prop :=
  ∃ bt, objs w !! o = Some bt ∧ repr (heap w) (root bt) t ∧ NoDup (addrs t).

Definition lvalue_live (dest : lvalue) (w : world T) : Prop :=
  match dest with
  | LRoot o => is_Some (objs w !! o)
  | LLeft a | LRight a => is_Some (heap w !! a)
  end.

Definition lvalue_addr (dest : lvalue) : list positive :=
  match dest with
  | LRoot _ => []
  | LLeft a | LRight a => [a]
  end.

(** The lvalue [dest] has the value [p]. *)
Definition lvalue_holds (dest : lvalue) (p : ptr) (w : world T) : Prop :=
  match dest with
  | LRoot o => ∃ bt, objs w !! o = Some bt ∧ root bt = p
  | LLeft a => ∃ n, heap w !! a = Some n ∧ Node.left n = p
  | LRight a => ∃ n, heap w !! a = Some n ∧ Node.right n = p
  end.

End Trees.

Section Specification.
Context {T : Type} {E : Element T}.

(** The world after [dest = p]. *)
Definition poke_node (dest : lvalue) (p : ptr) (n : Node.t T) : Node.t T :=
  match dest with
  | LRoot _ => n
  | LLeft _ => Node.mk (Node.data n) p (Node.right n)
  | LRight _ => Node.mk (Node.data n) (Node.left n) p
  end.

Definition poke_heap (dest : lvalue) (p : ptr) (h : gmap positive (Node.t T))
  : gmap positive (Node.t T) :=
  match dest with
  | LRoot _ => h
  | LLeft a | LRight a => alter (poke_node dest p) a h
  end.

Definition poke_objs (dest : lvalue) (p : ptr) (os : gmap string BinaryTree)
  : gmap string BinaryTree :=
  match dest with
  | LRoot o => alter (fun bt => mkBinaryTree p (node_count bt)) o os
  | LLeft _ | LRight _ => os
  end.

Definition poke (dest : lvalue) (p : ptr) (w : world T) : world T :=
  mkWorld (poke_heap dest p (heap w)) (poke_objs dest p (objs w)) (capacity w).

(** The world after [copy_subtree(dest, src)] has built the nodes of
    [t']. *)
Definition after_copy (dest : lvalue) (t' : tree T) (w : world T) : world T :=
  match t' with
  | Leaf => w
  | Nd _ _ _ _ => poke dest (rootp t') (mkWorld (graft t' (heap w)) (objs w) (capacity w))
  end.

(** Insertion on the tree a pointer stands for, the new node at address
    [a]; [None] when an equal element is met. *)
Fixpoint t_insert (a : positive) (v : T) (t : tree T) : option (tree T) :=
  match t with
  | Leaf => Some (Nd a Leaf v Leaf)
  | Nd b l d r =>
      if equal v d then None
      else if compare v d then
        match t_insert a v l with Some l' => Some (Nd b l' d r) | None => None end
      else
        match t_insert a v r with Some r' => Some (Nd b l d r') | None => None end
  end.

(** Insertion as the specification words it, on trees without addresses. *)
Fixpoint s_insert (v : T) (s : shape T) : option (shape T) :=
  match s with
  | SLeaf => Some (SNode SLeaf v SLeaf)
  | SNode l d r =>
      if equal v d then None
      else if compare v d then
        match s_insert v l with Some l' => Some (SNode l' d r) | None => None end
      else
        match s_insert v r with Some r' => Some (SNode l d r') | None => None end
  end.

(** Inserting the elements of a sequence in sequence order. *)
Fixpoint s_build (values : list T) (s : shape T) : option (shape T) :=
  match values with
  | [] => Some s
  | v :: values =>
      match s_insert v s with
      | Some s' => s_build values s'
      | None => None
      end
  end.

(** [descent v t x]: the descent for [v] from the root of [t] visits a
    node whose element is [x]. *)
Inductive descent (v : T) : tree T → T → Prop :=
| descent_here a l d r : descent v (Nd a l d r) d
| descent_left a l d r x :
    equal v d = false → compare v d = true → descent v l x → descent v (Nd a l d r) x
| descent_right a l d r x :
    equal v d = false → compare v d = false → descent v r x → descent v (Nd a l d r) x.

(** The subtree that the descent of [exists] and [find_subtree] for [v]
    stops at: the first visited node whose element [d] has [equal d v], or
    no node. *)
Fixpoint t_find (v : T) (t : tree T) : tree T :=
  match t with
  | Leaf => Leaf
  | Nd _ l d r =>
      if equal d v then t
      else if compare v d then t_find v l else t_find v r
  end.

(** Where insertion puts elements: an element of a left subtree went left
    at the node, an element of a right subtree went right. *)
Fixpoint placed (t : tree T) : Prop :=
  match t with
  | Leaf => True
  | Nd _ l d r =>
      (∀ x, x ∈ inorder l → equal x d = false ∧ compare x d = true) ∧
      (∀ x, x ∈ inorder r → equal x d = false ∧ compare x d = false) ∧
      placed l ∧ placed r
  end.

(** The text [operator<<] writes for a sequence of elements. *)
Fixpoint listing (xs : list T) : string :=
  match xs with
  | [] => EmptyString
  | x :: xs => (operator_out x ++ " " ++ listing xs)%string
  end.

(** [xs] is strictly ascending for the configured ordering. *)
Fixpoint ascending (xs : list T) : Prop :=
  match xs with
  | [] => True
  | x :: xs => (∀ y, y ∈ xs → compare x y = true) ∧ ascending xs
  end.

(** The obligations of the caller on the two relations: [compare] is a
    strict order that cannot tell apart what [equal] identifies, and two
    elements that are not [equal] are ordered one way or the other. *)
Class Consistent : Prop := {
  equal_sym : ∀ x y, equal x y = equal y x;
  compare_irrefl : ∀ x y, equal x y = true → compare x y = false;
  compare_trans : ∀ x y z, compare x y = true → compare y z = true → compare x z = true;
  compare_total : ∀ x y, equal x y = false → compare x y = false → compare y x = true;
  compare_equal_l : ∀ x y z, equal x y = true → compare x z = compare y z
}.

(** ** Sequences of operations on containers *)

Inductive op : Type :=
| Default (o : objid)
| Range (o : objid) (values : list T)
| Insert (o : objid) (v : T)
| Copy (o other : objid)
| Assign (o other : objid)
| Subtree (o this : objid) (v : T)
| Destroy (o : objid).

Definition step (c : op) : M T unit :=
  match c with
  | Default o => BinaryTree_default o
  | Range o values => BinaryTree_range o values
  | Insert o v => insert o v
  | Copy o other => BinaryTree_copy o other
  | Assign o other => operator_assign o other
  | Subtree o this v => subtree this v o
  | Destroy o => BinaryTree_destroy o
  end.

(** A caller runs the operations in turn and catches the duplicate
    insertion error; the run ends without a world when an operation lacks
    memory, is undefined or does not return. *)
Fixpoint run (cs : list op) (w : world T) : option (world T) :=
  match cs with
  | [] => Some w
  | c :: cs =>
      match step c w with
      | (Ok _, w') => run cs w'
      | (Throw DuplicateInsertionError, w') => run cs w'
      | _ => None
      end
  end.

(** The program starts without containers and with an empty free store,
    which has room for fewer nodes than a [size_t] can count. *)
Definition initial (cap : nat) : world T := mkWorld ∅ ∅ cap.

Definition reachable (w : world T) : Prop :=
  ∃ cs cap, (Z.of_nat cap < 2 ^ SIZE_WIDTH)%Z ∧ run cs (initial cap) = Some w.

(** What every reachable world satisfies. *)
Record inv (w : world T) : Prop := {
  inv_capacity : (Z.of_nat (capacity w) < 2 ^ SIZE_WIDTH)%Z;
  inv_size : size (heap w) ≤ capacity w;
  inv_holds : ∀ o bt, objs w !! o = Some bt →
      ∃ t, repr (heap w) (root bt) t ∧ NoDup (addrs t) ∧ placed t ∧
           node_count bt = Z.of_nat (nodes t);
  inv_disjoint : ∀ o1 o2 t1 t2, o1 ≠ o2 → holds w o1 t1 → holds w o2 t2 →
      addrs t1 ## addrs t2
}.

End Specification.

(** ** Instantiations *)

(** [BinaryTree<int, IntCompare, IntEqual>] of main.cpp. *)
Definition int_less : Element Z :=
  {| compare := Z.ltb; equal := Z.eqb; operator_lt := Z.ltb; operator_out := pretty |}.

(** [BinaryTree<int, std::greater<int>, std::equal_to<int>>]: a strict
    ordering that is not the [operator<] of [int]. *)
Definition int_greater : Element Z :=
  {| compare := Z.gtb; equal := Z.eqb; operator_lt := Z.ltb; operator_out := pretty |}.

(** The world a program reaches with the operations [cs], started with
    room for [cap] nodes. *)
Definition world_after {T} {E : Element T} (cs : list op) (cap : nat) : world T :=
  default (initial cap) (run cs (initial cap)).

(** [test_int_tree] of main.cpp: 5, 3, 8, 1, 4. *)
Definition int_tree : world Z :=
  world_after (E := int_less)
    [Default "tree"; Insert "tree" 5; Insert "tree" 3; Insert "tree" 8; Insert "tree" 1;
     Insert "tree" 4]%Z 16.

(** The same container with its nodes spelled out. *)
Definition int_tree_nodes : tree Z :=
  Nd 1 (Nd 2 (Nd 4 Leaf 1%Z Leaf) 3%Z (Nd 5 Leaf 4%Z Leaf)) 5%Z (Nd 3 Leaf 8%Z Leaf).

(** 5 then 8 under the descending ordering. *)
Definition descending_tree : world Z :=
  world_after (E := int_greater) [Default "tree"; Insert "tree" 5; Insert "tree" 8]%Z 8.

(** An ordering that answers true for equal integers, with the equality
    of [int]. *)
Definition int_less_or_equal : Element Z :=
  {| compare := Z.leb; equal := Z.eqb; operator_lt := Z.ltb; operator_out := pretty |}.

(** A container that is empty. *)
Definition empty_tree : world Z :=
  world_after (E := int_less) [Default "tree"] 4.

(** Two containers that fill a free store of three nodes. *)
Definition full_store : world Z :=
  world_after (E := int_less)
    [Default "a"; Insert "a" 1; Default "b"; Insert "b" 2; Insert "b" 3]%Z 3.

(** ** Further instantiations of main.cpp *)

(** [struct CustomType]. *)
Module CustomType.
Record t : Type := mk { id : Z; name : string }.
End CustomType.

(** [BinaryTree<CustomType, CustomTypeCompare, CustomTypeEqual>], with the
    [operator<] and [operator<<] of [CustomType]. *)
Definition custom_type : Element CustomType.t :=
  {| compare := fun lhs rhs => (CustomType.id lhs <? CustomType.id rhs)%Z;
     equal := fun lhs rhs => (CustomType.id lhs =? CustomType.id rhs)%Z;
     operator_lt := fun this other => (CustomType.id this <? CustomType.id other)%Z;
     operator_out := fun obj =>
       ("{" ++ pretty (CustomType.id obj) ++ ", " ++ CustomType.name obj ++ "}")%string |}.

(** [BinaryTree<std::string, StringCompare, StringEqual>]: the [operator<]
    of [std::string] orders by the first differing character, compared as
    an unsigned value, and a proper prefix before the longer string. *)
Definition string_less : Element string :=
  {| compare := String.ltb; equal := String.eqb; operator_lt := String.ltb;
     operator_out := fun s => s |}.

(** [IsEven<int>]: [value % 2 == 0], the remainder of the division that
    truncates. *)
Definition IsEven (value : Z) : bool := (Z.rem value 2 =? 0)%Z.

(** [treeEven] of [test_int_tree]: 4, 2, 6, 1, 8, 10. *)
Definition treeEven : world Z :=
  world_after (E := int_less)
    [Default "treeEven"; Insert "treeEven" 4; Insert "treeEven" 2; Insert "treeEven" 6;
     Insert "treeEven" 1; Insert "treeEven" 8; Insert "treeEven" 10]%Z 16.

(** The same container with its nodes spelled out. *)
Definition treeEven_nodes : tree Z :=
  Nd 1 (Nd 2 (Nd 4 Leaf 1%Z Leaf) 2%Z Leaf) 4%Z
    (Nd 3 Leaf 6%Z (Nd 5 Leaf 8%Z (Nd 6 Leaf 10%Z Leaf))).

(** [ct1] to [ct6] and the container [tree] of [test_custom_tree]. *)
Definition ct1 : CustomType.t := CustomType.mk 1 "one".
Definition ct2 : CustomType.t := CustomType.mk 2 "two".
Definition ct3 : CustomType.t := CustomType.mk 3 "three".
Definition ct4 : CustomType.t := CustomType.mk 4 "four".
Definition ct5 : CustomType.t := CustomType.mk 5 "five".
Definition ct6 : CustomType.t := CustomType.mk 6 "six".

Definition custom_tree : world CustomType.t :=
  world_after (E := custom_type)
    [Default "tree"; Insert "tree" ct1; Insert "tree" ct2; Insert "tree" ct3;
     Insert "tree" ct4; Insert "tree" ct5] 16.

Definition custom_tree_nodes : tree CustomType.t :=
  Nd 1 Leaf ct1 (Nd 2 Leaf ct2 (Nd 3 Leaf ct3 (Nd 4 Leaf ct4 (Nd 5 Leaf ct5 Leaf)))).

(** The world of [int_tree] after [BinaryTree<...> copiedTree = tree]. *)
Definition int_tree_copied : world Z :=
  snd (BinaryTree_copy "copiedTree" "tree" int_tree).

(** ** Further notions for the properties *)

Section Shapes.
Context {T : Type} {E : Element T}.

(** The container an operation constructs, changes or destroys. *)
Definition target (c : op (T := T)) : objid :=
  match c with
  | Default o | Range o _ | Insert o _ | Copy o _ | Assign o _ | Subtree o _ _
  | Destroy o => o
  end.

(** The tree in which every node has a right child only. *)
Fixpoint spine (xs : list T) : shape T :=
  match xs with
  | [] => SLeaf
  | x :: xs => SNode SLeaf x (spine xs)
  end.

(** Each element of [xs] goes to the right of every earlier one when it
    is inserted: it is not equal to it and does not order before it. *)
Fixpoint right_chain (xs : list T) : Prop :=
  match xs with
  | [] => True
  | x :: xs => (∀ y, y ∈ xs → equal y x = false ∧ compare y x = false) ∧ right_chain xs
  end.

(** Every node of the free store is a node of a container: nothing has
    leaked. *)
Definition owned (w : world T) : Prop :=
  ∀ k, is_Some (heap w !! k) → ∃ o t, holds w o t ∧ k ∈ addrs t.

(** What an operation on the container [o] may do to the free store: a
    node of [w'] is a node of [o], or it was a node of [w] and not one of
    [o]. *)
Definition confined (w w' : world T) (o : objid) : Prop :=
  ∃ t', (holds w' o t' ∨ (objs w' !! o = None ∧ t' = Leaf)) ∧
        ∀ k, is_Some (heap w' !! k) →
             k ∈ addrs t' ∨ (is_Some (heap w !! k) ∧ ∀ t0, holds w o t0 → k ∉ addrs t0).

(** The computation [m] releases no node, however it ends. *)
Definition keeps_nodes {A} (m : M T A) : Prop :=
  ∀ w r w' k, m w = (r, w') → is_Some (heap w !! k) → is_Some (heap w' !! k).

End Shapes.

(** * Properties *)

Ltac run_comp :=
  repeat (progress (cbn [bind ret throw undefined diverge try_catch obind lift load fst snd]
                    || unfold bind, ret, throw, undefined, diverge, try_catch, lift, load,
                         with_bound in * )).

Section Representation.
Context {T : Type}.
Implicit Types (h : gmap positive (Node.t T)) (t : tree T).

Lemma repr_rootp h p t : repr h p t → p = rootp t.
Proof. destruct t; cbn; [done | by intros [-> _]]. Qed.

Lemma repr_frame h h' p t :
  (∀ a, a ∈ addrs t → h' !! a = h !! a) → repr h p t → repr h' p t.
Proof.
  revert p. induction t as [| a l IHl d r IHr]; intros p Hagree; cbn; [done |].
  intros [-> (pl & pr & Ha & Hl & Hr)]. split; [done |].
  exists pl, pr. split_and!.
  - rewrite Hagree; [done |]. cbn. set_solver.
  - apply IHl; [| done]. intros b Hb. apply Hagree. cbn. set_solver.
  - apply IHr; [| done]. intros b Hb. apply Hagree. cbn. set_solver.
Qed.

Lemma repr_det h p t1 t2 : repr h p t1 → repr h p t2 → t1 = t2.
Proof.
  revert p t2. induction t1 as [| a l IHl d r IHr]; intros p [| a' l' d' r']; cbn.
  - done.
  - intros -> [? _]. done.
  - intros [-> _] ?. done.
  - intros [-> (pl & pr & Ha & Hl & Hr)] [[= <-] (pl' & pr' & Ha' & Hl' & Hr')].
    rewrite Ha in Ha'. injection Ha' as <- <- <-.
    f_equal; eauto.
Qed.

Lemma repr_live h p t a : repr h p t → a ∈ addrs t → is_Some (h !! a).
Proof.
  revert p. induction t as [| b l IHl d r IHr]; intros p; cbn.
  - intros _ Hin. by apply elem_of_nil in Hin.
  - intros [-> (pl & pr & Hb & Hl & Hr)] Hin.
    apply elem_of_app in Hin as [Hin | Hin]; [by eapply IHl |].
    apply elem_of_cons in Hin as [-> | Hin]; [by eexists | by eapply IHr].
Qed.

Lemma height_le_nodes t : height t ≤ nodes t.
Proof.
  unfold nodes. induction t as [| a l IHl d r IHr]; cbn; [done |].
  rewrite length_app. cbn. lia.
Qed.

Lemma nodes_le_size h p t : repr h p t → NoDup (addrs t) → nodes t ≤ size h.
Proof.
  intros Hrepr Hnd. unfold nodes.
  rewrite <- (size_list_to_set (C := gset positive) (addrs t)) by done.
  rewrite <- size_dom. apply subseteq_size.
  intros a Ha. apply elem_of_list_to_set in Ha. apply elem_of_dom. by eapply repr_live.
Qed.

Lemma height_lt_bound (w : world T) p t :
  repr (heap w) p t → NoDup (addrs t) → height t < depth_bound w.
Proof.
  intros Hrepr Hnd. unfold depth_bound.
  pose proof (height_le_nodes t). pose proof (nodes_le_size _ _ _ Hrepr Hnd). lia.
Qed.

Lemma deref_repr h p a l d r :
  repr h p (Nd a l d r) →
  ∃ pl pr, p = Some a ∧ h !! a = Some (Node.mk d pl pr) ∧ deref h p = Ok (Node.mk d pl pr) ∧
           repr h pl l ∧ repr h pr r.
Proof.
  cbn. intros [-> (pl & pr & Ha & Hl & Hr)]. exists pl, pr.
  split_and!; try done. cbn. by rewrite Ha.
Qed.

Lemma lookup_free_all ks h a :
  free_all ks h !! a = if decide (a ∈ ks) then None else h !! a.
Proof.
  unfold free_all. induction ks as [| k ks IH]; cbn.
  - case_decide as Hin; [by apply elem_of_nil in Hin | done].
  - destruct (decide (k = a)) as [-> | Hne].
    + rewrite lookup_delete_eq. rewrite decide_True; [done | by left].
    + rewrite lookup_delete_ne by done. rewrite IH.
      destruct (decide (a ∈ ks)) as [Hin | Hin].
      * rewrite decide_True; [done | by right].
      * rewrite decide_False; [done |]. intros [? | ?]%elem_of_cons; congruence.
Qed.

Lemma free_all_cons k ks h : free_all (k :: ks) h = delete k (free_all ks h).
Proof. done. Qed.

Lemma free_all_app ks1 ks2 h : free_all (ks1 ++ ks2) h = free_all ks1 (free_all ks2 h).
Proof. unfold free_all. by rewrite foldr_app. Qed.

Lemma free_all_fresh ks h : (∀ a, a ∈ ks → h !! a = None) → free_all ks h = h.
Proof.
  intros Hfresh. apply map_eq. intros a. rewrite lookup_free_all.
  case_decide; [by rewrite Hfresh | done].
Qed.

Lemma tree_lookup_None t k : k ∉ addrs t → tree_lookup t k = None.
Proof.
  induction t as [| a l IHl d r IHr]; cbn; [done |]. intros Hk.
  rewrite decide_False by set_solver.
  rewrite IHr by set_solver. apply IHl. set_solver.
Qed.

Lemma lookup_graft t h k :
  graft t h !! k = match tree_lookup t k with Some n => Some n | None => h !! k end.
Proof.
  revert h. induction t as [| a l IHl d r IHr]; intros h; cbn; [done |].
  case_decide as Hk.
  - subst. by rewrite lookup_insert_eq.
  - rewrite lookup_insert_ne by done. rewrite IHr.
    destruct (tree_lookup r k); [done |]. apply IHl.
Qed.

Lemma graft_repr t h :
  NoDup (addrs t) → repr (graft t h) (rootp t) t.
Proof.
  revert h. induction t as [| a l IHl d r IHr]; intros h; cbn; [done |].
  intros Hnd. apply NoDup_app in Hnd as (Hl & Hlr & Hr).
  apply NoDup_cons in Hr as [Har Hr].
  split; [done |]. exists (rootp l), (rootp r). split_and!.
  - by rewrite lookup_insert_eq.
  - eapply repr_frame; [| apply (IHl h Hl)].
    intros b Hb. rewrite lookup_insert_ne by set_solver.
    rewrite lookup_graft. rewrite tree_lookup_None; [done |]. set_solver.
  - eapply repr_frame; [| apply (IHr (graft l h) Hr)].
    intros b Hb. rewrite lookup_insert_ne; [done | set_solver].
Qed.

Lemma size_graft t h :
  NoDup (addrs t) → (∀ a, a ∈ addrs t → h !! a = None) →
  size (graft t h) = size h + nodes t.
Proof.
  unfold nodes. revert h. induction t as [| a l IHl d r IHr]; intros h; cbn; [lia |].
  intros Hnd Hfresh. apply NoDup_app in Hnd as (Hl & Hlr & Hr).
  apply NoDup_cons in Hr as [Har Hr].
  rewrite map_size_insert_None.
  - rewrite IHr, IHl, length_app; cbn; try done; try lia.
    + intros b Hb. apply Hfresh. set_solver.
    + intros b Hb. rewrite lookup_graft, tree_lookup_None by set_solver.
      apply Hfresh. set_solver.
  - rewrite !lookup_graft, !tree_lookup_None by set_solver. apply Hfresh. set_solver.
Qed.

End Representation.

Section Reading.
Context {T : Type} {E : Element T}.
Implicit Types (h : gmap positive (Node.t T)) (t : tree T) (v : T).

Lemma t_find_repr h p t v : repr h p t → repr h (rootp (t_find v t)) (t_find v t).
Proof.
  revert p. induction t as [| a l IHl d r IHr]; intros p; cbn [t_find]; [done |].
  intros Hrepr. destruct (equal d v).
  - destruct Hrepr as [-> ?]. by split.
  - destruct Hrepr as [-> (pl & pr & _ & Hl & Hr)].
    destruct (compare v d); eauto.
Qed.

Lemma t_find_addrs t v : addrs (t_find v t) ⊆ addrs t.
Proof.
  induction t as [| a l IHl d r IHr]; cbn [t_find]; [done |].
  destruct (equal d v); [done |]. cbn. destruct (compare v d); set_solver.
Qed.

Lemma t_find_sublist t v : sublist (addrs (t_find v t)) (addrs t).
Proof.
  induction t as [| a l IHl d r IHr]; cbn [t_find]; [done |].
  destruct (equal d v); [done |]. cbn. destruct (compare v d).
  - by apply sublist_inserts_r.
  - apply sublist_inserts_l. by apply sublist_cons.
Qed.

Lemma t_find_NoDup t v : NoDup (addrs t) → NoDup (addrs (t_find v t)).
Proof. intros Hnd. eapply sublist_NoDup; [done | apply t_find_sublist]. Qed.

Lemma t_find_height t v : height (t_find v t) ≤ height t.
Proof.
  induction t as [| a l IHl d r IHr]; cbn [t_find]; [done |].
  destruct (equal d v); [done |]. cbn. destruct (compare v d); lia.
Qed.

Lemma t_find_placed t v : placed t → placed (t_find v t).
Proof.
  induction t as [| a l IHl d r IHr]; cbn [t_find]; [done |].
  destruct (equal d v); [done |]. cbn. intros (_ & _ & Hl & Hr).
  destruct (compare v d); eauto.
Qed.

Lemma exists_node_spec fuel h p t v :
  repr h p t → height t < fuel →
  exists_node fuel h p v = Ok (is_node (t_find v t)).
Proof.
  revert fuel p. induction t as [| a l IHl d r IHr]; intros fuel p Hrepr Hfuel.
  - cbn in Hrepr. subst. destruct fuel; [lia | done].
  - destruct fuel as [| fuel]; [cbn in Hfuel; lia |].
    apply deref_repr in Hrepr as (pl & pr & -> & Ha & Hd & Hl & Hr).
    cbn [exists_node t_find]. rewrite Hd. cbn [obind Node.data Node.left Node.right].
    cbn in Hfuel. destruct (equal d v); [done |].
    destruct (compare v d); [apply IHl | apply IHr]; try done; lia.
Qed.

Lemma find_subtree_spec fuel h p t v :
  repr h p t → height t < fuel →
  find_subtree fuel h p v = Ok (rootp (t_find v t)).
Proof.
  revert fuel p. induction t as [| a l IHl d r IHr]; intros fuel p Hrepr Hfuel.
  - cbn in Hrepr. subst. destruct fuel; [lia | done].
  - destruct fuel as [| fuel]; [cbn in Hfuel; lia |].
    apply deref_repr in Hrepr as (pl & pr & -> & Ha & Hd & Hl & Hr).
    cbn [find_subtree t_find]. rewrite Hd. cbn [obind Node.data Node.left Node.right].
    cbn in Hfuel. destruct (equal d v); [done |].
    destruct (compare v d); [apply IHl | apply IHr]; try done; lia.
Qed.

Lemma append_cons c (s1 s2 : string) : (String c s1 ++ s2)%string = String c (s1 ++ s2).
Proof. reflexivity. Qed.

Lemma append_assoc (s1 s2 s3 : string) : ((s1 ++ s2) ++ s3 = s1 ++ (s2 ++ s3))%string.
Proof. induction s1 as [| c s1 IH]; [done | by rewrite !append_cons, IH]. Qed.

Lemma append_nil_r (s : string) : (s ++ EmptyString)%string = s.
Proof. induction s as [| c s IH]; [done | by rewrite append_cons, IH]. Qed.

Lemma listing_app (xs ys : list T) : listing (xs ++ ys) = (listing xs ++ listing ys)%string.
Proof.
  induction xs as [| x xs IH]; cbn; [done |].
  rewrite IH. by rewrite !append_assoc.
Qed.

Lemma print_in_order_spec fuel h p t os :
  repr h p t → height t < fuel →
  print_in_order fuel h p os = Ok (os ++ listing (inorder t))%string.
Proof.
  revert fuel p os. induction t as [| a l IHl d r IHr]; intros fuel p os Hrepr Hfuel.
  - cbn in Hrepr. subst. destruct fuel; [lia |]. cbn.
    by rewrite append_nil_r.
  - destruct fuel as [| fuel]; [cbn in Hfuel; lia |].
    apply deref_repr in Hrepr as (pl & pr & -> & Ha & Hd & Hl & Hr).
    cbn [print_in_order]. rewrite Hd. cbn [obind Node.data Node.left Node.right].
    cbn in Hfuel. rewrite (IHl fuel pl os) by (done || lia). cbn [obind].
    rewrite (IHr fuel pr) by (done || lia). f_equal.
    cbn [inorder]. rewrite listing_app. cbn [listing].
    by rewrite !append_assoc.
Qed.

Lemma size_t_wrap_small z : (0 ≤ z < 2 ^ SIZE_WIDTH)%Z → size_t_wrap z = z.
Proof. intros Hz. unfold size_t_wrap. by apply Z.mod_small. Qed.

Lemma count_nodes_spec fuel h p t :
  repr h p t → height t < fuel → (Z.of_nat (nodes t) < 2 ^ SIZE_WIDTH)%Z →
  count_nodes fuel h p = Ok (Z.of_nat (nodes t)).
Proof.
  unfold nodes.
  revert fuel p. induction t as [| a l IHl d r IHr]; intros fuel p Hrepr Hfuel Hsmall.
  - cbn in Hrepr. subst. destruct fuel; [lia | done].
  - destruct fuel as [| fuel]; [cbn in Hfuel; lia |].
    apply deref_repr in Hrepr as (pl & pr & -> & Ha & Hd & Hl & Hr).
    cbn [count_nodes]. rewrite Hd. cbn [obind Node.data Node.left Node.right].
    cbn in Hfuel, Hsmall. rewrite length_app in Hsmall. cbn in Hsmall.
    rewrite (IHl fuel pl) by (done || lia). cbn [obind].
    rewrite (IHr fuel pr) by (done || lia). cbn [obind]. f_equal.
    cbn [addrs]. rewrite length_app. cbn [length].
    rewrite (size_t_wrap_small (1 + _)) by lia.
    rewrite size_t_wrap_small by lia. lia.
Qed.

End Reading.

Section Steps.
Context {T : Type}.
Implicit Types (w : world T) (h : gmap positive (Node.t T)) (t : tree T).

Lemma bind_ok {A B} (m : M T A) (k : A → M T B) w a w' :
  m w = (Ok a, w') → bind m k w = k a w'.
Proof. unfold bind. by intros ->. Qed.

Lemma bind_throw {A B} (m : M T A) (k : A → M T B) w e w' :
  m w = (Throw e, w') → bind m k w = (Throw e, w').
Proof. unfold bind. by intros ->. Qed.

Lemma try_catch_ok {A} (m : M T A) handler w a w' :
  m w = (Ok a, w') → try_catch m handler w = (Ok a, w').
Proof. unfold try_catch. by intros ->. Qed.

Lemma try_catch_throw {A} (m : M T A) handler w e w' :
  m w = (Throw e, w') → try_catch m handler w = handler e w'.
Proof. unfold try_catch. by intros ->. Qed.

Lemma world_eta w : mkWorld (heap w) (objs w) (capacity w) = w.
Proof. by destruct w. Qed.

Lemma get_obj_ok w o bt : objs w !! o = Some bt → get_obj o w = (Ok bt, w).
Proof. unfold get_obj. by intros ->. Qed.

Lemma set_root_ok w o bt p :
  objs w !! o = Some bt →
  set_root o p w =
    (Ok tt, mkWorld (heap w) (<[o := mkBinaryTree p (node_count bt)]> (objs w)) (capacity w)).
Proof. intros Ho. unfold set_root. by rewrite (bind_ok _ _ _ _ _ (get_obj_ok _ _ _ Ho)). Qed.

Lemma set_node_count_ok w o bt n :
  objs w !! o = Some bt →
  set_node_count o n w =
    (Ok tt, mkWorld (heap w) (<[o := mkBinaryTree (root bt) n]> (objs w)) (capacity w)).
Proof.
  intros Ho. unfold set_node_count. by rewrite (bind_ok _ _ _ _ _ (get_obj_ok _ _ _ Ho)).
Qed.

Lemma incr_node_count_ok w o bt :
  objs w !! o = Some bt →
  incr_node_count o w =
    (Ok tt, mkWorld (heap w)
              (<[o := mkBinaryTree (root bt) (size_t_wrap (node_count bt + 1))]> (objs w))
              (capacity w)).
Proof.
  intros Ho. unfold incr_node_count.
  rewrite (bind_ok _ _ _ _ _ (get_obj_ok _ _ _ Ho)). by apply set_node_count_ok.
Qed.

Lemma load_ok w p n : deref (heap w) p = Ok n → load p w = (Ok n, w).
Proof. unfold load, lift. by intros ->. Qed.

Lemma set_left_ok w a n p :
  heap w !! a = Some n →
  set_left a p w =
    (Ok tt, mkWorld (<[a := Node.mk (Node.data n) p (Node.right n)]> (heap w))
              (objs w) (capacity w)).
Proof. unfold set_left. by intros ->. Qed.

Lemma set_right_ok w a n p :
  heap w !! a = Some n →
  set_right a p w =
    (Ok tt, mkWorld (<[a := Node.mk (Node.data n) (Node.left n) p]> (heap w))
              (objs w) (capacity w)).
Proof. unfold set_right. by intros ->. Qed.

Lemma new_Node_ok w v :
  size (heap w) < capacity w →
  new_Node v w =
    (Ok (fresh (dom (heap w))),
     mkWorld (<[fresh (dom (heap w)) := Node.mk v None None]> (heap w)) (objs w) (capacity w)).
Proof. intros Hroom. unfold new_Node. by rewrite decide_True. Qed.

Lemma new_Node_full w v :
  ¬ size (heap w) < capacity w → new_Node v w = (Throw BadAlloc, w).
Proof. intros Hroom. unfold new_Node. by rewrite decide_False. Qed.

Lemma delete_Node_ok w a n :
  heap w !! a = Some n →
  delete_Node a w = (Ok tt, mkWorld (delete a (heap w)) (objs w) (capacity w)).
Proof. unfold delete_Node. by intros ->. Qed.

Lemma fresh_heap h : h !! fresh (dom h) = None.
Proof. apply not_elem_of_dom. apply is_fresh. Qed.

Lemma repr_fresh h p t : repr h p t → fresh (dom h) ∉ addrs t.
Proof.
  intros Hrepr Hin. destruct (repr_live _ _ _ _ Hrepr Hin) as [n Hn].
  by rewrite fresh_heap in Hn.
Qed.

Lemma repr_tree_lookup h p t k n : repr h p t → tree_lookup t k = Some n → h !! k = Some n.
Proof.
  revert p. induction t as [| a l IHl d r IHr]; intros p; cbn; [done |].
  intros [-> (pl & pr & Ha & Hl & Hr)].
  case_decide as Hk.
  - intros [= <-]. subst.
    by rewrite <- (repr_rootp _ _ _ Hl), <- (repr_rootp _ _ _ Hr).
  - destruct (tree_lookup r k) eqn:Hrk; [intros [= <-]; eauto | eauto].
Qed.

Lemma graft_repr_id h p t : repr h p t → graft t h = h.
Proof.
  intros Hrepr. apply map_eq. intros k. rewrite lookup_graft.
  destruct (tree_lookup t k) eqn:Hk; [| done].
  symmetry. by eapply repr_tree_lookup.
Qed.

End Steps.

Section Insertion.
Context {T : Type} {E : Element T}.
Implicit Types (w : world T) (h : gmap positive (Node.t T)) (t : tree T) (v : T).

Lemma t_insert_addrs a v t t' : t_insert a v t = Some t' → addrs t' ≡ₚ a :: addrs t.
Proof.
  revert t'. induction t as [| b l IHl d r IHr]; intros t'; cbn.
  - by intros [= <-].
  - destruct (equal v d); [done |]. destruct (compare v d).
    + destruct (t_insert a v l) as [l' |]; [| done]. intros [= <-]. cbn.
      by rewrite (IHl l' eq_refl).
    + destruct (t_insert a v r) as [r' |]; [| done]. intros [= <-]. cbn.
      rewrite (IHr r' eq_refl). by rewrite <- !Permutation_middle, Permutation_swap.
Qed.

Lemma t_insert_inorder a v t t' : t_insert a v t = Some t' → inorder t' ≡ₚ v :: inorder t.
Proof.
  revert t'. induction t as [| b l IHl d r IHr]; intros t'; cbn.
  - by intros [= <-].
  - destruct (equal v d); [done |]. destruct (compare v d).
    + destruct (t_insert a v l) as [l' |]; [| done]. intros [= <-]. cbn.
      by rewrite (IHl l' eq_refl).
    + destruct (t_insert a v r) as [r' |]; [| done]. intros [= <-]. cbn.
      rewrite (IHr r' eq_refl). by rewrite <- !Permutation_middle, Permutation_swap.
Qed.

Lemma t_insert_NoDup a v t t' :
  t_insert a v t = Some t' → a ∉ addrs t → NoDup (addrs t) → NoDup (addrs t').
Proof.
  intros Hins Ha Hnd. rewrite (t_insert_addrs _ _ _ _ Hins). by apply NoDup_cons.
Qed.

Lemma t_insert_nodes a v t t' : t_insert a v t = Some t' → nodes t' = S (nodes t).
Proof. intros Hins. unfold nodes. by rewrite (t_insert_addrs _ _ _ _ Hins). Qed.

Lemma t_insert_placed a v t t' : t_insert a v t = Some t' → placed t → placed t'.
Proof.
  revert t'. induction t as [| b l IHl d r IHr]; intros t'; cbn.
  - intros [= <-] _. cbn. split_and!; try done; intros x Hx; by apply elem_of_nil in Hx.
  - destruct (equal v d) eqn:Heq; [done |]. destruct (compare v d) eqn:Hcmp.
    + destruct (t_insert a v l) as [l' |] eqn:Hl; [| done].
      intros [= <-] (Hleft & Hright & Hpl & Hpr). cbn. split_and!; eauto.
      intros x Hx. rewrite (t_insert_inorder _ _ _ _ Hl) in Hx.
      apply elem_of_cons in Hx as [-> | Hx]; eauto.
    + destruct (t_insert a v r) as [r' |] eqn:Hr; [| done].
      intros [= <-] (Hleft & Hright & Hpl & Hpr). cbn. split_and!; eauto.
      intros x Hx. rewrite (t_insert_inorder _ _ _ _ Hr) in Hx.
      apply elem_of_cons in Hx as [-> | Hx]; eauto.
Qed.

Lemma t_insert_erase a v t : s_insert v (erase t) = erase <$> t_insert a v t.
Proof.
  induction t as [| b l IHl d r IHr]; cbn; [done |].
  destruct (equal v d); [done |]. destruct (compare v d).
  - rewrite IHl. by destruct (t_insert a v l).
  - rewrite IHr. by destruct (t_insert a v r).
Qed.

Lemma t_insert_None a v t :
  t_insert a v t = None ↔ ∃ x, descent v t x ∧ equal v x = true.
Proof.
  induction t as [| b l IHl d r IHr]; cbn.
  - split; [done |]. intros (x & Hx & _). inversion Hx.
  - destruct (equal v d) eqn:Heq.
    { split; [| done]. intros _. exists d. split; [constructor | done]. }
    destruct (compare v d) eqn:Hcmp.
    + destruct (t_insert a v l) as [l' |].
      * split; [done |]. intros (x & Hx & Hvx).
        inversion Hx; subst; try congruence.
        assert (Some l' = None) by (apply IHl; eauto). done.
      * split; [| done]. intros _. destruct IHl as [IHl _].
        destruct (IHl eq_refl) as (x & Hx & Hvx). exists x. split; [| done].
        by apply descent_left.
    + destruct (t_insert a v r) as [r' |].
      * split; [done |]. intros (x & Hx & Hvx).
        inversion Hx; subst; try congruence.
        assert (Some r' = None) by (apply IHr; eauto). done.
      * split; [| done]. intros _. destruct IHr as [IHr _].
        destruct (IHr eq_refl) as (x & Hx & Hvx). exists x. split; [| done].
        by apply descent_right.
Qed.

(** The private [insert] on a pointer that stands for [t]: it throws before
    any write when an equal element is met, and otherwise counts, allocates
    and links the new node. *)
Lemma insert_node_spec t : ∀ fuel this p w bt v,
  repr (heap w) p t → NoDup (addrs t) → height t < fuel → objs w !! this = Some bt →
  insert_node fuel this p v w =
    match t_insert (fresh (dom (heap w))) v t with
    | None => (Throw DuplicateInsertionError, w)
    | Some t' =>
        let counted :=
          <[this := mkBinaryTree (root bt) (size_t_wrap (node_count bt + 1))]> (objs w) in
        if decide (size (heap w) < capacity w)
        then (Ok (rootp t'), mkWorld (graft t' (heap w)) counted (capacity w))
        else (Throw BadAlloc, mkWorld (heap w) counted (capacity w))
    end.
Proof.
  induction t as [| b l IHl d r IHr]; intros fuel this p w bt v Hrepr Hnd Hfuel Hthis.
  - cbn in Hrepr. subst. destruct fuel as [| fuel]; [cbn in Hfuel; lia |].
    cbn [insert_node t_insert].
    rewrite (bind_ok _ _ _ _ _ (incr_node_count_ok _ _ _ Hthis)).
    unfold bind, new_Node. cbn [heap objs capacity].
    case_decide; [| done]. cbn. done.
  - destruct fuel as [| fuel]; [cbn in Hfuel; lia |].
    pose proof (repr_fresh _ _ _ Hrepr) as Hfresh.
    apply deref_repr in Hrepr as (pl & pr & -> & Hb & Hd & Hl & Hr).
    cbn in Hnd. apply NoDup_app in Hnd as (Hndl & Hlr & Hndr).
    apply NoDup_cons in Hndr as [Hbr Hndr].
    cbn in Hfuel. cbn [addrs] in Hfresh.
    cbn [insert_node t_insert].
    rewrite (bind_ok _ _ _ _ _ (load_ok _ _ _ Hd)). cbn [Node.data Node.left Node.right].
    destruct (equal v d); [done |].
    destruct (compare v d).
    + unfold bind at 1. rewrite (IHl fuel this pl w bt v) by (done || lia).
      destruct (t_insert (fresh (dom (heap w))) v l) as [l' |] eqn:Hins; [| done].
      cbn zeta. case_decide; [| done].
      assert (Hb' : graft l' (heap w) !! b = Some (Node.mk d pl pr)).
      { rewrite lookup_graft, tree_lookup_None; [done |].
        rewrite (t_insert_addrs _ _ _ _ Hins). set_solver. }
      erewrite (bind_ok (set_left b (rootp l')));
        [| apply set_left_ok; cbn [heap]; exact Hb'].
      cbn [ret heap objs capacity Node.data Node.right]. do 2 f_equal.
      cbn [graft]. rewrite (repr_rootp _ _ _ Hr). f_equal.
      symmetry. eapply graft_repr_id. eapply repr_frame; [| exact Hr].
      intros k Hk. rewrite lookup_graft, tree_lookup_None; [done |].
      rewrite (t_insert_addrs _ _ _ _ Hins). set_solver.
    + unfold bind at 1. rewrite (IHr fuel this pr w bt v) by (done || lia).
      destruct (t_insert (fresh (dom (heap w))) v r) as [r' |] eqn:Hins; [| done].
      cbn zeta. case_decide; [| done].
      assert (Hb' : graft r' (heap w) !! b = Some (Node.mk d pl pr)).
      { rewrite lookup_graft, tree_lookup_None; [done |].
        rewrite (t_insert_addrs _ _ _ _ Hins). set_solver. }
      erewrite (bind_ok (set_right b (rootp r')));
        [| apply set_right_ok; cbn [heap]; exact Hb'].
      cbn [ret heap objs capacity Node.data Node.left]. do 2 f_equal.
      cbn [graft]. rewrite (repr_rootp _ _ _ Hl). f_equal.
      by rewrite (graft_repr_id _ _ _ Hl).
Qed.

End Insertion.

Section Releasing.
Context {T : Type} {E : Element T}.
Implicit Types (w : world T) (h : gmap positive (Node.t T)) (t : tree T).

Lemma destroy_tree_spec t : ∀ fuel p w,
  repr (heap w) p t → NoDup (addrs t) → height t < fuel →
  destroy_tree fuel p w =
    (Ok tt, mkWorld (free_all (addrs t) (heap w)) (objs w) (capacity w)).
Proof.
  induction t as [| b l IHl d r IHr]; intros fuel p w Hrepr Hnd Hfuel.
  - cbn in Hrepr. subst. destruct fuel as [| fuel]; [cbn in Hfuel; lia |].
    cbn. by rewrite world_eta.
  - destruct fuel as [| fuel]; [cbn in Hfuel; lia |].
    apply deref_repr in Hrepr as (pl & pr & -> & Hb & Hd & Hl & Hr).
    cbn in Hnd. apply NoDup_app in Hnd as (Hndl & Hlr & Hndr).
    apply NoDup_cons in Hndr as [Hbr Hndr].
    assert (Hbl : b ∉ addrs l) by (intros Hin; apply (Hlr _ Hin); by left).
    cbn in Hfuel. cbn [destroy_tree].
    rewrite (bind_ok _ _ _ _ _ (load_ok _ _ _ Hd)). cbn [Node.left].
    rewrite (bind_ok _ _ _ _ _ (IHl fuel pl w Hl Hndl ltac:(lia))).
    set (w1 := mkWorld (free_all (addrs l) (heap w)) (objs w) (capacity w)).
    assert (Hb1 : heap w1 !! b = Some (Node.mk d pl pr)).
    { cbn. rewrite lookup_free_all. by rewrite decide_False. }
    assert (Hd1 : deref (heap w1) (Some b) = Ok (Node.mk d pl pr)).
    { cbn [deref]. by rewrite Hb1. }
    rewrite (bind_ok _ _ _ _ _ (load_ok _ _ _ Hd1)). cbn [Node.right].
    assert (Hr1 : repr (heap w1) pr r).
    { eapply repr_frame; [| exact Hr]. intros k Hk. cbn. rewrite lookup_free_all.
      rewrite decide_False; [done |]. intros Hin. apply (Hlr _ Hin). by right. }
    rewrite (bind_ok _ _ _ _ _ (IHr fuel pr w1 Hr1 Hndr ltac:(lia))).
    erewrite delete_Node_ok.
    2:{ cbn [heap]. rewrite lookup_free_all. rewrite decide_False by done. exact Hb1. }
    cbn [heap objs capacity w1]. f_equal. f_equal.
    cbn [addrs]. rewrite free_all_app, free_all_cons.
    apply map_eq. intros k.
    rewrite lookup_delete, !lookup_free_all, lookup_delete, lookup_free_all.
    repeat case_decide; congruence.
Qed.

End Releasing.

Section Copying.
Context {T : Type} {E : Element T}.
Implicit Types (w : world T) (h : gmap positive (Node.t T)) (t : tree T).

Lemma alter_Some {K V} `{Countable K} (f : V → V) (m : gmap K V) a n :
  m !! a = Some n → alter f a m = <[a := f n]> m.
Proof.
  intros Ha. apply map_eq. intros k. rewrite lookup_alter, lookup_insert.
  case_decide; [subst; by rewrite Ha | done].
Qed.

Lemma lookup_poke_heap dest p h k :
  poke_heap dest p h !! k =
    if decide (k ∈ lvalue_addr dest) then poke_node dest p <$> h !! k else h !! k.
Proof.
  destruct dest as [o | a | a]; cbn [poke_heap lvalue_addr].
  - rewrite decide_False; [done | apply not_elem_of_nil].
  - rewrite lookup_alter. destruct (decide (a = k)) as [-> | Hne].
    + rewrite decide_True; [done | by left].
    + rewrite decide_False; [done |]. by intros ->%list_elem_of_singleton.
  - rewrite lookup_alter. destruct (decide (a = k)) as [-> | Hne].
    + rewrite decide_True; [done | by left].
    + rewrite decide_False; [done |]. by intros ->%list_elem_of_singleton.
Qed.

Lemma lookup_poke_heap_other dest p h k :
  k ∉ lvalue_addr dest → poke_heap dest p h !! k = h !! k.
Proof. intros Hk. rewrite lookup_poke_heap. by rewrite decide_False. Qed.

Lemma size_poke_heap dest p h : size (poke_heap dest p h) = size h.
Proof.
  rewrite <- !size_dom. f_equal. apply set_eq. intros k. rewrite !elem_of_dom.
  rewrite lookup_poke_heap. case_decide; [| done]. by rewrite fmap_is_Some.
Qed.

Lemma write_lvalue_ok dest p w :
  lvalue_live dest w → write_lvalue dest p w = (Ok tt, poke dest p w).
Proof.
  destruct dest as [o | a | a]; cbn [lvalue_live write_lvalue]; intros [n Hn].
  - rewrite (set_root_ok _ _ _ _ Hn). unfold poke. cbn. by rewrite (alter_Some _ _ _ _ Hn).
  - rewrite (set_left_ok _ _ _ _ Hn). unfold poke. cbn. by rewrite (alter_Some _ _ _ _ Hn).
  - rewrite (set_right_ok _ _ _ _ Hn). unfold poke. cbn. by rewrite (alter_Some _ _ _ _ Hn).
Qed.

Lemma read_lvalue_holds dest p w :
  lvalue_holds dest p w → read_lvalue dest w = (Ok p, w).
Proof.
  destruct dest as [o | a | a]; cbn [lvalue_holds read_lvalue]; intros (n & Hn & <-).
  - by rewrite (bind_ok _ _ _ _ _ (get_obj_ok _ _ _ Hn)).
  - erewrite bind_ok; [done |]. apply load_ok. cbn. by rewrite Hn.
  - erewrite bind_ok; [done |]. apply load_ok. cbn. by rewrite Hn.
Qed.

Lemma poke_holds dest p w : lvalue_live dest w → lvalue_holds dest p (poke dest p w).
Proof.
  destruct dest as [o | a | a]; cbn; intros [n Hn].
  - rewrite lookup_alter, decide_True, Hn by done. by eexists.
  - rewrite lookup_alter, decide_True, Hn by done. by eexists.
  - rewrite lookup_alter, decide_True, Hn by done. by eexists.
Qed.

Lemma lvalue_holds_agree dest p w w' :
  objs w' = objs w → (∀ k, k ∈ lvalue_addr dest → heap w' !! k = heap w !! k) →
  lvalue_holds dest p w → lvalue_holds dest p w'.
Proof.
  intros Hobjs Hheap. destruct dest as [o | a | a]; cbn.
  - by rewrite Hobjs.
  - rewrite Hheap; [done | by left].
  - rewrite Hheap; [done | by left].
Qed.

Lemma erase_nodes t1 t2 : erase t1 = erase t2 → nodes t1 = nodes t2.
Proof.
  unfold nodes. revert t2. induction t1 as [| a l IHl d r IHr]; intros [| a' l' d' r']; cbn;
    try done.
  intros [= Hl <- Hr]. rewrite !length_app. cbn. by rewrite (IHl _ Hl), (IHr _ Hr).
Qed.

Lemma erase_inorder t1 t2 : erase t1 = erase t2 → inorder t1 = inorder t2.
Proof.
  revert t2. induction t1 as [| a l IHl d r IHr]; intros [| a' l' d' r']; cbn; try done.
  intros [= Hl <- Hr]. by rewrite (IHl _ Hl), (IHr _ Hr).
Qed.

Lemma erase_placed t1 t2 : erase t1 = erase t2 → placed t1 → placed t2.
Proof.
  revert t2. induction t1 as [| a l IHl d r IHr]; intros [| a' l' d' r']; cbn; try done.
  intros [= Hl <- Hr] (Hleft & Hright & Hpl & Hpr).
  rewrite <- (erase_inorder _ _ Hl), <- (erase_inorder _ _ Hr). split_and!; eauto.
Qed.

(** The two inner calls of [copy_subtree]: the field they write is null
    before the call. *)
Lemma after_copy_left a t' w d pr :
  heap w !! a = Some (Node.mk d None pr) → a ∉ addrs t' →
  after_copy (LLeft a) t' w =
    mkWorld (<[a := Node.mk d (rootp t') pr]> (graft t' (heap w))) (objs w) (capacity w).
Proof.
  intros Ha Hfresh. destruct t' as [| b l e r].
  - cbn. rewrite insert_id by done. by rewrite world_eta.
  - unfold after_copy, poke. cbn [heap objs capacity poke_heap poke_objs]. f_equal.
    rewrite (alter_Some _ _ _ (Node.mk d None pr)); [done |].
    rewrite lookup_graft, tree_lookup_None by done. exact Ha.
Qed.

Lemma after_copy_right a t' w d pl :
  heap w !! a = Some (Node.mk d pl None) → a ∉ addrs t' →
  after_copy (LRight a) t' w =
    mkWorld (<[a := Node.mk d pl (rootp t')]> (graft t' (heap w))) (objs w) (capacity w).
Proof.
  intros Ha Hfresh. destruct t' as [| b l e r].
  - cbn. rewrite insert_id by done. by rewrite world_eta.
  - unfold after_copy, poke. cbn [heap objs capacity poke_heap poke_objs]. f_equal.
    rewrite (alter_Some _ _ _ (Node.mk d pl None)); [done |].
    rewrite lookup_graft, tree_lookup_None by done. exact Ha.
Qed.

Lemma copy_subtree_null fuel dest w :
  0 < fuel → copy_subtree fuel dest None w = (Ok tt, w).
Proof. destruct fuel; [lia | done]. Qed.


Lemma tree_lookup_is_Some t k : k ∈ addrs t → is_Some (tree_lookup t k).
Proof.
  induction t as [| a l IHl d r IHr]; cbn; [by intros ?%elem_of_nil |].
  intros Hin. case_decide; [by eexists |].
  apply elem_of_app in Hin as [Hin | Hin].
  - destruct (tree_lookup r k); [by eexists | by apply IHl].
  - apply elem_of_cons in Hin as [-> | Hin]; [done |].
    destruct (IHr Hin) as [n ->]. by eexists.
Qed.

Lemma graft_fresh t h k : graft t h !! k = None → (k ∉ addrs t) ∧ h !! k = None.
Proof.
  rewrite lookup_graft. intros Hk. split.
  - intros Hin. destruct (tree_lookup_is_Some _ _ Hin) as [n Hn]. by rewrite Hn in Hk.
  - by destruct (tree_lookup t k).
Qed.

Lemma copy_node_world dest a d l' r' w :
  heap w !! a = None → a ∉ lvalue_addr dest →
  (∀ k, k ∈ lvalue_addr dest → (k ∉ addrs l') ∧ (k ∉ addrs r')) →
  mkWorld
    (<[a := Node.mk d (rootp l') (rootp r')]>
       (graft r'
          (<[a := Node.mk d (rootp l') None]>
             (graft l'
                (poke_heap dest (Some a) (<[a := Node.mk d None None]> (heap w)))))))
    (poke_objs dest (Some a) (objs w)) (capacity w) =
  after_copy dest (Nd a l' d r') w.
Proof.
  intros Ha Hadest Hdest. unfold after_copy, poke. cbn [heap objs capacity rootp]. f_equal.
  apply map_eq. intros k. rewrite lookup_poke_heap. cbn [graft].
  destruct (decide (k = a)) as [-> | Hka].
  - rewrite decide_False by done. by rewrite !lookup_insert_eq.
  - rewrite !lookup_insert_ne by done. rewrite !lookup_graft.
    rewrite lookup_insert_ne by done. rewrite lookup_graft, lookup_poke_heap.
    rewrite lookup_insert_ne by done.
    case_decide as Hk; [| done].
    destruct (Hdest _ Hk) as [Hkl Hkr].
    by rewrite !tree_lookup_None by done.
Qed.

Lemma copy_subtree_spec t : ∀ fuel dest src w,
  repr (heap w) src t → height t < fuel → lvalue_live dest w →
  (∀ k, k ∈ lvalue_addr dest → k ∉ addrs t) →
  ∃ r t',
    copy_subtree fuel dest src w = (r, after_copy dest t' w) ∧
    NoDup (addrs t') ∧
    (∀ k, k ∈ addrs t' → heap w !! k = None) ∧
    (size (heap w) ≤ capacity w → size (heap w) + nodes t' ≤ capacity w) ∧
    ((r = Ok tt ∧ erase t' = erase t) ∨
     (r = Throw BadAlloc ∧ capacity w < size (heap w) + nodes t)).
Proof.
  induction t as [| s l IHl d r IHr]; intros fuel dest src w Hrepr Hfuel Hlive Hdest.
  - cbn in Hrepr. subst. exists (Ok tt), Leaf.
    rewrite copy_subtree_null by done. cbn [after_copy addrs nodes length].
    split_and!; [done | constructor | by intros k ?%elem_of_nil | lia | by left].
  - destruct fuel as [| fuel]; [cbn in Hfuel; lia |]. cbn in Hfuel.
    pose proof (repr_fresh _ _ _ Hrepr) as Hfresh. cbn [addrs] in Hfresh.
    apply deref_repr in Hrepr as (pl & pr & -> & Hs & Hd & Hl & Hr).
    cbn [copy_subtree].
    rewrite (bind_ok _ _ _ _ _ (load_ok _ _ _ Hd)). cbn [Node.data].
    destruct (decide (size (heap w) < capacity w)) as [Hroom | Hfull].
    2:{ rewrite (bind_throw _ _ _ _ _ (new_Node_full _ _ Hfull)).
        exists (Throw BadAlloc), Leaf. cbn [after_copy addrs nodes length].
        split_and!; [done | constructor | by intros k ?%elem_of_nil | lia |].
        right. split; [done |]. unfold nodes. cbn. rewrite length_app. cbn. lia. }
    rewrite (bind_ok _ _ _ _ _ (new_Node_ok _ _ Hroom)).
    set (a := fresh (dom (heap w))) in *.
    set (w1 := mkWorld (<[a := Node.mk d None None]> (heap w)) (objs w) (capacity w)).
    assert (Ha : heap w !! a = None) by apply fresh_heap.
    assert (Hadest : a ∉ lvalue_addr dest).
    { destruct dest as [o | b | b]; cbn in *; [apply not_elem_of_nil | |];
        intros ->%list_elem_of_singleton; rewrite Ha in Hlive; by destruct Hlive. }
    assert (Hlive1 : lvalue_live dest w1).
    { destruct dest as [o | b | b]; cbn in *; [done | |];
        (rewrite lookup_insert_ne; [done |]); intros <-; rewrite Ha in Hlive; by destruct Hlive. }
    rewrite (bind_ok _ _ _ _ _ (write_lvalue_ok _ _ _ Hlive1)).
    set (w2 := poke dest (Some a) w1).
    assert (Hsize2 : size (heap w2) = S (size (heap w))).
    { cbn. rewrite size_poke_heap. by rewrite map_size_insert_None. }
    assert (Hold2 : ∀ k, k ≠ a → k ∉ lvalue_addr dest → heap w2 !! k = heap w !! k).
    { intros k Hka Hkd. cbn. rewrite lookup_poke_heap_other by done.
      by rewrite lookup_insert_ne. }
    assert (Ha2 : heap w2 !! a = Some (Node.mk d None None)).
    { cbn. rewrite lookup_poke_heap_other by done. by rewrite lookup_insert_eq. }
    assert (Hs2 : deref (heap w2) (Some s) = Ok (Node.mk d pl pr)).
    { cbn [deref]. rewrite Hold2, Hs; [done | |].
      - intros ->. by rewrite Ha in Hs.
      - intros Hin. apply (Hdest _ Hin). cbn. set_solver. }
    rewrite (bind_ok _ _ _ _ _ (load_ok _ _ _ Hs2)). cbn [Node.left].
    assert (Hholds2 : lvalue_holds dest (Some a) w2) by by apply poke_holds.
    (* the left child *)
    destruct (IHl fuel (LLeft a) pl w2) as (rl & l' & Hcl & Hndl & Hfl & Hszl & Hresl).
    { eapply repr_frame; [| exact Hl]. intros k Hk. apply Hold2.
      - intros ->. apply Hfresh. set_solver.
      - intros Hin. apply (Hdest _ Hin). cbn. set_solver. }
    { lia. }
    { cbn [lvalue_live]. by rewrite Ha2. }
    { intros k ->%list_elem_of_singleton Hin. apply Hfresh. set_solver. }
    assert (Hal' : a ∉ addrs l').
    { intros Hin. apply Hfl in Hin. by rewrite Ha2 in Hin. }
    rewrite (after_copy_left _ _ _ _ _ Ha2 Hal') in Hcl.
    set (w3 := mkWorld (<[a := Node.mk d (rootp l') None]> (graft l' (heap w2)))
                 (objs w2) (capacity w2)) in *.
    unfold bind at 1.
    assert (Hchild : (match pl with
             | Some _ =>
                 bind (read_lvalue dest) (fun d0 =>
                   match d0 with
                   | Some d1 => copy_subtree fuel (LLeft d1) pl
                   | None => undefined
                   end)
             | None => ret tt
             end) w2 = (rl, w3)).
    { destruct pl as [pl |].
      - rewrite (bind_ok _ _ _ _ _ (read_lvalue_holds _ _ _ Hholds2)). exact Hcl.
      - rewrite copy_subtree_null in Hcl by lia. exact Hcl. }
    rewrite Hchild. clear Hchild.

    assert (Hcap2 : capacity w2 = capacity w) by done.
    assert (Hobjs3 : objs w3 = poke_objs dest (Some a) (objs w)) by done.
    assert (Hnone2 : ∀ k, heap w2 !! k = None →
                          heap w !! k = None ∧ k ≠ a ∧ k ∉ lvalue_addr dest).
    { intros k Hk. cbn in Hk. rewrite lookup_poke_heap in Hk.
      assert (Hk1 : <[a := Node.mk d None None]> (heap w) !! k = None ∧
                    k ∉ lvalue_addr dest).
      { case_decide as Hkd; [| done]. apply fmap_None in Hk.
        destruct dest as [o | b | b]; cbn in Hkd, Hlive1;
          [by apply elem_of_nil in Hkd | |];
          apply list_elem_of_singleton in Hkd as ->; rewrite Hk in Hlive1;
          by destruct Hlive1. }
      destruct Hk1 as [Hk1 Hkd]. rewrite lookup_insert in Hk1.
      case_decide; [done | by split_and!]. }
    assert (Hl'fresh : ∀ k, k ∈ addrs l' →
                            heap w !! k = None ∧ k ≠ a ∧ k ∉ lvalue_addr dest).
    { intros k Hk. by apply Hnone2, Hfl. }
    assert (Hsize3 : size (heap w3) = S (size (heap w)) + nodes l').
    { cbn [heap w3]. rewrite map_size_insert_Some.
      - rewrite size_graft by done. by rewrite Hsize2.
      - rewrite lookup_graft, tree_lookup_None by done. by rewrite Ha2. }
    assert (Hw3 : w3 = after_copy dest (Nd a l' d Leaf) w).
    { rewrite <- copy_node_world; [| done | done |].
      - unfold w3. cbn [graft rootp]. by rewrite insert_insert_eq.
      - intros k Hk. split; [| apply not_elem_of_nil].
        intros Hin. by apply Hl'fresh in Hin as (_ & _ & ?). }
    assert (Hnd3 : NoDup (addrs l' ++ [a])).
    { apply NoDup_app. split_and!; [done | | apply NoDup_singleton].
      by intros k Hk ->%list_elem_of_singleton. }
    destruct Hresl as [[-> Hel] | [-> Hcapl]].
    2:{ exists (Throw BadAlloc), (Nd a l' d Leaf). split_and!.
        - by rewrite Hw3.
        - exact Hnd3.
        - intros k [Hk | ->%list_elem_of_singleton]%elem_of_app; [| done].
          by apply Hl'fresh.
        - intros _. unfold nodes in *. cbn [addrs]. rewrite length_app. cbn [length].
          rewrite Hcap2 in Hszl. lia.
        - right. split; [done |]. unfold nodes in *. cbn [addrs].
          rewrite length_app. cbn [length]. rewrite Hcap2 in Hcapl. lia. }
    (* the right child *)
    assert (Hold3 : ∀ k, k ≠ a → k ∉ addrs l' → heap w3 !! k = heap w2 !! k).
    { intros k Hka Hkl. cbn [heap w3]. rewrite lookup_insert_ne by done.
      by rewrite lookup_graft, tree_lookup_None. }
    assert (Hlive2 : ∀ k, is_Some (heap w2 !! k) → k ∉ addrs l').
    { intros k [n Hn] Hin. apply Hfl in Hin. by rewrite Hin in Hn. }
    assert (Hs3 : deref (heap w3) (Some s) = Ok (Node.mk d pl pr)).
    { cbn [deref] in *. rewrite Hold3; [done | |].
      - intros ->. by rewrite Ha in Hs.
      - apply Hlive2. destruct (heap w2 !! s); [by eexists | done]. }
    rewrite (bind_ok _ _ _ _ _ (load_ok _ _ _ Hs3)). cbn [Node.right].
    assert (Ha3 : heap w3 !! a = Some (Node.mk d (rootp l') None)).
    { cbn [heap w3]. by rewrite lookup_insert_eq. }
    assert (Hholds3 : lvalue_holds dest (Some a) w3).
    { eapply lvalue_holds_agree; [| | exact Hholds2]; [done |].
      intros k Hk. apply Hold3; [by intros -> |].
      intros Hin. by apply Hl'fresh in Hin as (_ & _ & ?). }
    destruct (IHr fuel (LRight a) pr w3) as (rr & r' & Hcr & Hndr & Hfr & Hszr & Hresr).
    { eapply repr_frame; [| exact Hr]. intros k Hk.
      assert (Hka : k ≠ a) by (intros ->; apply Hfresh; set_solver).
      assert (Hkd : k ∉ lvalue_addr dest).
      { intros Hin. apply (Hdest _ Hin). cbn. set_solver. }
      rewrite Hold3, Hold2; [done | done | done | done |].
      apply Hlive2. rewrite Hold2 by done. by eapply repr_live. }
    { lia. }
    { cbn [lvalue_live]. by rewrite Ha3. }
    { intros k ->%list_elem_of_singleton Hin. apply Hfresh. set_solver. }
    assert (Har' : a ∉ addrs r').
    { intros Hin. apply Hfr in Hin. by rewrite Ha3 in Hin. }
    rewrite (after_copy_right _ _ _ _ _ Ha3 Har') in Hcr.
    assert (Hchild : (match pr with
             | Some _ =>
                 bind (read_lvalue dest) (fun d0 =>
                   match d0 with
                   | Some d1 => copy_subtree fuel (LRight d1) pr
                   | None => undefined
                   end)
             | None => ret tt
             end) w3 = copy_subtree fuel (LRight a) pr w3).
    { destruct pr as [pr |].
      - by rewrite (bind_ok _ _ _ _ _ (read_lvalue_holds _ _ _ Hholds3)).
      - by rewrite copy_subtree_null by lia. }
    rewrite Hchild, Hcr. clear Hchild.
    assert (Hr'fresh : ∀ k, k ∈ addrs r' →
              heap w !! k = None ∧ k ≠ a ∧ (k ∉ lvalue_addr dest) ∧ (k ∉ addrs l')).
    { intros k Hk. apply Hfr in Hk. cbn [heap w3] in Hk.
      assert (Hka : k ≠ a) by (intros ->; by rewrite lookup_insert_eq in Hk).
      rewrite lookup_insert_ne in Hk by done.
      apply graft_fresh in Hk as [Hkl Hk]. apply Hnone2 in Hk. naive_solver. }
    exists rr, (Nd a l' d r'). split_and!.
    + f_equal. rewrite <- copy_node_world; [done | done | done |].
      intros k Hk. split; intros Hin.
      * by apply Hl'fresh in Hin as (_ & _ & ?).
      * by apply Hr'fresh in Hin as (_ & _ & ? & _).
    + cbn [addrs]. apply NoDup_app. split_and!; [done | | by apply NoDup_cons].
      intros k Hkl [-> | Hkr]%elem_of_cons; [done |].
      by apply Hr'fresh in Hkr as (_ & _ & _ & ?).
    + intros k [Hk | [-> | Hk]%elem_of_cons]%elem_of_app; [| done |].
      * by apply Hl'fresh.
      * by apply Hr'fresh.
    + intros _. unfold nodes in *. cbn [addrs]. rewrite length_app. cbn [length].
      cbn [capacity w3] in Hszr. rewrite Hcap2 in Hszl, Hszr. lia.
    + unfold nodes in *. cbn [addrs erase]. rewrite length_app. cbn [length].
      destruct Hresr as [[-> Her] | [-> Hcapr]].
      * left. split; [done |]. by rewrite Hel, Her.
      * right. split; [done |]. cbn [capacity w3] in Hcapr. rewrite Hcap2 in Hcapr.
        pose proof (erase_nodes _ _ Hel) as Hnl. unfold nodes in Hnl. lia.
Qed.

End Copying.

Section Members.
Context {T : Type} {E : Element T}.
Implicit Types (w : world T) (h : gmap positive (Node.t T)) (t : tree T).

Lemma insert_spec w this bt t v :
  objs w !! this = Some bt → repr (heap w) (root bt) t → NoDup (addrs t) →
  insert this v w =
    match t_insert (fresh (dom (heap w))) v t with
    | None => (Throw DuplicateInsertionError, w)
    | Some t' =>
        if decide (size (heap w) < capacity w)
        then (Ok tt,
              mkWorld (graft t' (heap w))
                (<[this := mkBinaryTree (rootp t') (size_t_wrap (node_count bt + 1))]>
                   (objs w))
                (capacity w))
        else (Throw BadAlloc,
              mkWorld (heap w)
                (<[this := mkBinaryTree (root bt) (size_t_wrap (node_count bt + 1))]>
                   (objs w))
                (capacity w))
    end.
Proof.
  intros Hthis Hrepr Hnd. unfold insert, try_catch.
  rewrite (bind_ok _ _ _ _ _ (get_obj_ok _ _ _ Hthis)).
  unfold bind, with_bound.
  rewrite (insert_node_spec t _ this _ w bt v Hrepr Hnd
             (height_lt_bound _ _ _ Hrepr Hnd) Hthis).
  destruct (t_insert (fresh (dom (heap w))) v t) as [t' |]; [| done].
  cbn zeta. case_decide; [| done].
  erewrite set_root_ok; [| cbn; apply lookup_insert_eq].
  cbn. by rewrite insert_insert_eq.
Qed.

Lemma destroy_root_spec w this bt t :
  objs w !! this = Some bt → repr (heap w) (root bt) t → NoDup (addrs t) →
  destroy_root this w =
    (Ok tt, mkWorld (free_all (addrs t) (heap w)) (objs w) (capacity w)).
Proof.
  intros Hthis Hrepr Hnd. unfold destroy_root.
  rewrite (bind_ok _ _ _ _ _ (get_obj_ok _ _ _ Hthis)). unfold with_bound.
  apply destroy_tree_spec; [done | done |]. by eapply height_lt_bound.
Qed.

Lemma holds_det w o t1 t2 : holds w o t1 → holds w o t2 → t1 = t2.
Proof.
  intros (bt1 & Ho1 & Hr1 & _) (bt2 & Ho2 & Hr2 & _).
  rewrite Ho1 in Ho2. injection Ho2 as <-. by eapply repr_det.
Qed.

Lemma dom_graft t h : dom (graft t h) = list_to_set (addrs t) ∪ dom h.
Proof.
  revert h. induction t as [| a l IHl d r IHr]; intros h; cbn [graft addrs].
  - cbn. set_solver.
  - rewrite dom_insert_L, IHr, IHl, list_to_set_app_L. cbn. set_solver.
Qed.

(** A world changes into another where one container has a new tree,
    built from its own old nodes and from fresh ones. *)
Lemma inv_update w w' this :
  inv w →
  capacity w' = capacity w →
  size (heap w') ≤ capacity w' →
  (∀ o, o ≠ this → objs w' !! o = objs w !! o) →
  (∀ k, (∀ t, holds w this t → k ∉ addrs t) → is_Some (heap w !! k) →
        heap w' !! k = heap w !! k) →
  (∀ bt', objs w' !! this = Some bt' →
     ∃ t', repr (heap w') (root bt') t' ∧ NoDup (addrs t') ∧ placed t' ∧
           node_count bt' = Z.of_nat (nodes t') ∧
           (∀ k, k ∈ addrs t' → (∃ t, holds w this t ∧ k ∈ addrs t) ∨ heap w !! k = None)) →
  inv w'.
Proof.
  intros [Hcap Hsize Hholds Hdisj] Hcap' Hsize' Hothers Hframe Hthis.
  assert (Hkeep : ∀ o t, o ≠ this → holds w o t → holds w' o t).
  { intros o t Ho (bt & Hbt & Hrepr & Hnd). exists bt. split_and!; try done.
    - by rewrite Hothers.
    - eapply repr_frame; [| exact Hrepr]. intros k Hk. apply Hframe.
      + intros t0 Ht0 Hk0.
        apply (Hdisj o this t t0 Ho ltac:(by exists bt) Ht0 k Hk Hk0).
      + by eapply repr_live. }
  assert (Hback : ∀ o t, o ≠ this → holds w' o t → holds w o t).
  { intros o t Ho Hw'. pose proof Hw' as (bt & Hbt & _).
    rewrite Hothers in Hbt by done.
    destruct (Hholds _ _ Hbt) as (t0 & Hr0 & Hnd0 & _).
    assert (Ht0 : holds w o t0) by (by exists bt).
    by rewrite (holds_det _ _ _ _ Hw' (Hkeep _ _ Ho Ht0)). }
  split.
  - by rewrite Hcap'.
  - done.
  - intros o bt Hbt. destruct (decide (o = this)) as [-> | Ho].
    + destruct (Hthis _ Hbt) as (t' & ? & ? & ? & ? & _). by exists t'.
    + rewrite Hothers in Hbt by done.
      destruct (Hholds _ _ Hbt) as (t0 & Hr0 & Hnd0 & Hpl0 & Hc0).
      exists t0. split_and!; try done.
      assert (Ht0 : holds w o t0) by (by exists bt).
      destruct (Hkeep _ _ Ho Ht0) as (bt' & Hbt' & Hr' & _).
      rewrite Hothers, Hbt in Hbt' by done. by injection Hbt' as <-.
  - assert (Hone : ∀ o t1 t2, o ≠ this → holds w' this t1 → holds w' o t2 →
                              addrs t1 ## addrs t2).
    { intros o t1 t2 Ho Ht1 Ht2 k Hk1 Hk2.
      pose proof Ht1 as (bt1 & Hbt1 & Hr1 & _).
      destruct (Hthis _ Hbt1) as (t' & Hr' & _ & _ & _ & Hfrom).
      rewrite (repr_det _ _ _ _ Hr1 Hr') in Hk1.
      apply Hback in Ht2; [| done].
      destruct (Hfrom _ Hk1) as [(t0 & Ht0 & Hk0) | Hnone].
      - by apply (Hdisj this o t0 t2 (not_eq_sym Ho) Ht0 Ht2 k).
      - destruct Ht2 as (bt2 & _ & Hr2 & _).
        destruct (repr_live _ _ _ _ Hr2 Hk2) as [n Hn]. by rewrite Hnone in Hn. }
    intros o1 o2 t1 t2 Hne Ht1 Ht2.
    destruct (decide (o1 = this)) as [-> | Ho1]; [by eapply Hone |].
    destruct (decide (o2 = this)) as [-> | Ho2].
    { intros k Hk1 Hk2. by apply (Hone o1 t2 t1 Ho1 Ht2 Ht1 k). }
    apply (Hdisj o1 o2 t1 t2 Hne); by apply Hback.
Qed.


Lemma size_free_all ks h : size (free_all ks h) ≤ size h.
Proof.
  induction ks as [| k ks IH]; [done |]. rewrite free_all_cons.
  etrans; [| exact IH]. apply map_subseteq_size, delete_subseteq.
Qed.

Lemma tree_lookup_not_in t k : tree_lookup t k = None → k ∉ addrs t.
Proof.
  intros Hk Hin. destruct (tree_lookup_is_Some _ _ Hin) as [n Hn]. by rewrite Hn in Hk.
Qed.

Lemma lookup_graft_other t h k : k ∉ addrs t → graft t h !! k = h !! k.
Proof. intros Hk. by rewrite lookup_graft, tree_lookup_None. Qed.

Lemma inv_holds_tree w o bt :
  inv w → objs w !! o = Some bt →
  ∃ t, holds w o t ∧ repr (heap w) (root bt) t ∧ NoDup (addrs t) ∧ placed t ∧
       node_count bt = Z.of_nat (nodes t).
Proof.
  intros Hinv Hbt. destruct (inv_holds _ Hinv _ _ Hbt) as (t & ? & ? & ? & ?).
  exists t. split_and!; try done. by exists bt.
Qed.

Lemma inv_nodes_small w p t :
  inv w → repr (heap w) p t → NoDup (addrs t) → (Z.of_nat (nodes t) < 2 ^ SIZE_WIDTH)%Z.
Proof.
  intros Hinv Hrepr Hnd. pose proof (nodes_le_size _ _ _ Hrepr Hnd).
  pose proof (inv_size _ Hinv). pose proof (inv_capacity _ Hinv). lia.
Qed.

(** The container [o] gets a tree of nodes that were not allocated
    before. *)
Lemma inv_fresh_tree w o t' n :
  inv w → NoDup (addrs t') → (∀ k, k ∈ addrs t' → heap w !! k = None) → placed t' →
  size (heap w) + nodes t' ≤ capacity w → n = Z.of_nat (nodes t') →
  inv (mkWorld (graft t' (heap w)) (<[o := mkBinaryTree (rootp t') n]> (objs w)) (capacity w)).
Proof.
  intros Hinv Hnd Hfresh Hpl Hroom ->.
  apply (inv_update w _ o Hinv); cbn [heap objs capacity].
  - done.
  - rewrite size_graft by done. lia.
  - intros o' Ho'. by rewrite lookup_insert_ne.
  - intros k _ [n Hn]. apply lookup_graft_other. intros Hin.
    apply Hfresh in Hin. by rewrite Hin in Hn.
  - intros bt'. rewrite lookup_insert_eq. intros [= <-]. exists t'. cbn [root node_count].
    split_and!; try done; [by apply graft_repr | eauto].
Qed.

Lemma inv_declare w o :
  inv w → inv (mkWorld (heap w) (<[o := mkBinaryTree None 0]> (objs w)) (capacity w)).
Proof.
  intros Hinv.
  pose proof (inv_fresh_tree w o Leaf 0 Hinv) as H. cbn in H. apply H; try done.
  - constructor.
  - by intros k ?%elem_of_nil.
  - pose proof (inv_size _ Hinv). lia.
Qed.

(** The container [o] releases its nodes, and is then forgotten or left
    with the fields [bt] of an empty container. *)
Lemma inv_released w o t (after : option BinaryTree) :
  inv w → holds w o t →
  (∀ bt, after = Some bt → bt = mkBinaryTree None 0) →
  inv (mkWorld (free_all (addrs t) (heap w))
         (match after with Some bt => <[o := bt]> (objs w) | None => delete o (objs w) end)
         (capacity w)).
Proof.
  intros Hinv Ht Hafter.
  apply (inv_update w _ o Hinv); cbn [heap objs capacity].
  - done.
  - pose proof (size_free_all (addrs t) (heap w)). pose proof (inv_size _ Hinv). lia.
  - intros o' Ho'. destruct after; [by rewrite lookup_insert_ne | by rewrite lookup_delete_ne].
  - intros k Hk _. rewrite lookup_free_all. rewrite decide_False; [done |]. by apply Hk.
  - intros bt'. destruct after as [bt |].
    + rewrite lookup_insert_eq. intros [= <-]. rewrite (Hafter bt eq_refl).
      exists Leaf. cbn. split_and!; try done; [constructor | by intros k ?%elem_of_nil].
    + by rewrite lookup_delete_eq.
Qed.

Lemma size_graft_insert a v t t' h p :
  t_insert a v t = Some t' → repr h p t → NoDup (addrs t) → h !! a = None →
  size (graft t' h) = S (size h).
Proof.
  intros Hins Hrepr Hnd Ha.
  rewrite <- !size_dom, dom_graft.
  assert (list_to_set (addrs t') ∪ dom h = {[a]} ∪ dom h) as ->.
  { apply set_eq. intros k. rewrite !elem_of_union, elem_of_list_to_set.
    rewrite (t_insert_addrs _ _ _ _ Hins), elem_of_cons, elem_of_singleton.
    split; [| tauto]. intros [[-> | Hk] | Hk]; [tauto | | tauto].
    right. apply elem_of_dom. by eapply repr_live. }
  rewrite size_union, size_singleton; [done |].
  intros k ->%elem_of_singleton Hk%elem_of_dom. rewrite Ha in Hk. by destruct Hk.
Qed.

Lemma inv_insert w o v r w' :
  inv w → insert o v w = (r, w') → r = Ok tt ∨ r = Throw DuplicateInsertionError → inv w'.
Proof.
  intros Hinv Hrun Hr.
  destruct (objs w !! o) as [bt |] eqn:Hbt.
  2:{ unfold insert, try_catch, bind, get_obj in Hrun. rewrite Hbt in Hrun.
      injection Hrun as <- <-. by destruct Hr. }
  destruct (inv_holds_tree _ _ _ Hinv Hbt) as (t & Hholds & Hrepr & Hnd & Hpl & Hcount).
  rewrite (insert_spec _ _ _ _ _ Hbt Hrepr Hnd) in Hrun.
  destruct (t_insert (fresh (dom (heap w))) v t) as [t' |] eqn:Hins.
  2:{ by injection Hrun as <- <-. }
  case_decide as Hroom.
  2:{ injection Hrun as <- <-. by destruct Hr. }
  injection Hrun as <- <-.
  pose proof (fresh_heap (heap w)) as Ha.
  pose proof (repr_fresh _ _ _ Hrepr) as Hat.
  apply (inv_update w _ o Hinv); cbn [heap objs capacity].
  - done.
  - rewrite (size_graft_insert _ _ _ _ _ _ Hins Hrepr Hnd Ha). lia.
  - intros o' Ho'. by rewrite lookup_insert_ne.
  - intros k Hk [n Hn]. apply lookup_graft_other.
    rewrite (t_insert_addrs _ _ _ _ Hins). intros [-> | Hin]%elem_of_cons.
    + by rewrite Ha in Hn.
    + by apply (Hk t).
  - intros bt'. rewrite lookup_insert_eq. intros [= <-]. exists t'. cbn [root node_count].
    split_and!.
    + apply graft_repr. by eapply t_insert_NoDup.
    + by eapply t_insert_NoDup.
    + by eapply t_insert_placed.
    + rewrite (t_insert_nodes _ _ _ _ Hins), Hcount.
      pose proof (inv_nodes_small _ _ _ Hinv Hrepr Hnd).
      pose proof (nodes_le_size _ _ _ Hrepr Hnd). pose proof (inv_capacity _ Hinv).
      rewrite size_t_wrap_small; lia.
    + intros k. rewrite (t_insert_addrs _ _ _ _ Hins). intros [-> | Hin]%elem_of_cons.
      * by right.
      * left. by exists t.
Qed.

End Members.

Section Objects.
Context {T : Type} {E : Element T}.
Implicit Types (w : world T) (h : gmap positive (Node.t T)) (t : tree T).

Lemma constructing_spec w o body :
  constructing o body w =
    match objs w !! o with
    | Some _ => (Undefined, w)
    | None =>
        match body (mkWorld (heap w) (<[o := mkBinaryTree None 0]> (objs w)) (capacity w)) with
        | (Throw e, w2) => (Throw e, mkWorld (heap w2) (delete o (objs w2)) (capacity w2))
        | r => r
        end
    end.
Proof.
  unfold constructing, bind, declare, try_catch, forget, throw.
  destruct (objs w !! o); [done |]. by destruct (body _) as [[] ?].
Qed.

Lemma BinaryTree_default_spec w o :
  BinaryTree_default o w =
    match objs w !! o with
    | Some _ => (Undefined, w)
    | None => (Ok tt, mkWorld (heap w) (<[o := mkBinaryTree None 0]> (objs w)) (capacity w))
    end.
Proof. unfold BinaryTree_default. by rewrite constructing_spec. Qed.

Lemma BinaryTree_destroy_spec w o bt t :
  objs w !! o = Some bt → repr (heap w) (root bt) t → NoDup (addrs t) →
  BinaryTree_destroy o w =
    (Ok tt, mkWorld (free_all (addrs t) (heap w)) (delete o (objs w)) (capacity w)).
Proof.
  intros Hbt Hrepr Hnd. unfold BinaryTree_destroy.
  by rewrite (bind_ok _ _ _ _ _ (destroy_root_spec _ _ _ _ Hbt Hrepr Hnd)).
Qed.

Lemma free_all_graft t h :
  (∀ k, k ∈ addrs t → h !! k = None) → free_all (addrs t) (graft t h) = h.
Proof.
  intros Hfresh. apply map_eq. intros k. rewrite lookup_free_all.
  case_decide as Hk; [by rewrite Hfresh | by apply lookup_graft_other].
Qed.

Lemma after_copy_root w o bt a l d r :
  objs w !! o = Some bt →
  after_copy (LRoot o) (Nd a l d r) w =
    mkWorld (graft (Nd a l d r) (heap w))
      (<[o := mkBinaryTree (Some a) (node_count bt)]> (objs w)) (capacity w).
Proof.
  intros Hbt. unfold after_copy, poke. cbn [poke_heap poke_objs heap objs capacity rootp].
  by rewrite (alter_Some _ _ _ _ Hbt).
Qed.

(** The world when [copy_subtree(root, src)] of the container [o] ends,
    normally or not: [t'] is what has been built. *)
Lemma copy_root_spec w o bt src ts :
  objs w !! o = Some bt → repr (heap w) src ts → NoDup (addrs ts) →
  ∃ r t',
    with_bound (fun fuel => copy_subtree fuel (LRoot o) src) w =
      (r, match t' with
          | Leaf => w
          | Nd _ _ _ _ =>
              mkWorld (graft t' (heap w))
                (<[o := mkBinaryTree (rootp t') (node_count bt)]> (objs w)) (capacity w)
          end) ∧
    NoDup (addrs t') ∧
    (∀ k, k ∈ addrs t' → heap w !! k = None) ∧
    (size (heap w) ≤ capacity w → size (heap w) + nodes t' ≤ capacity w) ∧
    ((r = Ok tt ∧ erase t' = erase ts) ∨
     (r = Throw BadAlloc ∧ capacity w < size (heap w) + nodes ts)).
Proof.
  intros Hbt Hrepr Hnd. unfold with_bound.
  destruct (copy_subtree_spec ts (depth_bound w) (LRoot o) src w)
    as (r & t' & Hcopy & Hnd' & Hfresh & Hsize & Hres).
  - done.
  - by eapply height_lt_bound.
  - cbn. by rewrite Hbt.
  - by intros k ?%elem_of_nil.
  - exists r, t'. split_and!; try done. rewrite Hcopy. f_equal.
    destruct t' as [| a l d r']; [done |]. by apply after_copy_root.
Qed.

Lemma copy_from_spec w o bt other bo ts :
  objs w !! o = Some bt → root bt = None →
  objs w !! other = Some bo → repr (heap w) (root bo) ts → NoDup (addrs ts) →
  ∃ r w' t',
    copy_from o other w = (r, w') ∧
    NoDup (addrs t') ∧
    (∀ k, k ∈ addrs t' → heap w !! k = None) ∧
    (size (heap w) ≤ capacity w → size (heap w) + nodes t' ≤ capacity w) ∧
    ((r = Ok tt ∧ erase t' = erase ts ∧
      w' = match t' with
           | Leaf => w
           | Nd _ _ _ _ =>
               mkWorld (graft t' (heap w))
                 (<[o := mkBinaryTree (rootp t') (node_count bo)]> (objs w)) (capacity w)
           end) ∨
     (r = Throw BadAlloc ∧ capacity w < size (heap w) + nodes ts ∧
      w' = match t' with
           | Leaf => w
           | Nd _ _ _ _ =>
               mkWorld (heap w)
                 (<[o := mkBinaryTree (rootp t') (node_count bt)]> (objs w)) (capacity w)
           end)).
Proof.
  intros Hbt Hroot Hbo Hrepr Hnd. unfold copy_from.
  destruct ts as [| s l d r0].
  { cbn in Hrepr. exists (Ok tt), w, Leaf.
    unfold try_catch. rewrite (bind_ok _ _ _ _ _ (get_obj_ok _ _ _ Hbo)). rewrite Hrepr.
    cbn. split_and!; [done | constructor | by intros k ?%elem_of_nil | lia | by left]. }
  assert (Hsrc : root bo = Some s) by (by destruct Hrepr as [-> _]).
  destruct (copy_root_spec w o bt (root bo) _ Hbt Hrepr Hnd)
    as (r & t' & Hcopy & Hnd' & Hfresh & Hsize & Hres).
  destruct Hres as [[-> Herase] | [-> Hcap]].
  - destruct t' as [| a l' d' r']; [done |].
    eexists (Ok tt), _, (Nd a l' d' r'). split_and!; try done; [| left; split_and!; done].
    unfold try_catch.
    rewrite (bind_ok _ _ _ _ _ (get_obj_ok _ _ _ Hbo)). rewrite Hsrc. rewrite <- Hsrc.
    rewrite (bind_ok _ _ _ _ _ Hcopy).
    set (w1 := mkWorld _ _ _).
    assert (∃ bo', objs w1 !! other = Some bo' ∧ node_count bo' = node_count bo)
      as (bo' & Hbo' & Hcnt).
    { cbn. rewrite lookup_insert. case_decide; [| by exists bo].
      subst. eexists. split; [done |]. cbn. congruence. }
    rewrite (bind_ok _ _ _ _ _ (get_obj_ok _ _ _ Hbo')).
    erewrite set_node_count_ok; [| cbn; apply lookup_insert_eq].
    cbn. by rewrite insert_insert_eq, Hcnt.
  - eexists (Throw BadAlloc), _, t'. split_and!; try done;
      [| right; split_and!; done].
    unfold try_catch.
    rewrite (bind_ok _ _ _ _ _ (get_obj_ok _ _ _ Hbo)). rewrite Hsrc. rewrite <- Hsrc.
    rewrite (bind_throw _ _ _ _ _ Hcopy).
    destruct t' as [| a l' d' r'].
    + erewrite (bind_ok (destroy_root o)); [done |].
      rewrite (destroy_root_spec w o bt Leaf Hbt); [| by rewrite Hroot | constructor].
      cbn. by rewrite world_eta.
    + erewrite (bind_ok (destroy_root o)); [done |].
      erewrite (destroy_root_spec _ o _ (Nd a l' d' r'));
        [| cbn; apply lookup_insert_eq | cbn [heap root rootp]; by apply (graft_repr (Nd a l' d' r')) | done].
      cbn [heap objs capacity]. by rewrite free_all_graft.
Qed.


Lemma inv_copy_from w o bt other r w' :
  inv w → objs w !! o = Some bt → root bt = None →
  copy_from o other w = (r, w') → r = Ok tt ∨ r = Throw DuplicateInsertionError → inv w'.
Proof.
  intros Hinv Hbt Hroot Hrun Hr.
  destruct (objs w !! other) as [bo |] eqn:Hbo.
  2:{ unfold copy_from, try_catch, bind, get_obj in Hrun. rewrite Hbo in Hrun.
      injection Hrun as <- <-. by destruct Hr. }
  destruct (inv_holds_tree _ _ _ Hinv Hbo) as (ts & Hholds & Hrepr & Hnd & Hpl & Hcount).
  destruct (copy_from_spec w o bt other bo ts Hbt Hroot Hbo Hrepr Hnd)
    as (r1 & w1 & t' & Hcopy & Hnd' & Hfresh & Hsize & Hres).
  rewrite Hcopy in Hrun. injection Hrun as <- <-.
  destruct Hres as [(-> & Herase & ->) | (-> & _)]; [| by destruct Hr].
  destruct t' as [| a l d r']; [done |].
  apply inv_fresh_tree; try done.
  - eapply erase_placed; [symmetry; exact Herase | done].
  - apply Hsize. by apply inv_size.
  - by rewrite Hcount, (erase_nodes _ _ Herase).
Qed.

Lemma inv_BinaryTree_default w o r w' :
  inv w → BinaryTree_default o w = (r, w') →
  r = Ok tt ∨ r = Throw DuplicateInsertionError → inv w'.
Proof.
  intros Hinv Hrun Hr. rewrite BinaryTree_default_spec in Hrun.
  destruct (objs w !! o); injection Hrun as <- <-; [by destruct Hr | by apply inv_declare].
Qed.

Lemma inv_forget w o :
  inv w → inv (mkWorld (heap w) (delete o (objs w)) (capacity w)).
Proof.
  intros Hinv. apply (inv_update w _ o Hinv); cbn [heap objs capacity]; try done.
  - by apply inv_size.
  - intros o' Ho'. by rewrite lookup_delete_ne.
  - intros bt'. by rewrite lookup_delete_eq.
Qed.

Lemma inv_constructing w o body r w' :
  inv w →
  (∀ w1 w1', inv w1 → objs w1 !! o = Some (mkBinaryTree None 0) →
     body w1 = (Ok tt, w1') → inv w1') →
  (∀ w1 w1', inv w1 → objs w1 !! o = Some (mkBinaryTree None 0) →
     body w1 = (Throw DuplicateInsertionError, w1') →
     inv (mkWorld (heap w1') (delete o (objs w1')) (capacity w1'))) →
  constructing o body w = (r, w') →
  r = Ok tt ∨ r = Throw DuplicateInsertionError → inv w'.
Proof.
  intros Hinv Hok Hthrow Hrun Hr. rewrite constructing_spec in Hrun.
  destruct (objs w !! o) eqn:Ho; [injection Hrun as <- <-; by destruct Hr |].
  destruct (body _) as [r1 w1] eqn:Hb.
  pose proof (inv_declare w o Hinv) as Hinv1.
  assert (Ho1 : objs (mkWorld (heap w) (<[o := mkBinaryTree None 0]> (objs w)) (capacity w))
                  !! o = Some (mkBinaryTree None 0)) by apply lookup_insert_eq.
  destruct r1 as [[] | e | |]; injection Hrun as <- <-; try (by destruct Hr).
  - by eapply Hok.
  - destruct Hr as [? | [= ->]]; [done |]. by eapply Hthrow.
Qed.

Lemma inv_BinaryTree_copy w o other r w' :
  inv w → BinaryTree_copy o other w = (r, w') →
  r = Ok tt ∨ r = Throw DuplicateInsertionError → inv w'.
Proof.
  intros Hinv. apply inv_constructing; [done | |].
  - intros w1 w1' Hinv1 Ho Hrun.
    eapply (inv_copy_from _ o (mkBinaryTree None 0)); [done | done | done | exact Hrun |].
    by left.
  - intros w1 w1' Hinv1 Ho Hrun. apply inv_forget.
    eapply (inv_copy_from _ o (mkBinaryTree None 0)); [done | done | done | exact Hrun |].
    by right.
Qed.

Lemma operator_assign_reset w o bt t :
  objs w !! o = Some bt → repr (heap w) (root bt) t → NoDup (addrs t) →
  (let* _ := destroy_root o in
   let* _ := set_root o None in
   set_node_count o 0) w =
    (Ok tt, mkWorld (free_all (addrs t) (heap w)) (<[o := mkBinaryTree None 0]> (objs w))
              (capacity w)).
Proof.
  intros Hbt Hrepr Hnd.
  rewrite (bind_ok _ _ _ _ _ (destroy_root_spec _ _ _ _ Hbt Hrepr Hnd)).
  erewrite (bind_ok (set_root o None)); [| by apply set_root_ok].
  erewrite set_node_count_ok; [| cbn; apply lookup_insert_eq].
  cbn. by rewrite insert_insert_eq.
Qed.

Lemma operator_assign_unfold o other (Hne : o ≠ other) w :
  operator_assign o other w =
    bind (let* _ := destroy_root o in
          let* _ := set_root o None in
          set_node_count o 0) (fun _ => copy_from o other) w.
Proof.
  unfold operator_assign. rewrite decide_False by done.
  unfold bind. destruct (destroy_root o w) as [[] ?]; try done.
  by destruct (set_root o None w0) as [[] ?].
Qed.

Lemma inv_operator_assign w o other r w' :
  inv w → operator_assign o other w = (r, w') →
  r = Ok tt ∨ r = Throw DuplicateInsertionError → inv w'.
Proof.
  intros Hinv Hrun Hr.
  destruct (decide (o = other)) as [-> | Hne].
  { unfold operator_assign in Hrun. rewrite decide_True in Hrun by done.
    by injection Hrun as <- <-. }
  rewrite operator_assign_unfold in Hrun by done.
  destruct (objs w !! o) as [bt |] eqn:Hbt.
  2:{ unfold bind at 1 2, destroy_root in Hrun. unfold bind at 1, get_obj in Hrun.
      rewrite Hbt in Hrun. injection Hrun as <- <-. by destruct Hr. }
  destruct (inv_holds_tree _ _ _ Hinv Hbt) as (t & Hholds & Hrepr & Hnd & Hpl & Hcount).
  rewrite (bind_ok _ _ _ _ _ (operator_assign_reset _ _ _ _ Hbt Hrepr Hnd)) in Hrun.
  eapply (inv_copy_from _ o (mkBinaryTree None 0)); [| | done | exact Hrun | done].
  - by apply (inv_released w o t (Some (mkBinaryTree None 0)) Hinv Hholds); intros ? [= <-].
  - cbn. apply lookup_insert_eq.
Qed.

Lemma inv_BinaryTree_destroy w o r w' :
  inv w → BinaryTree_destroy o w = (r, w') →
  r = Ok tt ∨ r = Throw DuplicateInsertionError → inv w'.
Proof.
  intros Hinv Hrun Hr.
  destruct (objs w !! o) as [bt |] eqn:Hbt.
  2:{ unfold BinaryTree_destroy, bind at 1, destroy_root, bind, get_obj in Hrun.
      rewrite Hbt in Hrun. injection Hrun as <- <-. by destruct Hr. }
  destruct (inv_holds_tree _ _ _ Hinv Hbt) as (t & Hholds & Hrepr & Hnd & Hpl & Hcount).
  rewrite (BinaryTree_destroy_spec _ _ _ _ Hbt Hrepr Hnd) in Hrun. injection Hrun as <- <-.
  by apply (inv_released w o t None Hinv Hholds).
Qed.

Lemma inv_insert_range o values : ∀ w r w',
  inv w → insert_range o values w = (r, w') →
  r = Ok tt ∨ r = Throw DuplicateInsertionError → inv w'.
Proof.
  induction values as [| v values IH]; intros w r w' Hinv Hrun Hr; cbn in Hrun.
  - by injection Hrun as <- <-.
  - unfold bind in Hrun. destruct (insert o v w) as [r1 w1] eqn:Hins.
    destruct r1 as [[] | e | |].
    + eapply IH; [| exact Hrun | done]. eapply inv_insert; [done | exact Hins | by left].
    + injection Hrun as <- <-. eapply inv_insert; [done | exact Hins | done].
    + injection Hrun as <- <-. by destruct Hr.
    + injection Hrun as <- <-. by destruct Hr.
Qed.

Lemma destroy_tree_no_throw fuel : ∀ p w e w', destroy_tree fuel p w ≠ (Throw e, w').
Proof.
  induction fuel as [| fuel IH]; intros p w e w' Hrun; cbn [destroy_tree] in Hrun; [done |].
  destruct p as [a |]; [| done].
  unfold bind, load, lift in Hrun. cbn [deref] in Hrun.
  destruct (heap w !! a) as [n |]; [| done].
  destruct (destroy_tree fuel (Node.left n) w) as [[[] | e1 | |] w1] eqn:Hl; try done.
  2:{ by apply IH in Hl. }
  destruct (heap w1 !! a) as [n1 |]; [| done].
  destruct (destroy_tree fuel (Node.right n1) w1) as [[[] | e2 | |] w2] eqn:Hr; try done.
  2:{ by apply IH in Hr. }
  unfold delete_Node in Hrun. by destruct (heap w2 !! a).
Qed.

Lemma destroy_root_no_throw o w e w' : destroy_root o w ≠ (Throw e, w').
Proof.
  unfold destroy_root, bind, get_obj, with_bound. destruct (objs w !! o); [| done].
  apply destroy_tree_no_throw.
Qed.

Lemma destroy_root_outcome w o r w' :
  inv w → destroy_root o w = (r, w') →
  r = Undefined ∧ w' = w ∨
  ∃ t, holds w o t ∧ r = Ok tt ∧
       w' = mkWorld (free_all (addrs t) (heap w)) (objs w) (capacity w).
Proof.
  intros Hinv Hrun.
  destruct (objs w !! o) as [bt |] eqn:Hbt.
  2:{ unfold destroy_root, bind, get_obj in Hrun. rewrite Hbt in Hrun.
      injection Hrun as <- <-. by left. }
  destruct (inv_holds_tree _ _ _ Hinv Hbt) as (t & Hholds & Hrepr & Hnd & Hpl & Hcount).
  rewrite (destroy_root_spec _ _ _ _ Hbt Hrepr Hnd) in Hrun. injection Hrun as <- <-.
  right. by exists t.
Qed.

Lemma inv_BinaryTree_range w o values r w' :
  inv w → BinaryTree_range o values w = (r, w') →
  r = Ok tt ∨ r = Throw DuplicateInsertionError → inv w'.
Proof.
  intros Hinv. apply inv_constructing; [done | |].
  - intros w1 w1' Hinv1 Ho Hrun. unfold try_catch in Hrun.
    destruct (insert_range o values w1) as [r2 w2] eqn:Hrange.
    destruct r2 as [[] | e | |]; try done.
    + injection Hrun as <-. eapply inv_insert_range; [exact Hinv1 | exact Hrange | by left].
    + unfold bind in Hrun. by destruct (destroy_root o w2) as [[] ?].
  - intros w1 w1' Hinv1 Ho Hrun. unfold try_catch in Hrun.
    destruct (insert_range o values w1) as [r2 w2] eqn:Hrange.
    destruct r2 as [[] | e | |]; try done.
    unfold bind in Hrun. destruct (destroy_root o w2) as [r3 w3] eqn:Hd.
    destruct r3 as [[] | e3 | |]; try done; [| by apply destroy_root_no_throw in Hd].
    injection Hrun as -> <-.
    assert (Hinv2 : inv w2).
    { eapply inv_insert_range; [exact Hinv1 | exact Hrange | by right]. }
    destruct (destroy_root_outcome _ _ _ _ Hinv2 Hd) as [[? _] | (t & Ht & _ & ->)]; [done |].
    by apply (inv_released w2 o t None Hinv2 Ht).
Qed.


Lemma subtree_spec w this bt t v o :
  objs w !! o = None → objs w !! this = Some bt →
  repr (heap w) (root bt) t → NoDup (addrs t) →
  size (heap w) ≤ capacity w → (Z.of_nat (capacity w) < 2 ^ SIZE_WIDTH)%Z →
  ∃ r w' t',
    subtree this v o w = (r, w') ∧
    NoDup (addrs t') ∧
    (∀ k, k ∈ addrs t' → heap w !! k = None) ∧
    size (heap w) + nodes t' ≤ capacity w ∧
    ((r = Ok tt ∧ erase t' = erase (t_find v t) ∧
      w' = mkWorld (graft t' (heap w))
             (<[o := mkBinaryTree (rootp t') (Z.of_nat (nodes t'))]> (objs w)) (capacity w)) ∨
     (r = Throw BadAlloc ∧ capacity w < size (heap w) + nodes (t_find v t) ∧ w' = w)).
Proof.
  intros Ho Hbt Hrepr Hnd Hsize Hcap. unfold subtree.
  assert (Hdef := BinaryTree_default_spec w o). rewrite Ho in Hdef.
  rewrite (bind_ok _ _ _ _ _ Hdef). clear Hdef.
  set (w1 := mkWorld (heap w) (<[o := mkBinaryTree None 0]> (objs w)) (capacity w)).
  assert (Hne : this ≠ o) by (intros ->; by rewrite Ho in Hbt).
  assert (Hbt1 : objs w1 !! this = Some bt) by (cbn; by rewrite lookup_insert_ne).
  assert (Ho1 : objs w1 !! o = Some (mkBinaryTree None 0)) by apply lookup_insert_eq.
  set (ts := t_find v t).
  assert (Hts : repr (heap w1) (rootp ts) ts) by (by eapply t_find_repr).
  assert (Hndts : NoDup (addrs ts)) by (by apply t_find_NoDup).
  assert (Hfind : find_subtree (depth_bound w1) (heap w1) (root bt) v = Ok (rootp ts)).
  { apply find_subtree_spec; [done |]. by apply (height_lt_bound w1 (root bt)). }
  destruct ts as [| s l d r0] eqn:Ets.
  { exists (Ok tt), w1, Leaf. split_and!.
    - unfold try_catch. rewrite (bind_ok _ _ _ _ _ (get_obj_ok _ _ _ Hbt1)).
      unfold bind, lift. by rewrite Hfind.
    - constructor.
    - by intros k ?%elem_of_nil.
    - cbn. lia.
    - left. by split_and!. }
  destruct (copy_root_spec w1 o _ (Some s) _ Ho1 Hts Hndts)
    as (rc & t' & Hcopy & Hnd' & Hfresh & Hroom & Hres).
  specialize (Hroom Hsize). cbn [heap capacity w1] in Hroom, Hfresh.
  assert (Hbody : ∀ (k : M T unit),
    bind (get_obj this) (fun bt0 =>
      bind (lift (fun w0 => find_subtree (depth_bound w0) (heap w0) (root bt0) v))
        (fun subtree_root =>
           match subtree_root with
           | Some _ =>
               bind (with_bound (fun fuel => copy_subtree fuel (LRoot o) subtree_root))
                 (fun _ => k)
           | None => ret tt
           end)) w1 =
    bind (with_bound (fun fuel => copy_subtree fuel (LRoot o) (Some s))) (fun _ => k) w1).
  { intros k. rewrite (bind_ok _ _ _ _ _ (get_obj_ok _ _ _ Hbt1)).
    unfold bind at 1, lift. by rewrite Hfind. }
  destruct Hres as [[-> Herase] | [-> Hfull]].
  - destruct t' as [| a l' d' r']; [done |].
    exists (Ok tt),
      (mkWorld (graft (Nd a l' d' r') (heap w))
         (<[o := mkBinaryTree (Some a) (Z.of_nat (nodes (Nd a l' d' r')))]> (objs w))
         (capacity w)),
      (Nd a l' d' r').
    split_and!; [| done | done | done | left; by split_and!].
    unfold try_catch. rewrite Hbody. rewrite (bind_ok _ _ _ _ _ Hcopy).
    set (w2 := mkWorld _ _ _).
    assert (Ho2 : objs w2 !! o = Some (mkBinaryTree (Some a) 0)) by apply lookup_insert_eq.
    rewrite (bind_ok _ _ _ _ _ (get_obj_ok _ _ _ Ho2)).
    assert (Hrepr2 : repr (heap w2) (Some a) (Nd a l' d' r')).
    { by apply (graft_repr (Nd a l' d' r')). }
    assert (Hcount : count_nodes (depth_bound w2) (heap w2) (Some a) =
                     Ok (Z.of_nat (nodes (Nd a l' d' r')))).
    { apply count_nodes_spec; [done | by apply (height_lt_bound w2 (Some a)) | lia]. }
    unfold bind at 1, lift. cbn [root]. rewrite Hcount.
    erewrite set_node_count_ok; [| exact Ho2].
    cbn. by rewrite !insert_insert_eq.
  - exists (Throw BadAlloc), w, t'.
    split_and!; [| done | done | done | right; by split_and!].
    unfold try_catch. rewrite Hbody. rewrite (bind_throw _ _ _ _ _ Hcopy).
    unfold throw.
    destruct t' as [| a l' d' r'].
    + erewrite (bind_ok (BinaryTree_destroy o));
        [| apply (BinaryTree_destroy_spec w1 o _ Leaf Ho1); [done | constructor]].
      cbn. rewrite delete_insert_id by done. by rewrite world_eta.
    + erewrite (bind_ok (BinaryTree_destroy o));
        [| eapply (BinaryTree_destroy_spec _ o _ (Nd a l' d' r'));
           [apply lookup_insert_eq | by apply (graft_repr (Nd a l' d' r')) | done]].
      cbn [heap objs capacity w1]. rewrite free_all_graft by done.
      rewrite delete_insert_eq, delete_insert_id by done. by rewrite world_eta.
Qed.

Lemma inv_subtree w this v o r w' :
  inv w → subtree this v o w = (r, w') →
  r = Ok tt ∨ r = Throw DuplicateInsertionError → inv w'.
Proof.
  intros Hinv Hrun Hr.
  destruct (objs w !! o) as [bo |] eqn:Ho.
  { unfold subtree in Hrun. unfold bind at 1 in Hrun.
    rewrite BinaryTree_default_spec, Ho in Hrun. injection Hrun as <- <-. by destruct Hr. }
  destruct (objs w !! this) as [bt |] eqn:Hbt.
  2:{ unfold subtree in Hrun. unfold bind at 1 in Hrun.
      rewrite BinaryTree_default_spec, Ho in Hrun.
      unfold try_catch, bind, get_obj, lift in Hrun. cbn [objs heap] in Hrun.
      destruct (decide (this = o)) as [-> | Hne].
      - rewrite lookup_insert_eq in Hrun. cbn in Hrun. injection Hrun as <- <-.
        by apply inv_declare.
      - rewrite lookup_insert_ne, Hbt in Hrun by done. injection Hrun as <- <-.
        by destruct Hr. }
  destruct (inv_holds_tree _ _ _ Hinv Hbt) as (t & Hholds & Hrepr & Hnd & Hpl & Hcount).
  destruct (subtree_spec w this bt t v o Ho Hbt Hrepr Hnd (inv_size _ Hinv)
              (inv_capacity _ Hinv))
    as (r1 & w1 & t' & Hsub & Hnd' & Hfresh & Hroom & Hres).
  rewrite Hsub in Hrun. injection Hrun as <- <-.
  destruct Hres as [(-> & Herase & ->) | (-> & _)]; [| by destruct Hr].
  apply inv_fresh_tree; try done.
  eapply erase_placed; [symmetry; exact Herase |]. by apply t_find_placed.
Qed.

Lemma inv_step c w r w' :
  inv w → step c w = (r, w') → r = Ok tt ∨ r = Throw DuplicateInsertionError → inv w'.
Proof.
  destruct c; cbn [step].
  - apply inv_BinaryTree_default.
  - apply inv_BinaryTree_range.
  - apply inv_insert.
  - apply inv_BinaryTree_copy.
  - apply inv_operator_assign.
  - apply inv_subtree.
  - apply inv_BinaryTree_destroy.
Qed.

Lemma inv_run cs : ∀ w w', inv w → run cs w = Some w' → inv w'.
Proof.
  induction cs as [| c cs IH]; intros w w' Hinv Hrun; cbn in Hrun.
  - by injection Hrun as <-.
  - destruct (step c w) as [r w1] eqn:Hstep.
    destruct r as [[] | [] | |]; try done.
    + eapply IH; [| exact Hrun]. eapply inv_step; [done | exact Hstep | by left].
    + eapply IH; [| exact Hrun]. eapply inv_step; [done | exact Hstep | by right].
Qed.

Lemma inv_initial cap : (Z.of_nat cap < 2 ^ SIZE_WIDTH)%Z → inv (initial (T := T) cap).
Proof.
  intros Hcap. split; cbn.
  - done.
  - rewrite map_size_empty. lia.
  - intros o bt. by rewrite lookup_empty.
  - intros o1 o2 t1 t2 _ (bt & Hbt & _). cbn in Hbt. by rewrite lookup_empty in Hbt.
Qed.

Lemma reachable_inv w : reachable w → inv w.
Proof.
  intros (cs & cap & Hcap & Hrun). eapply inv_run; [| exact Hrun]. by apply inv_initial.
Qed.

End Objects.

Section Iteration.
Context {T : Type} {E : Element T}.
Implicit Types (w : world T) (h : gmap positive (Node.t T)) (t : tree T).

Lemma entries_addrs t : (entries t).*1 = addrs t.
Proof.
  induction t as [| a l IHl d r IHr]; cbn; [done |].
  rewrite fmap_app. cbn. by rewrite IHl, IHr.
Qed.

Lemma entries_inorder t : (entries t).*2 = inorder t.
Proof.
  induction t as [| a l IHl d r IHr]; cbn; [done |].
  rewrite fmap_app. cbn. by rewrite IHl, IHr.
Qed.

Lemma entries_lookup h p t k x :
  repr h p t → (k, x) ∈ entries t → ∃ n, h !! k = Some n ∧ Node.data n = x.
Proof.
  revert p. induction t as [| a l IHl d r IHr]; intros p; cbn.
  - by intros _ ?%elem_of_nil.
  - intros [-> (pl & pr & Ha & Hl & Hr)].
    intros [Hin | [[= -> ->] | Hin]%elem_of_cons]%elem_of_app; eauto.
Qed.

Lemma repr_data_in h p t k n :
  repr h p t → k ∈ addrs t → h !! k = Some n → Node.data n ∈ inorder t.
Proof.
  revert p. induction t as [| a l IHl d r IHr]; intros p; cbn.
  - by intros _ ?%elem_of_nil.
  - intros [-> (pl & pr & Ha & Hl & Hr)] Hin Hk.
    apply elem_of_app in Hin as [Hin | [-> | Hin]%elem_of_cons].
    + apply elem_of_app. left. eauto.
    + rewrite Ha in Hk. injection Hk as <-. apply elem_of_app. right. by left.
    + apply elem_of_app. right. right. eauto.
Qed.

Lemma successor_app_r ks1 ks2 k : k ∉ ks1 → successor (ks1 ++ ks2) k = successor ks2 k.
Proof.
  induction ks1 as [| x ks1 IH]; cbn; [done |]. intros Hk.
  rewrite decide_False; [apply IH |]; set_solver.
Qed.

Lemma successor_app_l ks1 ks2 x k :
  k ∈ ks1 →
  successor (ks1 ++ x :: ks2) k =
    match successor ks1 k with Some c => Some c | None => Some x end.
Proof.
  induction ks1 as [| y ks1 IH]; cbn; [by intros ?%elem_of_nil |]. intros Hk.
  case_decide as Hy.
  - by destruct ks1.
  - apply IH. set_solver.
Qed.

Lemma successor_here ks1 ks2 k : k ∉ ks1 → successor (ks1 ++ k :: ks2) k = head ks2.
Proof. intros Hk. rewrite successor_app_r by done. cbn. by rewrite decide_True. Qed.

Lemma descend_left_spec h t : ∀ fuel p,
  t ≠ Leaf → repr h p t → height t ≤ fuel → descend_left fuel h p = Ok (head (addrs t)).
Proof.
  induction t as [| a l IHl d r IHr]; intros fuel p Hne Hrepr Hfuel; [done |].
  destruct fuel as [| fuel]; [cbn in Hfuel; lia |]. cbn in Hfuel.
  apply deref_repr in Hrepr as (pl & pr & -> & Ha & Hd & Hl & Hr).
  cbn [descend_left]. rewrite Hd. cbn [obind Node.left].
  destruct l as [| b ll e lr].
  - cbn in Hl. subst. done.
  - pose proof Hl as [-> _]. rewrite (IHl fuel (Some b)); [| done | done | lia].
    cbn [addrs]. f_equal. by destruct (addrs ll).
Qed.

(** The branch of [findNext] for a node with a right child. *)
Lemma successor_right h t : ∀ p k n,
  repr h p t → NoDup (addrs t) → k ∈ addrs t → h !! k = Some n → is_Some (Node.right n) →
  ∃ rk, repr h (Node.right n) rk ∧ rk ≠ Leaf ∧ height rk ≤ height t ∧
        successor (addrs t) k = head (addrs rk).
Proof.
  induction t as [| a l IHl d r IHr]; intros p k n Hrepr Hnd Hin Hk Hright.
  { by apply elem_of_nil in Hin. }
  apply deref_repr in Hrepr as (pl & pr & -> & Ha & Hd & Hl & Hr).
  cbn in Hnd. apply NoDup_app in Hnd as (Hndl & Hlr & Hndr).
  apply NoDup_cons in Hndr as [Har Hndr].
  cbn [addrs] in *. apply elem_of_app in Hin as [Hin | [-> | Hin]%elem_of_cons].
  - destruct (IHl pl k n Hl Hndl Hin Hk Hright) as (rk & Hrk & Hne & Hh & Hs).
    exists rk. split_and!; [done | done | cbn; lia |].
    rewrite successor_app_l by done. rewrite Hs.
    destruct rk as [| b ? ? ?]; [done |]. cbn.
    by destruct (addrs rk1).
  - rewrite Ha in Hk. injection Hk as <-. cbn [Node.right] in *.
    exists r. split_and!; [done | | cbn; lia |].
    + intros ->. cbn in Hr. subst. by destruct Hright.
    + apply successor_here. intros Hin. apply (Hlr _ Hin). by left.
  - destruct (IHr pr k n Hr Hndr Hin Hk Hright) as (rk & Hrk & Hne & Hh & Hs).
    exists rk. split_and!; [done | done | cbn; lia |].
    rewrite successor_app_r.
    + cbn. rewrite decide_False; [done |]. by intros ->.
    + intros Hin'. apply (Hlr _ Hin'). by right.
Qed.

(** The branch of [findNext] for a node without a right child, when the
    element type's [operator<] is the configured ordering. *)
Lemma climb_spec h k n t :
  (∀ x y, operator_lt x y = compare x y) →
  h !! k = Some n → Node.right n = None →
  ∀ fuel p succ,
    repr h p t → NoDup (addrs t) → placed t → k ∈ addrs t → height t < fuel →
    climb fuel h (Some k) succ p =
      Ok (match successor (addrs t) k with Some c => Some c | None => succ end).
Proof.
  intros Hlt Hk Hright.
  induction t as [| a l IHl d r IHr]; intros fuel p succ Hrepr Hnd Hpl Hin Hfuel.
  { by apply elem_of_nil in Hin. }
  destruct fuel as [| fuel]; [cbn in Hfuel; lia |]. cbn in Hfuel.
  pose proof Hrepr as Hwhole.
  apply deref_repr in Hrepr as (pl & pr & -> & Ha & Hd & Hl & Hr).
  cbn in Hnd. apply NoDup_app in Hnd as (Hndl & Hlr & Hndr).
  apply NoDup_cons in Hndr as [Har Hndr].
  destruct Hpl as (Hleft & Hrightp & Hpll & Hplr).
  cbn [climb].
  destruct (decide (Some a = Some k)) as [[= ->] | Hne].
  - f_equal. cbn [addrs]. rewrite successor_here.
    2:{ intros Hin'. apply (Hlr _ Hin'). by left. }
    rewrite Ha in Hk. injection Hk as <-. cbn in Hright. subst.
    destruct r; [done | by destruct Hr].
  - assert (Hka : k ≠ a) by congruence.
    assert (Hdk : deref h (Some k) = Ok n) by (cbn; by rewrite Hk).
    rewrite Hdk, Hd. cbn [obind Node.data Node.left Node.right].
    cbn [addrs] in *. apply elem_of_app in Hin as [Hin | Hin].
    2:{ apply elem_of_cons in Hin as [Hin | Hin]; [done |].
        pose proof (repr_data_in _ _ _ _ _ Hr Hin Hk) as Hdata.
        rewrite Hlt. destruct (Hrightp _ Hdata) as [_ ->].
        rewrite (IHr fuel pr succ); [| done | done | done | done | lia].
        rewrite successor_app_r.
        - cbn. by rewrite decide_False.
        - intros Hin'. apply (Hlr _ Hin'). by right. }
    pose proof (repr_data_in _ _ _ _ _ Hl Hin Hk) as Hdata.
    rewrite Hlt. destruct (Hleft _ Hdata) as [_ ->].
    rewrite (IHl fuel pl (Some a)); [| done | done | done | done | lia].
    rewrite successor_app_l by done. by destruct (successor (addrs l) k).
Qed.

Lemma findNext_spec h p t c k :
  (∀ x y, operator_lt x y = compare x y) →
  repr h p t → NoDup (addrs t) → placed t → k ∈ addrs t →
  findNext h (const_iterator.mk c p) (Some k) = Ok (successor (addrs t) k).
Proof.
  intros Hlt Hrepr Hnd Hpl Hin.
  destruct (repr_live _ _ _ _ Hrepr Hin) as [n Hk].
  unfold findNext. cbn [deref]. rewrite Hk. cbn [obind const_iterator.root].
  pose proof (height_le_nodes t). pose proof (nodes_le_size _ _ _ Hrepr Hnd).
  destruct (Node.right n) as [b |] eqn:Hright.
  - destruct (successor_right h t p k n Hrepr Hnd Hin Hk) as (rk & Hrk & Hne & Hh & ->).
    { rewrite Hright. by eexists. }
    rewrite Hright in Hrk. apply descend_left_spec; [done | done | lia].
  - rewrite (climb_spec h k n t Hlt Hk Hright); [| done | done | done | done | lia].
    by destruct (successor (addrs t) k).
Qed.

Lemma iterate_from_spec {A} h bt t (body : T → A → A) :
  (∀ x y, operator_lt x y = compare x y) →
  repr h (root bt) t → NoDup (addrs t) → placed t →
  ∀ suf pre fuel acc,
    entries t = pre ++ suf → length suf < fuel →
    iterate_from fuel h bt body (const_iterator.mk (head suf.*1) (root bt)) acc =
      Ok (foldl (fun acc x => body x acc) acc suf.*2).
Proof.
  intros Hlt Hrepr Hnd Hpl.
  induction suf as [| [k x] suf IH]; intros pre fuel acc Hent Hfuel.
  - destruct fuel as [| fuel]; [cbn in Hfuel; lia |]. done.
  - destruct fuel as [| fuel]; [cbn in Hfuel; lia |]. cbn in Hfuel.
    cbn [iterate_from end_ const_iterator_new obind fmap list_fmap head fst].
    unfold operator_ne, operator_eq. cbn [const_iterator.current negb].
    rewrite bool_decide_false by done. cbn [negb].
    assert (Hkx : (k, x) ∈ entries t).
    { rewrite Hent. apply elem_of_app. right. by left. }
    destruct (entries_lookup _ _ _ _ _ Hrepr Hkx) as (n & Hk & Hx).
    unfold operator_deref. cbn [const_iterator.current deref]. rewrite Hk. cbn [obind].
    unfold operator_inc. cbn [const_iterator.current const_iterator.root].
    assert (Haddrs : addrs t = pre.*1 ++ k :: suf.*1).
    { rewrite <- entries_addrs, Hent, fmap_app. done. }
    rewrite (findNext_spec h (root bt) t (Some k) k Hlt Hrepr Hnd Hpl).
    2:{ rewrite Haddrs. apply elem_of_app. right. by left. }
    cbn [obind]. rewrite Haddrs, successor_here.
    2:{ rewrite Haddrs in Hnd. apply NoDup_app in Hnd as (_ & Hdisj & _).
        intros Hin. apply (Hdisj _ Hin). by left. }
    rewrite (IH (pre ++ [(k, x)]) fuel); [| by rewrite <- app_assoc | lia].
    by rewrite Hx.
Qed.

Lemma foldl_snoc (xs acc : list T) : foldl (fun acc x => acc ++ [x]) acc xs = acc ++ xs.
Proof.
  revert acc. induction xs as [| x xs IH]; intros acc; cbn.
  - by rewrite app_nil_r.
  - rewrite IH. by rewrite <- app_assoc.
Qed.

Lemma begin_spec h bt t :
  repr h (root bt) t → NoDup (addrs t) →
  begin_ h bt = Ok (const_iterator.mk (head (addrs t)) (root bt)).
Proof.
  intros Hrepr Hnd. unfold begin_, const_iterator_new.
  destruct t as [| a l d r].
  - cbn in Hrepr. by rewrite Hrepr.
  - pose proof Hrepr as [Hroot _]. rewrite Hroot. rewrite <- Hroot.
    rewrite (descend_left_spec h (Nd a l d r)); [done | done | done |].
    pose proof (height_le_nodes (Nd a l d r)).
    pose proof (nodes_le_size _ _ _ Hrepr Hnd). lia.
Qed.

Lemma iterate_spec {A} w o bt t (body : T → A → A) acc :
  (∀ x y, operator_lt x y = compare x y) →
  objs w !! o = Some bt → repr (heap w) (root bt) t → NoDup (addrs t) → placed t →
  iterate o body acc w = (Ok (foldl (fun acc x => body x acc) acc (inorder t)), w).
Proof.
  intros Hlt Hbt Hrepr Hnd Hpl. unfold iterate.
  rewrite (bind_ok _ _ _ _ _ (get_obj_ok _ _ _ Hbt)). unfold lift. f_equal.
  rewrite (begin_spec _ _ _ Hrepr Hnd). cbn [obind].
  rewrite <- entries_addrs, <- entries_inorder.
  apply (iterate_from_spec _ _ t body Hlt Hrepr Hnd Hpl (entries t) []); [done |].
  unfold depth_bound. pose proof (nodes_le_size _ _ _ Hrepr Hnd) as Hn. unfold nodes in Hn.
  rewrite <- entries_addrs, length_fmap in Hn. lia.
Qed.

Lemma elements_of_spec w o bt t :
  (∀ x y, operator_lt x y = compare x y) →
  objs w !! o = Some bt → repr (heap w) (root bt) t → NoDup (addrs t) → placed t →
  elements_of o w = (Ok (inorder t), w).
Proof.
  intros Hlt Hbt Hrepr Hnd Hpl. unfold elements_of.
  rewrite (iterate_spec w o bt t) by done. by rewrite foldl_snoc.
Qed.

End Iteration.

Section Construction.
Context {T : Type} {E : Element T}.
Implicit Types (w : world T) (h : gmap positive (Node.t T)) (t : tree T).

Lemma graft_graft t1 t h :
  (∀ k, k ∈ addrs t → k ∈ addrs t1) → graft t1 (graft t h) = graft t1 h.
Proof.
  intros Hsub. apply map_eq. intros k. rewrite !lookup_graft.
  destruct (tree_lookup t1 k) eqn:Hk; [done |].
  apply tree_lookup_not_in in Hk. rewrite tree_lookup_None; [done |]. eauto.
Qed.

Lemma insert_range_spec this values : ∀ w0 t c,
  objs w0 !! this = None → NoDup (addrs t) → (∀ k, k ∈ addrs t → heap w0 !! k = None) →
  ∃ r t' c',
    insert_range this values
      (mkWorld (graft t (heap w0)) (<[this := mkBinaryTree (rootp t) c]> (objs w0))
         (capacity w0)) =
      (r, mkWorld (graft t' (heap w0)) (<[this := mkBinaryTree (rootp t') c']> (objs w0))
            (capacity w0)) ∧
    NoDup (addrs t') ∧
    (∀ k, k ∈ addrs t' → heap w0 !! k = None) ∧
    match s_build values (erase t) with
    | Some s =>
        (r = Ok tt ∧ erase t' = s) ∨
        (r = Throw BadAlloc ∧ capacity w0 < size (heap w0) + nodes t + length values)
    | None =>
        r = Throw DuplicateInsertionError ∨
        (r = Throw BadAlloc ∧ capacity w0 < size (heap w0) + nodes t + length values)
    end.
Proof.
  induction values as [| v values IH]; intros w0 t c Hthis Hnd Hfresh.
  { exists (Ok tt), t, c. cbn. split_and!; try done. by left. }
  cbn [insert_range s_build length].
  set (w := mkWorld (graft t (heap w0)) (<[this := mkBinaryTree (rootp t) c]> (objs w0))
              (capacity w0)).
  assert (Hbt : objs w !! this = Some (mkBinaryTree (rootp t) c)) by apply lookup_insert_eq.
  assert (Hrepr : repr (heap w) (root (mkBinaryTree (rootp t) c)) t) by (by apply graft_repr).
  pose proof (insert_spec w this _ t v Hbt Hrepr Hnd) as Hins.
  rewrite (t_insert_erase (fresh (dom (heap w))) v t).
  destruct (t_insert (fresh (dom (heap w))) v t) as [t1 |] eqn:Ht1; cbn [fmap option_fmap option_map].
  2:{ exists (Throw DuplicateInsertionError), t, c.
      rewrite (bind_throw _ _ _ _ _ Hins). split_and!; try done. by left. }
  assert (Hsize : size (heap w) = size (heap w0) + nodes t) by (by apply size_graft).
  destruct (decide (size (heap w) < capacity w)) as [Hroom | Hfull].
  2:{ exists (Throw BadAlloc), t, (size_t_wrap (c + 1)).
      rewrite (bind_throw _ _ _ _ _ Hins). cbn [heap objs capacity w root node_count].
      rewrite insert_insert_eq. split_and!; try done.
      cbn [capacity w] in Hfull.
      destruct (s_build values (erase t1)); right; (split; [done | lia]). }
  rewrite (bind_ok _ _ _ _ _ Hins). cbn [heap objs capacity w root node_count].
  rewrite insert_insert_eq.
  pose proof (t_insert_addrs _ _ _ _ Ht1) as Haddrs.
  rewrite graft_graft.
  2:{ intros k Hk. rewrite Haddrs. by right. }
  assert (Hnd1 : NoDup (addrs t1)).
  { eapply t_insert_NoDup; [exact Ht1 | by eapply repr_fresh | done]. }
  assert (Hfresh1 : ∀ k, k ∈ addrs t1 → heap w0 !! k = None).
  { intros k. rewrite Haddrs. intros [-> | Hk]%elem_of_cons; [| by apply Hfresh].
    pose proof (fresh_heap (heap w)) as Hf. by apply graft_fresh in Hf as [_ ?]. }
  destruct (IH w0 t1 (size_t_wrap (c + 1)) Hthis Hnd1 Hfresh1)
    as (r & t' & c' & Hrun & Hnd' & Hfresh' & Hres).
  exists r, t', c'. split_and!; try done.
  rewrite (t_insert_nodes _ _ _ _ Ht1) in Hres.
  destruct (s_build values (erase t1));
    (destruct Hres as [? | [? ?]]; [by left | right; split; [done | lia]]).
Qed.

Lemma BinaryTree_range_spec w this values :
  objs w !! this = None →
  ∃ r w',
    BinaryTree_range this values w = (r, w') ∧
    match s_build values SLeaf with
    | Some s =>
        (r = Ok tt ∧
         ∃ t' c', w' = mkWorld (graft t' (heap w))
                         (<[this := mkBinaryTree (rootp t') c']> (objs w)) (capacity w) ∧
                  NoDup (addrs t') ∧ (∀ k, k ∈ addrs t' → heap w !! k = None) ∧
                  erase t' = s) ∨
        (r = Throw BadAlloc ∧ w' = w ∧ capacity w < size (heap w) + length values)
    | None =>
        (r = Throw DuplicateInsertionError ∧ w' = w) ∨
        (r = Throw BadAlloc ∧ w' = w ∧ capacity w < size (heap w) + length values)
    end.
Proof.
  intros Hthis. unfold BinaryTree_range. rewrite constructing_spec, Hthis.
  destruct (insert_range_spec this values w Leaf 0 Hthis)
    as (r & t' & c' & Hrun & Hnd' & Hfresh' & Hres); [constructor | by intros k ?%elem_of_nil |].
  cbn [graft rootp erase nodes addrs length] in Hrun, Hres.
  set (w1 := mkWorld (graft t' (heap w)) (<[this := mkBinaryTree (rootp t') c']> (objs w))
               (capacity w)) in *.
  assert (Hthrow : ∀ e, r = Throw e →
    try_catch (insert_range this values)
      (fun e => let* _ := destroy_root this in throw e)
      (mkWorld (heap w) (<[this := mkBinaryTree None 0]> (objs w)) (capacity w)) =
    (Throw e, mkWorld (heap w) (<[this := mkBinaryTree (rootp t') c']> (objs w))
                (capacity w))).
  { intros e ->. rewrite (try_catch_throw _ _ _ _ _ Hrun).
    erewrite (bind_ok (destroy_root this));
      [| eapply (destroy_root_spec w1 this _ t'); [apply lookup_insert_eq | by apply graft_repr | done]].
    cbn [heap objs capacity w1]. by rewrite free_all_graft. }
  assert (Hback : ∀ e, r = Throw e →
    match
      try_catch (insert_range this values)
        (fun e => let* _ := destroy_root this in throw e)
        (mkWorld (heap w) (<[this := mkBinaryTree None 0]> (objs w)) (capacity w))
    with
    | (Throw e, w2) => (Throw e, mkWorld (heap w2) (delete this (objs w2)) (capacity w2))
    | r => r
    end = (Throw e, w)).
  { intros e He. rewrite (Hthrow e He). cbn [heap objs capacity].
    rewrite delete_insert_id by done. by rewrite world_eta. }
  destruct (s_build values SLeaf) as [s |].
  - destruct Hres as [[-> Herase] | [-> Hcap]].
    + exists (Ok tt), w1. rewrite (try_catch_ok _ _ _ _ _ Hrun). split; [done |].
      left. split; [done |]. by exists t', c'.
    + exists (Throw BadAlloc), w. rewrite (Hback _ eq_refl). split; [done |].
      right. split_and!; [done | done | lia].
  - destruct Hres as [-> | [-> Hcap]].
    + exists (Throw DuplicateInsertionError), w. rewrite (Hback _ eq_refl). split; [done |].
      by left.
    + exists (Throw BadAlloc), w. rewrite (Hback _ eq_refl). split; [done |].
      right. split_and!; [done | done | lia].
Qed.

End Construction.

Section Contents.
Context {T : Type} {E : Element T}.
Implicit Types (w : world T) (h : gmap positive (Node.t T)) (t : tree T) (v : T).

Lemma reachable_holds w o bt :
  reachable w → objs w !! o = Some bt →
  ∃ t, holds w o t ∧ repr (heap w) (root bt) t ∧ NoDup (addrs t) ∧ placed t ∧
       node_count bt = Z.of_nat (nodes t).
Proof. intros Hreach. apply inv_holds_tree. by apply reachable_inv. Qed.

Lemma insert_duplicate w this t v x :
  holds w this t → descent v t x → equal v x = true →
  insert this v w = (Throw DuplicateInsertionError, w).
Proof.
  intros (bt & Hbt & Hrepr & Hnd) Hdesc Heq.
  rewrite (insert_spec _ _ _ _ _ Hbt Hrepr Hnd).
  assert (t_insert (fresh (dom (heap w))) v t = None) as ->; [| done].
  apply t_insert_None. eauto.
Qed.

(** A successful insertion adds its value to the elements, and nothing
    else. *)
Lemma insert_adds_element w this t v w' :
  holds w this t → insert this v w = (Ok tt, w') →
  ∃ t', holds w' this t' ∧ inorder t' ≡ₚ v :: inorder t.
Proof.
  intros (bt & Hbt & Hrepr & Hnd) Hrun.
  rewrite (insert_spec _ _ _ _ _ Hbt Hrepr Hnd) in Hrun.
  destruct (t_insert (fresh (dom (heap w))) v t) as [t' |] eqn:Hins; [| done].
  case_decide; [| done]. injection Hrun as <-.
  exists t'. split; [| by eapply t_insert_inorder].
  assert (Hnd' : NoDup (addrs t')).
  { eapply t_insert_NoDup; [done | by eapply repr_fresh | done]. }
  eexists. split_and!; [apply lookup_insert_eq | by apply graft_repr | done].
Qed.

Lemma t_find_root v t a l d r : t_find v t = Nd a l d r → equal d v = true.
Proof.
  induction t as [| b tl IHl e tr IHr]; cbn; [done |].
  destruct (equal e v) eqn:Heq; [by intros [= _ _ <- _] |].
  destruct (compare v e); eauto.
Qed.

Lemma t_find_rooted v t : rooted (t_find v t) t.
Proof.
  induction t as [| b tl IHl e tr IHr]; cbn; [constructor |].
  destruct (equal e v); [constructor |].
  destruct (compare v e); [by apply rooted_left | by apply rooted_right].
Qed.

Lemma t_find_absent v t : (∀ x, x ∈ inorder t → equal x v = false) → t_find v t = Leaf.
Proof.
  induction t as [| b tl IHl e tr IHr]; cbn; [done |]. intros Hnone.
  rewrite (Hnone e) by (apply elem_of_app; right; by left).
  destruct (compare v e); [apply IHl | apply IHr]; intros x Hx; apply Hnone.
  - apply elem_of_app. by left.
  - apply elem_of_app. right. by right.
Qed.

Lemma t_find_present {HC : Consistent} v t :
  placed t → (∃ x, x ∈ inorder t ∧ equal v x = true) → is_node (t_find v t) = true.
Proof.
  induction t as [| b tl IHl e tr IHr]; cbn [placed inorder t_find].
  - intros _ (x & Hx & _). by apply elem_of_nil in Hx.
  - intros (Hleft & Hright & Hpl & Hpr) (x & Hx & Hvx).
    destruct (equal e v) eqn:Hev; [done |].
    assert (Hcmp : compare x e = compare v e).
    { apply compare_equal_l. by rewrite equal_sym. }
    apply elem_of_app in Hx as [Hx | [-> | Hx]%elem_of_cons].
    + destruct (Hleft _ Hx) as [_ Hxe]. rewrite <- Hcmp, Hxe. apply IHl; eauto.
    + rewrite equal_sym in Hvx. congruence.
    + destruct (Hright _ Hx) as [_ Hxe]. rewrite <- Hcmp, Hxe. apply IHr; eauto.
Qed.

Lemma t_find_element v t : is_node (t_find v t) = true → ∃ x, x ∈ inorder t ∧ equal x v = true.
Proof.
  induction t as [| b tl IHl e tr IHr]; cbn [inorder t_find]; [done |].
  destruct (equal e v) eqn:Hev.
  { intros _. exists e. split; [| done]. apply elem_of_app. right. by left. }
  destruct (compare v e); intros Hnode.
  - destruct (IHl Hnode) as (x & Hx & Hxv). exists x. split; [| done].
    apply elem_of_app. by left.
  - destruct (IHr Hnode) as (x & Hx & Hxv). exists x. split; [| done].
    apply elem_of_app. right. by right.
Qed.

Lemma ascending_app xs ys :
  ascending xs → ascending ys → (∀ x y, x ∈ xs → y ∈ ys → compare x y = true) →
  ascending (xs ++ ys).
Proof.
  induction xs as [| x xs IH]; cbn; [done |]. intros [Hx Hxs] Hys Hcross. split.
  - intros y [Hy | Hy]%elem_of_app; [by apply Hx |]. apply Hcross; [by left | done].
  - apply IH; [done | done |]. intros x' y Hx' Hy. apply Hcross; [by right | done].
Qed.

Lemma placed_ascending {HC : Consistent} t : placed t → ascending (inorder t).
Proof.
  induction t as [| b tl IHl e tr IHr]; cbn [placed inorder]; [done |].
  intros (Hleft & Hright & Hpl & Hpr).
  assert (Hafter : ∀ y, y ∈ inorder tr → compare e y = true).
  { intros y Hy. destruct (Hright _ Hy) as [Hne Hcmp]. by apply compare_total. }
  apply ascending_app; [by apply IHl | |].
  - cbn. split; [done | by apply IHr].
  - intros x y Hx [-> | Hy]%elem_of_cons.
    + by destruct (Hleft _ Hx).
    + eapply compare_trans; [| by apply Hafter]. by destruct (Hleft _ Hx).
Qed.

Lemma descent_agree (E' : Element T) v t x :
  (∀ y, @equal T E' v y = @equal T E v y) →
  (∀ y, y ≠ x → @compare T E' v y = @compare T E v y) →
  @equal T E v x = true → @descent T E v t x → @descent T E' v t x.
Proof.
  intros Heq Hcmp Hvx Hdesc.
  induction Hdesc as [a l d r | a l d r x Hvd Hc Hdesc IH | a l d r x Hvd Hc Hdesc IH].
  - constructor.
  - apply descent_left; [by rewrite Heq | | by apply IH].
    rewrite Hcmp; [done |]. intros ->. congruence.
  - apply descent_right; [by rewrite Heq | | by apply IH].
    rewrite Hcmp; [done |]. intros ->. congruence.
Qed.


End Contents.

Section Claims.
Context {T : Type} {E : Element T}.
Implicit Types (w : world T) (h : gmap positive (Node.t T)) (t : tree T) (v : T).

(** With an element type whose [operator<] is the configured ordering,
    and relations that are consistent, iterating from [begin()] to [end()]
    yields the elements in strictly ascending order. *)
Theorem iteration_ascending {HC : Consistent} w o :
  (∀ x y, operator_lt x y = compare x y) →
  reachable w → is_Some (objs w !! o) →
  ∃ xs, elements_of o w = (Ok xs, w) ∧ ascending xs.
Proof.
  intros Hlt Hreach [bt Hbt].
  destruct (reachable_holds _ _ _ Hreach Hbt) as (t & _ & Hrepr & Hnd & Hpl & _).
  exists (inorder t). split; [by eapply elements_of_spec | by apply placed_ascending].
Qed.

(** C2. When the descent of [insert] for [v] meets an element [x] with
    [equal v x], the call throws the duplicate insertion error and leaves
    the world as it was: the container has the size, the nodes and the
    in-order sequence it had before the call. *)
Theorem C2_duplicate_insert_rejected w this t v x :
  holds w this t → descent v t x → equal v x = true →
  insert this v w = (Throw DuplicateInsertionError, w).
Proof. apply insert_duplicate. Qed.

(** C3. The constructor from a sequence inserts the elements in sequence
    order.  When an insertion throws, the constructor throws the same
    exception and the world is what it was before the call: every node
    built so far is released and no container named [this] exists. *)
Theorem C3_range_constructor w this values :
  objs w !! this = None → size (heap w) + length values ≤ capacity w →
  (∀ e w', BinaryTree_range this values w = (Throw e, w') → w' = w) ∧
  match s_build values SLeaf with
  | Some s =>
      ∃ w' t, BinaryTree_range this values w = (Ok tt, w') ∧ holds w' this t ∧ erase t = s
  | None => BinaryTree_range this values w = (Throw DuplicateInsertionError, w)
  end.
Proof.
  intros Hthis Hroom.
  destruct (BinaryTree_range_spec w this values Hthis) as (r & w1 & Hrun & Hres).
  rewrite Hrun. split.
  - intros e w' [= -> <-].
    destruct (s_build values SLeaf); destruct Hres as [[? ?] | (? & ? & ?)]; done.
  - destruct (s_build values SLeaf) as [s |].
    + destruct Hres as [[-> (t' & c' & -> & Hnd & Hfresh & Herase)] | (_ & _ & ?)]; [| lia].
      eexists _, t'. split_and!; [done | | done].
      eexists. split_and!; [apply lookup_insert_eq | by apply graft_repr | done].
    + destruct Hres as [[-> ->] | (_ & _ & ?)]; [done | lia].
Qed.

(** C4, as amended.  Assigning a container to itself changes nothing.
    Assigning another container first releases the nodes of the target;
    when the duplication then fails partway, what has been built is
    released again and the exception is thrown on: the free store is the
    one before the call without the former nodes of the target, and the
    other containers are untouched.  The target does not get its former
    contents back. *)
Theorem C4_assignment_releases_first w this other t r w' :
  reachable w → holds w this t → operator_assign this other w = (r, w') →
  (this = other → r = Ok tt ∧ w' = w) ∧
  (this ≠ other → ∀ e, r = Throw e →
     e = BadAlloc ∧ heap w' = free_all (addrs t) (heap w) ∧
     (∀ o, o ≠ this → objs w' !! o = objs w !! o) ∧ capacity w' = capacity w).
Proof.
  intros Hreach Hholds Hrun. split.
  - intros <-. unfold operator_assign in Hrun. rewrite decide_True in Hrun by done.
    by injection Hrun as <- <-.
  - intros Hne e ->. pose proof (reachable_inv _ Hreach) as Hinv.
    pose proof Hholds as (bt & Hbt & Hrepr & Hnd).
    rewrite operator_assign_unfold in Hrun by done.
    rewrite (bind_ok _ _ _ _ _ (operator_assign_reset _ _ _ _ Hbt Hrepr Hnd)) in Hrun.
    set (w1 := mkWorld (free_all (addrs t) (heap w)) (<[this := mkBinaryTree None 0]> (objs w))
                 (capacity w)) in *.
    assert (Hinv1 : inv w1).
    { by apply (inv_released w this t (Some (mkBinaryTree None 0)) Hinv Hholds); intros ? [= <-]. }
    assert (Hthis1 : objs w1 !! this = Some (mkBinaryTree None 0)) by apply lookup_insert_eq.
    destruct (objs w1 !! other) as [bo |] eqn:Hbo.
    2:{ unfold copy_from, try_catch, bind, get_obj in Hrun. by rewrite Hbo in Hrun. }
    destruct (inv_holds_tree _ _ _ Hinv1 Hbo) as (ts & _ & Hreprs & Hnds & _).
    destruct (copy_from_spec w1 this _ other bo ts Hthis1 eq_refl Hbo Hreprs Hnds)
      as (r1 & w2 & t' & Hcopy & _ & _ & _ & Hres).
    rewrite Hcopy in Hrun. injection Hrun as -> <-.
    destruct Hres as [(? & _) | (Hr & _ & ->)]; [done |]. injection Hr as ->.
    split; [done |].
    destruct t' as [| a l d r']; cbn [heap objs capacity w1]; split_and!; try done.
    + intros o Ho. by rewrite lookup_insert_ne.
    + intros o Ho. by rewrite !lookup_insert_ne.
Qed.

(** X23. The formatted rendering appends the in-order sequence of the
    container (left subtree, node, right subtree), each element followed
    by one space, and changes nothing.  With an element type whose
    [operator<] is the configured ordering, that sequence is the one met
    when iterating from [begin()] to [end()]. *)
Theorem rendering_lists_the_traversal w tree os :
  reachable w → is_Some (objs w !! tree) →
  ∃ t, holds w tree t ∧
       operator_out_tree os tree w = (Ok (os ++ listing (inorder t))%string, w) ∧
       ((∀ x y, operator_lt x y = compare x y) → elements_of tree w = (Ok (inorder t), w)).
Proof.
  intros Hreach [bt Hbt].
  destruct (reachable_holds _ _ _ Hreach Hbt) as (t & Hholds & Hrepr & Hnd & Hpl & _).
  exists t. split_and!; [done | | intros Hlt; by eapply elements_of_spec].
  unfold operator_out_tree, try_catch.
  rewrite (bind_ok _ _ _ _ _ (get_obj_ok _ _ _ Hbt)). unfold lift.
  rewrite (print_in_order_spec _ _ _ t); [done | done |]. by eapply height_lt_bound.
Qed.

(** C6. [subtree(v)] into a new container [o].  When no element of the
    tree is equal to [v] the result is an empty container and nothing is
    allocated.  When some element is equal to [v] (and the relations are
    consistent, and the free store has room), the result holds fresh nodes
    whose in-order sequence is that of the subtree of the original below a
    node with an element equal to [v], its count is the number of these
    nodes, and the original is untouched. *)
Theorem C6_subtree w this v o :
  reachable w → is_Some (objs w !! this) → objs w !! o = None →
  ∃ t, holds w this t ∧
    ((∀ x, x ∈ inorder t → equal x v = false) →
       subtree this v o w =
         (Ok tt, mkWorld (heap w) (<[o := mkBinaryTree None 0]> (objs w)) (capacity w))) ∧
    (Consistent → (∃ x, x ∈ inorder t ∧ equal v x = true) →
     size (heap w) + nodes t ≤ capacity w →
       ∃ w' s d t',
         subtree this v o w = (Ok tt, w') ∧
         rooted s t ∧ root_element s = Some d ∧ equal d v = true ∧
         holds w' o t' ∧ inorder t' = inorder s ∧
         size_ o w' = (Ok (Z.of_nat (length (inorder t'))), w') ∧
         (∀ k, k ∈ addrs t' → heap w !! k = None) ∧
         holds w' this t).
Proof.
  intros Hreach [bt Hbt] Ho. pose proof (reachable_inv _ Hreach) as Hinv.
  destruct (reachable_holds _ _ _ Hreach Hbt) as (t & Hholds & Hrepr & Hnd & Hpl & _).
  exists t. split; [done |].
  destruct (subtree_spec w this bt t v o Ho Hbt Hrepr Hnd (inv_size _ Hinv)
              (inv_capacity _ Hinv))
    as (r & w1 & t' & Hsub & Hnd' & Hfresh & Hroom & Hres).
  rewrite Hsub. split.
  - intros Habsent. rewrite (t_find_absent _ _ Habsent) in Hres.
    destruct Hres as [(-> & Herase & ->) | (_ & Hfull & _)]; [| cbn in Hfull; lia].
    destruct t'; [done | done].
  - intros Hcons Hpresent Hcap.
    pose proof (t_find_present v t Hpl Hpresent) as Hnode.
    destruct (t_find v t) as [| a l d r0] eqn:Hfind; [done |].
    destruct Hres as [(-> & Herase & ->) | (_ & Hfull & _)].
    2:{ pose proof (nodes_le_size _ _ _ (t_find_repr _ _ _ v Hrepr) (t_find_NoDup _ v Hnd)).
        assert (nodes (t_find v t) ≤ nodes t).
        { unfold nodes. apply sublist_length, t_find_sublist. }
        rewrite Hfind in *. lia. }
    exists (mkWorld (graft t' (heap w))
              (<[o := mkBinaryTree (rootp t') (Z.of_nat (nodes t'))]> (objs w)) (capacity w)),
      (Nd a l d r0), d, t'.
    assert (Hne : this ≠ o) by (intros ->; by rewrite Ho in Hbt).
    split_and!; try done.
    + rewrite <- Hfind. apply t_find_rooted.
    + by eapply t_find_root.
    + eexists. split_and!; [apply lookup_insert_eq | by apply graft_repr | done].
    + by apply erase_inorder.
    + unfold size_. erewrite bind_ok; [| apply get_obj_ok, lookup_insert_eq].
      cbn. do 3 f_equal. unfold nodes.
      by rewrite <- entries_addrs, <- entries_inorder, !length_fmap.
    + exists bt. cbn [objs heap]. split_and!; [by rewrite lookup_insert_ne | | done].
      eapply repr_frame; [| exact Hrepr]. intros k Hk. apply lookup_graft_other.
      intros Hin. apply Hfresh in Hin.
      destruct (repr_live _ _ _ _ Hrepr Hk) as [n Hn]. by rewrite Hin in Hn.
Qed.

(** C7. In every world reached by default and sequence construction,
    insertions that succeed or fail on a duplicate, copy construction,
    assignment, subtree extraction and destruction, [size()] returns the
    stored count, and that is the count that [count_nodes] finds by
    following the pointers from the root. *)
Theorem C7_size_is_node_count w o bt :
  reachable w → objs w !! o = Some bt →
  ∃ t, holds w o t ∧
       size_ o w = (Ok (Z.of_nat (nodes t)), w) ∧
       count_nodes (depth_bound w) (heap w) (root bt) = Ok (Z.of_nat (nodes t)).
Proof.
  intros Hreach Hbt. pose proof (reachable_inv _ Hreach) as Hinv.
  destruct (reachable_holds _ _ _ Hreach Hbt) as (t & Hholds & Hrepr & Hnd & Hpl & Hcount).
  exists t. split_and!; [done | |].
  - unfold size_. rewrite (bind_ok _ _ _ _ _ (get_obj_ok _ _ _ Hbt)). by rewrite Hcount.
  - apply count_nodes_spec; [done | by eapply height_lt_bound | by eapply inv_nodes_small].
Qed.

(** C8. With consistent relations, [exists(v)] returns true exactly when
    [v] is equal to an element of the container, and returns the world it
    was called in. *)
Theorem C8_exists_iff_element {HC : Consistent} w this v :
  reachable w → is_Some (objs w !! this) →
  ∃ t b, holds w this t ∧ exists_ this v w = (Ok b, w) ∧
         (b = true ↔ ∃ x, x ∈ inorder t ∧ equal v x = true).
Proof.
  intros Hreach [bt Hbt].
  destruct (reachable_holds _ _ _ Hreach Hbt) as (t & Hholds & Hrepr & Hnd & Hpl & _).
  exists t, (is_node (t_find v t)). split_and!; [done | |].
  - unfold exists_, try_catch. rewrite (bind_ok _ _ _ _ _ (get_obj_ok _ _ _ Hbt)).
    unfold lift. rewrite (exists_node_spec _ _ _ t); [done | done |].
    by eapply height_lt_bound.
  - split; [| by apply t_find_present].
    intros (x & Hx & Hxv)%t_find_element. exists x. split; [done |]. by rewrite equal_sym.
Qed.

(** C9. [insert] tests [equal] before [compare] at each node it visits:
    when the descent for [v] reaches an element [x] with [equal v x], the
    call throws the duplicate insertion error whatever [compare] answers
    for [v] and [x].  The ordering of [E'] differs from the configured one
    at most in that answer. *)
Theorem C9_equality_before_ordering (E' : Element T) w this t v x :
  (∀ y, @equal T E' v y = @equal T E v y) →
  (∀ y, y ≠ x → @compare T E' v y = @compare T E v y) →
  holds w this t → @descent T E v t x → @equal T E v x = true →
  @insert T E this v w = (Throw DuplicateInsertionError, w) ∧
  @insert T E' this v w = (Throw DuplicateInsertionError, w).
Proof.
  intros Heq Hcmp Hholds Hdesc Hvx. split.
  - exact (@insert_duplicate T E w this t v x Hholds Hdesc Hvx).
  - apply (@insert_duplicate T E' w this t v x Hholds);
      [exact (@descent_agree T E E' v t x Heq Hcmp Hvx Hdesc) | by rewrite Heq].
Qed.

(** C10. For a container without root, [begin()] equals [end()]; the
    iteration ends at once, without calling the body and so without
    dereferencing, and yields the empty sequence. *)
Theorem C10_empty_begin_is_end w this bt :
  objs w !! this = Some bt → root bt = None →
  ∃ b e, begin_ (heap w) bt = Ok b ∧ end_ (heap w) bt = Ok e ∧ operator_eq b e = true ∧
         (∀ (A : Type) (body : T → A → A) (acc : A), iterate this body acc w = (Ok acc, w)) ∧
         elements_of this w = (Ok [], w).
Proof.
  intros Hbt Hroot.
  exists (const_iterator.mk None None), (const_iterator.mk None None).
  assert (Hit : ∀ (A : Type) (body : T → A → A) (acc : A),
            iterate this body acc w = (Ok acc, w)).
  { intros A body acc. unfold iterate.
    rewrite (bind_ok _ _ _ _ _ (get_obj_ok _ _ _ Hbt)).
    unfold lift, begin_, depth_bound. rewrite Hroot. cbn. by rewrite Hroot. }
  unfold begin_, end_. rewrite Hroot. split_and!; try done. apply Hit.
Qed.

End Claims.

(** ** The containers of the examples *)

Lemma repr_leaf {T} (h : gmap positive (Node.t T)) : repr h None Leaf.
Proof. done. Qed.

Lemma repr_node {T} (h : gmap positive (Node.t T)) a l d r pl pr :
  h !! a = Some (Node.mk d pl pr) → repr h pl l → repr h pr r → repr h (Some a) (Nd a l d r).
Proof. intros Ha Hl Hr. split; [done |]. by exists pl, pr. Qed.

Ltac solve_repr :=
  lazymatch goal with
  | |- repr _ _ Leaf => apply repr_leaf
  | |- repr _ _ (Nd ?a ?l ?d ?r) =>
      apply (repr_node _ a l d r (rootp l) (rootp r));
        [vm_compute; reflexivity | solve_repr | solve_repr]
  end.

Lemma int_less_consistent : Consistent (E := int_less).
Proof.
  split; cbn; intros.
  - apply Z.eqb_sym.
  - apply Z.ltb_ge. apply Z.eqb_eq in H. lia.
  - apply Z.ltb_lt. apply Z.ltb_lt in H, H0. lia.
  - apply Z.ltb_lt. apply Z.eqb_neq in H. apply Z.ltb_ge in H0. lia.
  - apply Z.eqb_eq in H. by subst.
Qed.

Lemma int_tree_reachable : reachable (E := int_less) int_tree.
Proof.
  exists [Default "tree"; Insert "tree" 5; Insert "tree" 3; Insert "tree" 8; Insert "tree" 1;
          Insert "tree" 4]%Z, 16.
  split; vm_compute; reflexivity.
Defined.

Lemma int_tree_holds : holds int_tree "tree" int_tree_nodes.
Proof.
  exists (mkBinaryTree (Some 1%positive) 5). split_and!.
  - vm_compute. reflexivity.
  - unfold int_tree_nodes. solve_repr.
  - apply (bool_decide_unpack (NoDup (addrs int_tree_nodes))). vm_compute. exact I.
Defined.

(** C1 (a defect of the code).  [findNext] compares with the [operator<]
    of the element type, not with the configured ordering.  With the
    ordering [std::greater<int>], inserting 5 and then 8 gives a container
    that is printed as [8 5], but iterating from [begin()] dereferences a
    null pointer after the first element instead of reaching 5. *)
Theorem C1_iterator_ignores_configured_ordering :
  run (E := int_greater) [Default "tree"; Insert "tree" 5; Insert "tree" 8]%Z (initial 8)
    = Some descending_tree ∧
  operator_out_tree (E := int_greater) EmptyString "tree" descending_tree
    = (Ok "8 5 ", descending_tree) ∧
  elements_of (E := int_greater) "tree" descending_tree = (Undefined, descending_tree).
Proof. split_and!; vm_compute; reflexivity. Qed.

Lemma C2_witness :
  holds int_tree "tree" int_tree_nodes ∧
  descent (E := int_less) 3%Z int_tree_nodes 3%Z ∧
  insert (E := int_less) "tree" 3%Z int_tree = (Throw DuplicateInsertionError, int_tree).
Proof.
  assert (Hdesc : descent (E := int_less) 3%Z int_tree_nodes 3%Z).
  { apply descent_left; [reflexivity | reflexivity | apply descent_here]. }
  split_and!; [exact int_tree_holds | exact Hdesc |].
  apply (C2_duplicate_insert_rejected (E := int_less) int_tree "tree" int_tree_nodes 3%Z 3%Z);
    [exact int_tree_holds | exact Hdesc | reflexivity].
Defined.

Lemma C3_witness :
  BinaryTree_range (E := int_less) "tree" [5; 3; 8; 3; 4]%Z (initial 8)
    = (Throw DuplicateInsertionError, initial 8).
Proof.
  exact (proj2 (C3_range_constructor (E := int_less) (initial 8) "tree" [5; 3; 8; 3; 4]%Z
                  eq_refl ltac:(vm_compute; lia))).
Defined.

Lemma full_store_reachable : reachable (E := int_less) full_store.
Proof.
  exists [Default "a"; Insert "a" 1; Default "b"; Insert "b" 2; Insert "b" 3]%Z, 3.
  split; vm_compute; reflexivity.
Defined.

Lemma full_store_holds : holds full_store "a" (Nd 1 Leaf 1%Z Leaf).
Proof.
  exists (mkBinaryTree (Some 1%positive) 1). split_and!.
  - vm_compute. reflexivity.
  - solve_repr.
  - apply (bool_decide_unpack (NoDup (addrs (Nd 1 Leaf 1%Z Leaf)))). vm_compute. exact I.
Defined.

(** C4 as stated fails: in a free store of three nodes, of which the
    target [a] has one and the source [b] two, [a = b] fails for lack of
    memory, and afterwards [a] no longer has its element: its count is 0
    and its root dangles. *)
Lemma C4_counterexample :
  ∃ w', operator_assign "a" "b" full_store = (Throw BadAlloc, w') ∧
        exists_ (E := int_less) "a" 1%Z full_store = (Ok true, full_store) ∧
        size_ "a" full_store = (Ok 1%Z, full_store) ∧
        exists_ (E := int_less) "a" 1%Z w' = (Undefined, w') ∧
        size_ "a" w' = (Ok 0%Z, w').
Proof.
  exists (snd (operator_assign "a" "b" full_store)).
  split_and!; vm_compute; reflexivity.
Qed.

Lemma C4_witness :
  heap (snd (operator_assign "a" "b" full_store))
    = free_all [1%positive] (heap full_store).
Proof.
  destruct (C4_assignment_releases_first (E := int_less) full_store "a" "b"
              (Nd 1 Leaf 1%Z Leaf) (Throw BadAlloc)
              (snd (operator_assign "a" "b" full_store))
              full_store_reachable full_store_holds ltac:(vm_compute; reflexivity))
    as [_ Hfail].
  destruct (Hfail ltac:(discriminate) BadAlloc eq_refl) as (_ & Hheap & _).
  exact Hheap.
Defined.

Lemma descending_tree_reachable : reachable (E := int_greater) descending_tree.
Proof.
  exists [Default "tree"; Insert "tree" 5; Insert "tree" 8]%Z, 8.
  split; vm_compute; reflexivity.
Defined.

(** C5 (a defect of the code, the one of C1).  The rendering is not the
    sequence that the iteration produces: for the container of C1, built
    with the ordering [std::greater<int>] by inserting 5 and then 8, the
    rendering is [8 5], and the iteration from [begin()] to [end()]
    yields no sequence at all, since [findNext] compares with [operator<]
    and dereferences a null pointer after 8. *)
Theorem C5_rendering_is_not_the_iteration :
  reachable (E := int_greater) descending_tree ∧
  operator_out_tree (E := int_greater) EmptyString "tree" descending_tree
    = (Ok "8 5 ", descending_tree) ∧
  ¬ ∃ xs, elements_of (E := int_greater) "tree" descending_tree = (Ok xs, descending_tree).
Proof.
  split_and!; [exact descending_tree_reachable | vm_compute; reflexivity |].
  intros (xs & Hxs). vm_compute in Hxs. discriminate.
Qed.

Lemma rendering_lists_the_traversal_witness :
  ∃ t, holds int_tree "tree" t ∧
       operator_out_tree (E := int_less) EmptyString "tree" int_tree
         = (Ok (EmptyString ++ listing (E := int_less) (inorder t))%string, int_tree) ∧
       ((∀ x y, @operator_lt Z int_less x y = @compare Z int_less x y) →
        elements_of (E := int_less) "tree" int_tree = (Ok (inorder t), int_tree)).
Proof.
  apply (rendering_lists_the_traversal (E := int_less) int_tree "tree" EmptyString);
    [exact int_tree_reachable | exists (mkBinaryTree (Some 1%positive) 5); vm_compute; reflexivity].
Defined.

Lemma C7_witness :
  ∃ t, holds int_tree "tree" t ∧
       size_ "tree" int_tree = (Ok (Z.of_nat (nodes t)), int_tree) ∧
       count_nodes (depth_bound int_tree) (heap int_tree) (Some 1%positive)
         = Ok (Z.of_nat (nodes t)).
Proof.
  apply (C7_size_is_node_count (E := int_less) int_tree "tree" (mkBinaryTree (Some 1%positive) 5));
    [exact int_tree_reachable | vm_compute; reflexivity].
Defined.

Lemma C8_witness :
  ∃ t b, holds int_tree "tree" t ∧
         exists_ (E := int_less) "tree" 3%Z int_tree = (Ok b, int_tree) ∧
         (b = true ↔ ∃ x, x ∈ inorder t ∧ @equal Z int_less 3%Z x = true).
Proof.
  apply (C8_exists_iff_element (E := int_less) (HC := int_less_consistent)
           int_tree "tree" 3%Z);
    [exact int_tree_reachable | exists (mkBinaryTree (Some 1%positive) 5); vm_compute; reflexivity].
Defined.

Lemma C6_witness :
  ∃ t, holds int_tree "tree" t ∧
    ((∀ x, x ∈ inorder t → @equal Z int_less x 3%Z = false) →
       subtree (E := int_less) "tree" 3%Z "subtree" int_tree =
         (Ok tt, mkWorld (heap int_tree) (<["subtree" := mkBinaryTree None 0]> (objs int_tree))
                   (capacity int_tree))) ∧
    (Consistent (E := int_less) →
     (∃ x, x ∈ inorder t ∧ @equal Z int_less 3%Z x = true) →
     size (heap int_tree) + nodes t ≤ capacity int_tree →
       ∃ w' s d t',
         subtree (E := int_less) "tree" 3%Z "subtree" int_tree = (Ok tt, w') ∧
         rooted s t ∧ root_element s = Some d ∧ @equal Z int_less d 3%Z = true ∧
         holds w' "subtree" t' ∧ inorder t' = inorder s ∧
         size_ "subtree" w' = (Ok (Z.of_nat (length (inorder t'))), w') ∧
         (∀ k, k ∈ addrs t' → heap int_tree !! k = None) ∧
         holds w' "tree" t).
Proof.
  apply (C6_subtree (E := int_less) int_tree "tree" 3%Z "subtree");
    [exact int_tree_reachable | exists (mkBinaryTree (Some 1%positive) 5); vm_compute; reflexivity
    | vm_compute; reflexivity].
Defined.

Lemma C9_witness :
  insert (E := int_less) "tree" 3%Z int_tree = (Throw DuplicateInsertionError, int_tree) ∧
  insert (E := int_less_or_equal) "tree" 3%Z int_tree
    = (Throw DuplicateInsertionError, int_tree).
Proof.
  apply (C9_equality_before_ordering (E := int_less) int_less_or_equal int_tree "tree"
           int_tree_nodes 3%Z 3%Z).
  - reflexivity.
  - intros y Hy. cbn. destruct (Z.leb_spec 3 y), (Z.ltb_spec 3 y); (reflexivity || lia).
  - exact int_tree_holds.
  - apply descent_left; [reflexivity | reflexivity | apply descent_here].
  - reflexivity.
Defined.

Lemma C10_witness :
  ∃ b e, begin_ (heap empty_tree) (mkBinaryTree None 0) = Ok b ∧
         end_ (heap empty_tree) (mkBinaryTree None 0) = Ok e ∧
         operator_eq b e = true ∧
         (∀ (A : Type) (body : Z → A → A) (acc : A),
            iterate (E := int_less) "tree" body acc empty_tree = (Ok acc, empty_tree)) ∧
         elements_of (E := int_less) "tree" empty_tree = (Ok [], empty_tree).
Proof.
  apply (C10_empty_begin_is_end (E := int_less) empty_tree "tree" (mkBinaryTree None 0));
    [vm_compute; reflexivity | reflexivity].
Defined.

(** * Further properties of the code *)

Section Further.
Context {T : Type} {E : Element T}.
Implicit Types (w : world T) (h : gmap positive (Node.t T)) (t : tree T) (v : T).

Lemma holds_frame w w' o t :
  objs w' !! o = objs w !! o → (∀ k, k ∈ addrs t → heap w' !! k = heap w !! k) →
  holds w o t → holds w' o t.
Proof.
  intros Hobjs Hheap (bt & Hbt & Hrepr & Hnd). exists bt. split_and!; [congruence | | done].
  by eapply repr_frame.
Qed.

Lemma holds_live w o t k : holds w o t → k ∈ addrs t → is_Some (heap w !! k).
Proof. intros (bt & _ & Hrepr & _). by eapply repr_live. Qed.

(** The world after the copy constructor, in each of its outcomes. *)
Lemma BinaryTree_copy_spec w o other bo t :
  objs w !! o = None → objs w !! other = Some bo → repr (heap w) (root bo) t →
  NoDup (addrs t) →
  ∃ r w' t',
    BinaryTree_copy o other w = (r, w') ∧
    NoDup (addrs t') ∧ (∀ k, k ∈ addrs t' → heap w !! k = None) ∧
    (size (heap w) ≤ capacity w → size (heap w) + nodes t' ≤ capacity w) ∧
    ((r = Ok tt ∧ erase t' = erase t ∧
      w' = mkWorld (graft t' (heap w))
             (<[o := mkBinaryTree (rootp t')
                       (match t' with Leaf => 0%Z | Nd _ _ _ _ => node_count bo end)]>
                (objs w))
             (capacity w)) ∨
     (r = Throw BadAlloc ∧ capacity w < size (heap w) + nodes t ∧ w' = w)).
Proof.
  intros Ho Hbo Hrepr Hnd. unfold BinaryTree_copy. rewrite constructing_spec, Ho.
  set (w1 := mkWorld (heap w) (<[o := mkBinaryTree None 0]> (objs w)) (capacity w)).
  assert (Hne : other ≠ o) by (intros ->; by rewrite Ho in Hbo).
  destruct (copy_from_spec w1 o (mkBinaryTree None 0) other bo t)
    as (r & w2 & t' & Hcopy & Hnd' & Hfresh & Hsize & Hres); try done.
  { apply lookup_insert_eq. }
  { cbn. by rewrite lookup_insert_ne. }
  rewrite Hcopy.
  destruct Hres as [(-> & Herase & ->) | (-> & Hfull & ->)].
  - exists (Ok tt), (match t' with
                     | Leaf => w1
                     | Nd _ _ _ _ =>
                         mkWorld (graft t' (heap w1))
                           (<[o := mkBinaryTree (rootp t') (node_count bo)]> (objs w1))
                           (capacity w1)
                     end), t'.
    split_and!; try done. left. split_and!; [done | done |].
    destruct t'; cbn [w1 heap objs capacity graft rootp]; [done |].
    by rewrite insert_insert_eq.
  - exists (Throw BadAlloc), w, t'. split_and!; try done; [| by right].
    destruct t' as [| a l d r]; cbn [w1 heap objs capacity].
    + rewrite delete_insert_id by done. by rewrite world_eta.
    + rewrite insert_insert_eq, delete_insert_id by done. by rewrite world_eta.
Qed.


(** X1. The copy constructor builds a duplicate with the same elements at
    the same positions, out of nodes that were not allocated before, with
    the count of the source, and leaves the source as it was. *)
Theorem copy_constructor_duplicates w o other t :
  reachable w → objs w !! o = None → holds w other t →
  size (heap w) + nodes t ≤ capacity w →
  ∃ w' t',
    BinaryTree_copy o other w = (Ok tt, w') ∧
    holds w' o t' ∧ erase t' = erase t ∧
    (∀ k, k ∈ addrs t' → heap w !! k = None) ∧
    holds w' other t ∧
    size_ o w' = (Ok (Z.of_nat (nodes t)), w').
Proof.
  intros Hreach Ho Hholds Hroom. pose proof Hholds as (bo & Hbo & Hrepr & Hnd).
  destruct (reachable_holds _ _ _ Hreach Hbo) as (t0 & _ & Hrepr0 & _ & _ & Hcount).
  rewrite <- (repr_det _ _ _ _ Hrepr Hrepr0) in Hcount. clear t0 Hrepr0.
  destruct (BinaryTree_copy_spec w o other bo t Ho Hbo Hrepr Hnd)
    as (r & w' & t' & Hrun & Hnd' & Hfresh & _ & Hres).
  destruct Hres as [(-> & Herase & ->) | (_ & Hfull & _)]; [| lia].
  eexists _, t'. split_and!; try done.
  - eexists. split_and!; [apply lookup_insert_eq | by apply graft_repr | done].
  - apply (holds_frame w); cbn [heap objs]; [| | done].
    + apply lookup_insert_ne. intros ->. by rewrite Ho in Hbo.
    + intros k Hk. apply lookup_graft_other. intros Hin. apply Hfresh in Hin.
      destruct (holds_live _ _ _ _ Hholds Hk) as [n Hn]. by rewrite Hin in Hn.
  - unfold size_. erewrite bind_ok; [| apply get_obj_ok, lookup_insert_eq].
    cbn. do 3 f_equal. pose proof (erase_nodes _ _ Herase) as Hn.
    destruct t'; [by rewrite <- Hn | by rewrite Hcount].
Qed.

(** X2. When the copy constructor throws, the world is what it was
    before the call: what had been built is released and no container
    named [o] exists.  The exception is [std::bad_alloc]. *)
Theorem copy_constructor_all_or_nothing w o other e w' :
  reachable w → objs w !! o = None →
  BinaryTree_copy o other w = (Throw e, w') → e = BadAlloc ∧ w' = w.
Proof.
  intros Hreach Ho Hrun.
  destruct (objs w !! other) as [bo |] eqn:Hbo.
  2:{ unfold BinaryTree_copy in Hrun. rewrite constructing_spec, Ho in Hrun.
      unfold copy_from, try_catch, bind, get_obj in Hrun. cbn [objs] in Hrun.
      destruct (decide (o = other)) as [-> | Hne].
      - by rewrite lookup_insert_eq in Hrun.
      - rewrite lookup_insert_ne, Hbo in Hrun by done. done. }
  destruct (reachable_holds _ _ _ Hreach Hbo) as (t & _ & Hrepr & Hnd & _).
  destruct (BinaryTree_copy_spec w o other bo t Ho Hbo Hrepr Hnd)
    as (r & w1 & t' & Hrun1 & _ & _ & _ & Hres).
  rewrite Hrun1 in Hrun. injection Hrun as -> ->.
  by destruct Hres as [(? & _) | ([= ->] & _ & ->)].
Qed.

(** X3. Destroying the copy that the copy constructor has made gives back
    the world before the copy. *)
Theorem copy_then_destroy w o other w1 :
  reachable w → objs w !! o = None →
  BinaryTree_copy o other w = (Ok tt, w1) →
  BinaryTree_destroy o w1 = (Ok tt, w).
Proof.
  intros Hreach Ho Hrun.
  destruct (objs w !! other) as [bo |] eqn:Hbo.
  2:{ unfold BinaryTree_copy in Hrun. rewrite constructing_spec, Ho in Hrun.
      unfold copy_from, try_catch, bind, get_obj in Hrun. cbn [objs] in Hrun.
      destruct (decide (o = other)) as [-> | Hne].
      - rewrite lookup_insert_eq in Hrun. cbn in Hrun. injection Hrun as <-.
        erewrite (BinaryTree_destroy_spec _ other _ Leaf);
          [| apply lookup_insert_eq | done | constructor].
        cbn. rewrite delete_insert_id by done. by rewrite world_eta.
      - rewrite lookup_insert_ne, Hbo in Hrun by done. done. }
  destruct (reachable_holds _ _ _ Hreach Hbo) as (t & _ & Hrepr & Hnd & _).
  destruct (BinaryTree_copy_spec w o other bo t Ho Hbo Hrepr Hnd)
    as (r & w2 & t' & Hrun1 & Hnd' & Hfresh & _ & Hres).
  rewrite Hrun1 in Hrun. injection Hrun as -> ->.
  destruct Hres as [(_ & _ & ->) | (? & _)]; [| done].
  erewrite (BinaryTree_destroy_spec _ o _ t');
    [| apply lookup_insert_eq | by apply graft_repr | done].
  cbn [heap objs capacity]. rewrite free_all_graft by done.
  rewrite delete_insert_id by done. by rewrite world_eta.
Qed.

(** X4. The destructor releases the nodes of its container, each of them
    and no other node, and never a node twice. *)
Theorem destructor_releases_its_nodes w o t :
  holds w o t →
  ∃ w', BinaryTree_destroy o w = (Ok tt, w') ∧
        objs w' = delete o (objs w) ∧
        (∀ k, k ∈ addrs t → heap w' !! k = None) ∧
        (∀ k, k ∉ addrs t → heap w' !! k = heap w !! k).
Proof.
  intros (bt & Hbt & Hrepr & Hnd).
  eexists. split; [by eapply BinaryTree_destroy_spec |]. cbn [heap objs].
  split_and!; [done | |]; intros k Hk; rewrite lookup_free_all.
  - by rewrite decide_True.
  - by rewrite decide_False.
Qed.


Lemma size_free_all_live ks h :
  NoDup ks → (∀ k, k ∈ ks → is_Some (h !! k)) → size (free_all ks h) + length ks = size h.
Proof.
  induction ks as [| k ks IH]; intros Hnd Hlive; [cbn; lia |].
  apply NoDup_cons in Hnd as [Hk Hnd]. rewrite free_all_cons.
  pose proof (map_size_delete k (free_all ks h)) as Hsize.
  rewrite lookup_free_all, decide_False in Hsize by done.
  destruct (Hlive k) as [n Hn]; [by left |]. rewrite Hn in Hsize.
  assert (size (free_all ks h) + length ks = size h) as Hrest.
  { apply IH; [done |]. intros k' Hk'. apply Hlive. by right. }
  assert (0 < size (free_all ks h)).
  { assert (free_all ks h !! k = Some n) as Hin by (by rewrite lookup_free_all, decide_False).
    destruct (decide (size (free_all ks h) = 0)) as [Hz |]; [| lia].
    apply map_size_empty_inv in Hz. by rewrite Hz in Hin. }
  cbn [length]. lia.
Qed.

Lemma descent_element v t x : descent v t x → x ∈ inorder t.
Proof.
  induction 1 as [a l d r | a l d r x _ _ _ IH | a l d r x _ _ _ IH]; cbn [inorder].
  - apply elem_of_app. right. by left.
  - apply elem_of_app. by left.
  - apply elem_of_app. right. by right.
Qed.

Lemma t_insert_fresh_element a v t :
  (∀ x, x ∈ inorder t → equal v x = false) → is_Some (t_insert a v t).
Proof.
  intros Hnone. destruct (t_insert a v t) eqn:Hins; [by eexists |].
  apply t_insert_None in Hins as (x & Hx%descent_element & Hvx).
  by rewrite (Hnone x Hx) in Hvx.
Qed.

Lemma t_insert_found a v t t' :
  equal v v = true → t_insert a v t = Some t' → is_node (t_find v t') = true.
Proof.
  intros Hvv. revert t'. induction t as [| b l IHl d r IHr]; intros t'; cbn [t_insert].
  - intros [= <-]. cbn. by rewrite Hvv.
  - destruct (equal v d); [done |]. destruct (compare v d) eqn:Hcmp.
    + destruct (t_insert a v l) as [l' |]; [| done]. intros [= <-]. cbn [t_find].
      destruct (equal d v); [done |]. rewrite Hcmp. by apply IHl.
    + destruct (t_insert a v r) as [r' |]; [| done]. intros [= <-]. cbn [t_find].
      destruct (equal d v); [done |]. rewrite Hcmp. by apply IHr.
Qed.

Lemma t_insert_keeps_found a v t t' x :
  t_insert a v t = Some t' → is_node (t_find x t) = true → is_node (t_find x t') = true.
Proof.
  revert t'. induction t as [| b l IHl d r IHr]; intros t'; cbn [t_insert t_find]; [done |].
  destruct (equal v d); [done |]. destruct (compare v d).
  - destruct (t_insert a v l) as [l' |]; [| done]. intros [= <-]. cbn [t_find].
    destruct (equal d x); [done |]. destruct (compare x d); [by apply IHl | done].
  - destruct (t_insert a v r) as [r' |]; [| done]. intros [= <-]. cbn [t_find].
    destruct (equal d x); [done |]. destruct (compare x d); [done | by apply IHr].
Qed.

Lemma exists_spec w this t v :
  holds w this t → exists_ this v w = (Ok (is_node (t_find v t)), w).
Proof.
  intros (bt & Hbt & Hrepr & Hnd).
  unfold exists_, try_catch. rewrite (bind_ok _ _ _ _ _ (get_obj_ok _ _ _ Hbt)).
  unfold lift. rewrite (exists_node_spec _ _ _ t); [done | done |].
  by eapply height_lt_bound.
Qed.

Lemma insert_ok_holds w this bt t v w' :
  objs w !! this = Some bt → repr (heap w) (root bt) t → NoDup (addrs t) →
  insert this v w = (Ok tt, w') →
  ∃ t', t_insert (fresh (dom (heap w))) v t = Some t' ∧ NoDup (addrs t') ∧
        size (heap w) < capacity w ∧
        w' = mkWorld (graft t' (heap w))
               (<[this := mkBinaryTree (rootp t') (size_t_wrap (node_count bt + 1))]> (objs w))
               (capacity w).
Proof.
  intros Hbt Hrepr Hnd Hrun. rewrite (insert_spec _ _ _ _ _ Hbt Hrepr Hnd) in Hrun.
  destruct (t_insert (fresh (dom (heap w))) v t) as [t' |] eqn:Hins; [| done].
  case_decide; [| done]. injection Hrun as <-. exists t'. split_and!; try done.
  eapply t_insert_NoDup; [done | by eapply repr_fresh | done].
Qed.

(** X5. Assigning another container, when the free store has room once
    the nodes of the target are released: the target holds a duplicate of
    the source with the count of the source, the source is as it was, and
    the free store is the former one without the former nodes of the
    target and with the nodes of the duplicate. *)
Theorem assignment_duplicates w this other t ts :
  reachable w → this ≠ other → holds w this t → holds w other ts →
  size (heap w) + nodes ts ≤ capacity w + nodes t →
  ∃ w' t',
    operator_assign this other w = (Ok tt, w') ∧
    holds w' this t' ∧ erase t' = erase ts ∧ holds w' other ts ∧
    heap w' = graft t' (free_all (addrs t) (heap w)) ∧
    size_ this w' = (Ok (Z.of_nat (nodes ts)), w').
Proof.
  intros Hreach Hne Hholds Hsrc Hroom. pose proof (reachable_inv _ Hreach) as Hinv.
  pose proof Hholds as (bt & Hbt & Hrepr & Hnd).
  pose proof Hsrc as (bo & Hbo & Hreprs & Hnds).
  destruct (reachable_holds _ _ _ Hreach Hbo) as (t0 & _ & Hrepr0 & _ & _ & Hcount).
  rewrite <- (repr_det _ _ _ _ Hreprs Hrepr0) in Hcount. clear t0 Hrepr0.
  rewrite operator_assign_unfold by done.
  rewrite (bind_ok _ _ _ _ _ (operator_assign_reset _ _ _ _ Hbt Hrepr Hnd)).
  set (w1 := mkWorld (free_all (addrs t) (heap w)) (<[this := mkBinaryTree None 0]> (objs w))
               (capacity w)) in *.
  assert (Hthis1 : objs w1 !! this = Some (mkBinaryTree None 0)) by apply lookup_insert_eq.
  assert (Hbo1 : objs w1 !! other = Some bo) by (cbn; by rewrite lookup_insert_ne).
  assert (Hsrc1 : holds w1 other ts).
  { apply (holds_frame w); [by rewrite Hbo1 | | done].
    intros k Hk. cbn [heap w1]. rewrite lookup_free_all, decide_False; [done |].
    intros Hkt. by apply (inv_disjoint _ Hinv this other t ts Hne Hholds Hsrc k). }
  pose proof Hsrc1 as (bo1 & Hbo1' & Hreprs1 & _).
  rewrite Hbo1 in Hbo1'. injection Hbo1' as <-.
  assert (Hsize1 : size (heap w1) + nodes t = size (heap w)).
  { apply (size_free_all_live (addrs t) (heap w)); [done |].
    intros k Hk. exact (repr_live _ _ _ _ Hrepr Hk). }
  destruct (copy_from_spec w1 this _ other bo ts Hthis1 eq_refl Hbo1 Hreprs1 Hnds)
    as (r1 & w2 & t' & Hcopy & Hnd' & Hfresh & _ & Hres).
  rewrite Hcopy.
  destruct Hres as [(-> & Herase & ->) | (_ & Hfull & _)]; [| cbn [capacity w1] in Hfull; lia].
  pose proof (erase_nodes _ _ Herase) as Hn.
  eexists _, t'. split; [done |].
  destruct t' as [| a l d r'].
  - split_and!; try done.
    + by exists (mkBinaryTree None 0).
    + unfold size_. rewrite (bind_ok _ _ _ _ _ (get_obj_ok _ _ _ Hthis1)).
      cbn. by rewrite <- Hn.
  - split_and!; try done.
    + eexists. split_and!; [apply lookup_insert_eq | by apply graft_repr | done].
    + apply (holds_frame w1); cbn [heap objs]; [by rewrite !lookup_insert_ne | | done].
      intros k Hk. apply lookup_graft_other. intros Hin. apply Hfresh in Hin.
      destruct (holds_live _ _ _ _ Hsrc1 Hk) as [n Hk']. by rewrite Hin in Hk'.
    + unfold size_. erewrite bind_ok; [| apply get_obj_ok, lookup_insert_eq].
      cbn. by rewrite Hcount.
Qed.

(** X6. Inserting a value that no element is equal to, while the free
    store has room, succeeds: the new element goes to the empty place its
    descent ends at and every other element stays where it was, and the
    size grows by one. *)
Theorem insert_adds_one_node w this t v :
  reachable w → holds w this t →
  (∀ x, x ∈ inorder t → equal v x = false) → size (heap w) < capacity w →
  ∃ w' t',
    insert this v w = (Ok tt, w') ∧ holds w' this t' ∧
    s_insert v (erase t) = Some (erase t') ∧
    inorder t' ≡ₚ v :: inorder t ∧
    size_ this w' = (Ok (Z.of_nat (nodes t) + 1)%Z, w').
Proof.
  intros Hreach Hholds Hnone Hroom. pose proof (reachable_inv _ Hreach) as Hinv.
  pose proof Hholds as (bt & Hbt & Hrepr & Hnd).
  destruct (reachable_holds _ _ _ Hreach Hbt) as (t0 & _ & Hrepr0 & _ & _ & Hcount).
  rewrite <- (repr_det _ _ _ _ Hrepr Hrepr0) in Hcount. clear t0 Hrepr0.
  destruct (t_insert_fresh_element (fresh (dom (heap w))) v t Hnone) as [t' Hins].
  rewrite (insert_spec _ _ _ _ _ Hbt Hrepr Hnd), Hins, decide_True by done.
  eexists _, t'. split_and!; [done | | | by eapply t_insert_inorder |].
  - eexists. split_and!; [apply lookup_insert_eq | apply graft_repr |].
    all: eapply t_insert_NoDup; [done | by eapply repr_fresh | done].
  - by rewrite (t_insert_erase (fresh (dom (heap w)))), Hins.
  - unfold size_. erewrite bind_ok; [| apply get_obj_ok, lookup_insert_eq].
    cbn. rewrite Hcount. unfold ret. rewrite size_t_wrap_small; [done |].
    pose proof (nodes_le_size _ _ _ Hrepr Hnd). pose proof (inv_capacity _ Hinv). lia.
Qed.

(** X7. After a successful [insert(v)], [exists(v)] is true, for every
    [equal] that finds [v] equal to itself; an element that [exists]
    found before the insertion is still found after it. *)
Theorem insert_then_exists w this t v w' :
  holds w this t → insert this v w = (Ok tt, w') →
  (equal v v = true → exists_ this v w' = (Ok true, w')) ∧
  (∀ x, exists_ this x w = (Ok true, w) → exists_ this x w' = (Ok true, w')).
Proof.
  intros Hholds Hrun. pose proof Hholds as (bt & Hbt & Hrepr & Hnd).
  destruct (insert_ok_holds _ _ _ _ _ _ Hbt Hrepr Hnd Hrun) as (t' & Hins & Hnd' & _ & ->).
  assert (Hholds' : holds
    (mkWorld (graft t' (heap w))
       (<[this := mkBinaryTree (rootp t') (size_t_wrap (node_count bt + 1))]> (objs w))
       (capacity w)) this t').
  { eexists. split_and!; [apply lookup_insert_eq | by apply graft_repr | done]. }
  split.
  - intros Hvv. rewrite (exists_spec _ _ _ _ Hholds'). by rewrite (t_insert_found _ _ _ _ Hvv Hins).
  - intros x. rewrite (exists_spec _ _ _ _ Hholds), (exists_spec _ _ _ _ Hholds').
    intros [= Hx]. by rewrite (t_insert_keeps_found _ _ _ _ _ Hins Hx).
Qed.

(** X8. When [insert] finds no equal element and the allocation of the
    node fails, the call throws [std::bad_alloc]: the nodes and the tree
    of the container are what they were, but the stored count has been
    incremented already, so that [size()] is one more than the number of
    nodes. *)
Theorem insert_without_memory w this t v :
  reachable w → holds w this t →
  (∀ x, x ∈ inorder t → equal v x = false) → capacity w ≤ size (heap w) →
  ∃ w',
    insert this v w = (Throw BadAlloc, w') ∧ heap w' = heap w ∧ holds w' this t ∧
    size_ this w' = (Ok (size_t_wrap (Z.of_nat (nodes t) + 1)), w').
Proof.
  intros Hreach Hholds Hnone Hfull.
  pose proof Hholds as (bt & Hbt & Hrepr & Hnd).
  destruct (reachable_holds _ _ _ Hreach Hbt) as (t0 & _ & Hrepr0 & _ & _ & Hcount).
  rewrite <- (repr_det _ _ _ _ Hrepr Hrepr0) in Hcount. clear t0 Hrepr0.
  destruct (t_insert_fresh_element (fresh (dom (heap w))) v t Hnone) as [t' Hins].
  rewrite (insert_spec _ _ _ _ _ Hbt Hrepr Hnd), Hins, decide_False by lia.
  eexists. split_and!; [done | done | |].
  - eexists. split_and!; [apply lookup_insert_eq | done | done].
  - unfold size_. erewrite bind_ok; [| apply get_obj_ok, lookup_insert_eq].
    cbn. by rewrite Hcount.
Qed.


Lemma filter_listing (pred : T → bool) (xs : list T) (cout : string) :
  foldl (fun cout x => if pred x then (cout ++ operator_out x ++ " ")%string else cout) cout xs =
    (cout ++ listing (List.filter pred xs))%string.
Proof.
  revert cout. induction xs as [| x xs IH]; intros cout; cbn [foldl List.filter listing].
  - by rewrite append_nil_r.
  - rewrite IH. destruct (pred x); [| done]. cbn [listing].
    by rewrite !append_assoc.
Qed.

Lemma ascending_lookup (xs : list T) (i j : nat) (x y : T) :
  ascending xs → i < j → xs !! i = Some x → xs !! j = Some y → compare x y = true.
Proof.
  revert i j. induction xs as [| z xs IH]; intros i j Hasc Hij Hi Hj; [done |].
  destruct Hasc as [Hz Hasc]. destruct j as [| j]; [lia |]. cbn in Hj.
  destruct i as [| i].
  - injection Hi as <-. apply Hz. by eapply list_elem_of_lookup_2.
  - cbn in Hi. apply (IH i j); [done | lia | done | done].
Qed.

Lemma entries_head h p t k :
  repr h p t → head (addrs t) = Some k →
  ∃ n, h !! k = Some n ∧ head (inorder t) = Some (Node.data n).
Proof.
  intros Hrepr Hk. rewrite <- entries_addrs in Hk. rewrite <- entries_inorder.
  destruct (entries t) as [| [k' x] es] eqn:Hent; [done |]. injection Hk as ->.
  destruct (entries_lookup h p t k x Hrepr) as (n & Hn & Hx); [rewrite Hent; by left |].
  exists n. by rewrite Hx.
Qed.

(** X9. The predicate printing writes, in iteration order, the elements
    that satisfy the predicate, each followed by one space, and then a
    line end; with an element type whose [operator<] is the configured
    ordering these are the selected elements of the in-order sequence. *)
Theorem printIF_writes_the_selected w tree t pred cout :
  (∀ x y, operator_lt x y = compare x y) → reachable w → holds w tree t →
  printIF tree pred cout w =
    (Ok (cout ++ listing (List.filter pred (inorder t)) ++
         String (Ascii.ascii_of_nat 10) EmptyString)%string, w).
Proof.
  intros Hlt Hreach (bt & Hbt & Hrepr & Hnd).
  destruct (reachable_holds _ _ _ Hreach Hbt) as (t0 & _ & Hrepr0 & _ & Hpl & _).
  rewrite <- (repr_det _ _ _ _ Hrepr Hrepr0) in Hpl. clear t0 Hrepr0.
  unfold printIF. erewrite bind_ok; [| by apply (iterate_spec w tree bt t)].
  unfold ret. by rewrite filter_listing, append_assoc.
Qed.

(** X10. Whatever [operator<] the element type has, [begin()] of a
    container that is not empty stands at the first element of the
    in-order sequence, and with consistent relations that element is
    ordered before every other element. *)
Theorem begin_is_first {HC : Consistent} w o bt t :
  reachable w → objs w !! o = Some bt → holds w o t → t ≠ Leaf →
  ∃ it x, begin_ (heap w) bt = Ok it ∧ operator_deref (heap w) it = Ok x ∧
          head (inorder t) = Some x ∧
          ∀ i y, inorder t !! S i = Some y → compare x y = true.
Proof.
  intros Hreach Hbt (bt' & Hbt' & Hrepr & Hnd) Hne.
  rewrite Hbt in Hbt'. injection Hbt' as <-.
  destruct (reachable_holds _ _ _ Hreach Hbt) as (t0 & _ & Hrepr0 & _ & Hpl & _).
  rewrite <- (repr_det _ _ _ _ Hrepr Hrepr0) in Hpl. clear t0 Hrepr0.
  destruct (head (addrs t)) as [k |] eqn:Hk.
  2:{ destruct t; [done |]. cbn in Hk. by destruct (addrs t1). }
  destruct (entries_head _ _ _ _ Hrepr Hk) as (n & Hn & Hhead).
  exists (const_iterator.mk (Some k) (root bt)), (Node.data n). split_and!.
  - by rewrite (begin_spec _ _ _ Hrepr Hnd), Hk.
  - unfold operator_deref. cbn [const_iterator.current deref]. by rewrite Hn.
  - done.
  - intros i y Hy. apply (ascending_lookup (inorder t) 0 (S i)); [| lia | | done].
    + by apply placed_ascending.
    + by destruct (inorder t).
Qed.

(** X11. With an element type whose [operator<] is the configured
    ordering, [operator++] on an iterator at the node of an element moves
    it to the node of the next element of the in-order sequence, and after
    the last element to [end()]; on [end()] it does nothing. *)
Theorem increment_moves_to_the_next w o bt t pre k x suf :
  (∀ x y, operator_lt x y = compare x y) →
  reachable w → objs w !! o = Some bt → holds w o t →
  entries t = pre ++ (k, x) :: suf →
  ∃ e, end_ (heap w) bt = Ok e ∧ operator_inc (heap w) e = Ok e ∧
    operator_deref (heap w) (const_iterator.mk (Some k) (root bt)) = Ok x ∧
    operator_inc (heap w) (const_iterator.mk (Some k) (root bt)) =
      Ok (match suf with
          | [] => e
          | (k', _) :: _ => const_iterator.mk (Some k') (root bt)
          end).
Proof.
  intros Hlt Hreach Hbt (bt' & Hbt' & Hrepr & Hnd) Hent.
  rewrite Hbt in Hbt'. injection Hbt' as <-.
  destruct (reachable_holds _ _ _ Hreach Hbt) as (t0 & _ & Hrepr0 & _ & Hpl & _).
  rewrite <- (repr_det _ _ _ _ Hrepr Hrepr0) in Hpl. clear t0 Hrepr0.
  exists (const_iterator.mk None (root bt)). split_and!; [done | done | |].
  - destruct (entries_lookup _ _ _ k x Hrepr) as (n & Hn & Hx).
    { rewrite Hent. apply elem_of_app. right. by left. }
    unfold operator_deref. cbn [const_iterator.current deref]. rewrite Hn. cbn [obind].
    by rewrite Hx.
  - assert (Haddrs : addrs t = pre.*1 ++ k :: suf.*1).
    { by rewrite <- entries_addrs, Hent, fmap_app. }
    unfold operator_inc. cbn [const_iterator.current const_iterator.root].
    rewrite (findNext_spec _ _ t (Some k) k Hlt Hrepr Hnd Hpl).
    2:{ rewrite Haddrs. apply elem_of_app. right. by left. }
    cbn [obind]. rewrite Haddrs, successor_here.
    2:{ rewrite Haddrs in Hnd. apply NoDup_app in Hnd as (_ & Hdisj & _).
        intros Hin. apply (Hdisj _ Hin). by left. }
    by destruct suf as [| [k' x'] suf].
Qed.

(** X12. In every world that the operations on containers reach, with
    consistent relations, the in-order sequence of each container is
    strictly ascending for the configured ordering, and no two of its
    elements are equal. *)
Theorem elements_stay_ordered {HC : Consistent} w o t (i j : nat) (x y : T) :
  reachable w → holds w o t → i < j →
  inorder t !! i = Some x → inorder t !! j = Some y →
  compare x y = true ∧ equal x y = false.
Proof.
  intros Hreach (bt & Hbt & Hrepr & Hnd) Hij Hi Hj.
  destruct (reachable_holds _ _ _ Hreach Hbt) as (t0 & _ & Hrepr0 & _ & Hpl & _).
  rewrite <- (repr_det _ _ _ _ Hrepr Hrepr0) in Hpl. clear t0 Hrepr0.
  assert (Hxy : compare x y = true).
  { apply (ascending_lookup (inorder t) i j); [by apply placed_ascending | done..]. }
  split; [done |]. destruct (equal x y) eqn:Heq; [| done].
  by rewrite (compare_irrefl _ _ Heq) in Hxy.
Qed.

(** X13. When [subtree] throws, the exception is [std::bad_alloc] and the
    world is what it was before the call: the nodes built for the result
    are released and no container [o] exists. *)
Theorem subtree_all_or_nothing w this v o e w' :
  reachable w → objs w !! o = None →
  subtree this v o w = (Throw e, w') → e = BadAlloc ∧ w' = w.
Proof.
  intros Hreach Ho Hrun. pose proof (reachable_inv _ Hreach) as Hinv.
  destruct (objs w !! this) as [bt |] eqn:Hbt.
  - destruct (reachable_holds _ _ _ Hreach Hbt) as (t & _ & Hrepr & Hnd & _).
    destruct (subtree_spec w this bt t v o Ho Hbt Hrepr Hnd (inv_size _ Hinv)
                (inv_capacity _ Hinv)) as (r & w1 & t' & Hsub & _ & _ & _ & Hres).
    rewrite Hsub in Hrun. injection Hrun as -> ->.
    by destruct Hres as [(? & _) | ([= ->] & _ & ->)].
  - unfold subtree in Hrun. unfold bind at 1 in Hrun.
    rewrite BinaryTree_default_spec, Ho in Hrun.
    unfold try_catch, bind, get_obj in Hrun. cbn [objs] in Hrun.
    destruct (decide (o = this)) as [-> | Hne].
    + rewrite lookup_insert_eq in Hrun. by cbn in Hrun.
    + by rewrite lookup_insert_ne, Hbt in Hrun.
Qed.

(** X14. [exists(v)] answers true exactly when [subtree(v)] gives a
    container that is not empty: both stop at the first node of the
    descent whose element is equal to [v]. *)
Theorem exists_iff_subtree_not_empty w this t v o :
  reachable w → holds w this t → objs w !! o = None →
  size (heap w) + nodes t ≤ capacity w →
  ∃ b w' st,
    exists_ this v w = (Ok b, w) ∧ subtree this v o w = (Ok tt, w') ∧
    objs w' !! o = Some st ∧ (b = true ↔ root st ≠ None).
Proof.
  intros Hreach Hholds Ho Hroom. pose proof (reachable_inv _ Hreach) as Hinv.
  pose proof Hholds as (bt & Hbt & Hrepr & Hnd).
  destruct (subtree_spec w this bt t v o Ho Hbt Hrepr Hnd (inv_size _ Hinv)
              (inv_capacity _ Hinv)) as (r & w1 & t' & Hsub & _ & _ & _ & Hres).
  destruct Hres as [(-> & Herase & ->) | (_ & Hfull & _)].
  2:{ assert (nodes (t_find v t) ≤ nodes t); [| lia].
      unfold nodes. apply sublist_length, t_find_sublist. }
  eexists (is_node (t_find v t)), _, _.
  split_and!; [by apply exists_spec | done | apply lookup_insert_eq |].
  cbn [root]. destruct (t_find v t), t'; cbn; done.
Qed.


Lemma frame_graft w o t t' objs' cap :
  holds w o t → (∀ k, k ∈ addrs t' → heap w !! k = None) → objs' !! o = objs w !! o →
  holds (mkWorld (graft t' (heap w)) objs' cap) o t.
Proof.
  intros Hholds Hfresh Hobjs. apply (holds_frame w); cbn [heap objs]; [done | | done].
  intros k Hk. apply lookup_graft_other. intros Hin. apply Hfresh in Hin.
  destruct (holds_live _ _ _ _ Hholds Hk) as [n Hn]. by rewrite Hin in Hn.
Qed.

Lemma frame_free_all w o o0 t t0 objs' cap :
  inv w → o ≠ o0 → holds w o t → holds w o0 t0 → objs' !! o = objs w !! o →
  holds (mkWorld (free_all (addrs t0) (heap w)) objs' cap) o t.
Proof.
  intros Hinv Hne Hholds Hholds0 Hobjs.
  apply (holds_frame w); cbn [heap objs]; [done | | done].
  intros k Hk. rewrite lookup_free_all, decide_False; [done |].
  intros Hk0. by apply (inv_disjoint _ Hinv o o0 t t0 Hne Hholds Hholds0 k).
Qed.

Lemma frame_same_heap w o t objs' cap :
  holds w o t → objs' !! o = objs w !! o → holds (mkWorld (heap w) objs' cap) o t.
Proof. intros Hholds Hobjs. by apply (holds_frame w). Qed.

Lemma get_obj_missing (o : objid) {A} (k : BinaryTree → M T A) w :
  objs w !! o = None → bind (get_obj o) k w = (Undefined, w).
Proof. intros Ho. unfold bind, get_obj. by rewrite Ho. Qed.

Lemma step_frame c w r w' o t :
  inv w → step c w = (r, w') → (r = Ok tt ∨ ∃ e, r = Throw e) →
  o ≠ target c → holds w o t →
  objs w' !! o = objs w !! o ∧ holds w' o t.
Proof.
  intros Hinv Hrun Hr Hne Hholds.
  assert (Hr' : r ≠ Undefined) by (by destruct Hr as [-> | [e ->]]).
  destruct c as [o0 | o0 values | o0 v | o0 other | o0 other | o0 this v | o0];
    cbn [step target] in Hrun, Hne.
  - rewrite BinaryTree_default_spec in Hrun.
    destruct (objs w !! o0); injection Hrun as <- <-; [done |].
    cbn [objs]. rewrite lookup_insert_ne by done. split; [done |].
    apply frame_same_heap; [done | by rewrite lookup_insert_ne].
  - destruct (objs w !! o0) as [b0 |] eqn:Ho0.
    { unfold BinaryTree_range in Hrun. rewrite constructing_spec, Ho0 in Hrun.
      by injection Hrun as <- <-. }
    destruct (BinaryTree_range_spec w o0 values Ho0) as (r1 & w1 & Hrun1 & Hres).
    rewrite Hrun1 in Hrun. injection Hrun as -> ->.
    assert (w' = w ∨ ∃ t' c', w' = mkWorld (graft t' (heap w))
                (<[o0 := mkBinaryTree (rootp t') c']> (objs w)) (capacity w) ∧
                (∀ k, k ∈ addrs t' → heap w !! k = None)) as [-> | (t' & c' & -> & Hfresh)].
    { destruct (s_build values SLeaf).
      - destruct Hres as [(_ & t' & c' & -> & _ & Hfresh & _) | (_ & -> & _)]; [right | by left].
        by exists t', c'.
      - destruct Hres as [(_ & ->) | (_ & -> & _)]; by left. }
    + done.
    + cbn [objs]. rewrite lookup_insert_ne by done. split; [done |].
      apply frame_graft; [done | done | by rewrite lookup_insert_ne].
  - destruct (objs w !! o0) as [b0 |] eqn:Ho0.
    2:{ unfold insert, try_catch in Hrun. rewrite get_obj_missing in Hrun by done.
        by injection Hrun as <- <-. }
    destruct (inv_holds_tree _ _ _ Hinv Ho0) as (t0 & Hholds0 & Hrepr0 & Hnd0 & _).
    rewrite (insert_spec _ _ _ _ _ Ho0 Hrepr0 Hnd0) in Hrun.
    destruct (t_insert (fresh (dom (heap w))) v t0) as [t' |] eqn:Hins.
    2:{ by injection Hrun as <- <-. }
    case_decide; injection Hrun as <- <-; cbn [objs]; rewrite lookup_insert_ne by done.
    + split; [done |]. apply (holds_frame w); cbn [heap objs];
        [by rewrite lookup_insert_ne | | done].
      intros k Hk. apply lookup_graft_other. rewrite (t_insert_addrs _ _ _ _ Hins).
      intros [-> | Hk0]%elem_of_cons.
      * destruct (holds_live _ _ _ _ Hholds Hk) as [n Hn]. by rewrite fresh_heap in Hn.
      * by apply (inv_disjoint _ Hinv o o0 t t0 Hne Hholds Hholds0 k).
    + split; [done |]. apply frame_same_heap; [done | by rewrite lookup_insert_ne].
  - destruct (objs w !! o0) as [b0 |] eqn:Ho0.
    { unfold BinaryTree_copy in Hrun. rewrite constructing_spec, Ho0 in Hrun.
      by injection Hrun as <- <-. }
    destruct (objs w !! other) as [bo |] eqn:Hbo.
    2:{ unfold BinaryTree_copy in Hrun. rewrite constructing_spec, Ho0 in Hrun.
        unfold copy_from, try_catch, bind, get_obj in Hrun. cbn [objs] in Hrun.
        destruct (decide (o0 = other)) as [-> | Hne'].
        - rewrite lookup_insert_eq in Hrun. cbn in Hrun. injection Hrun as <- <-.
          cbn [objs]. rewrite lookup_insert_ne by done. split; [done |].
          apply frame_same_heap; [done | by rewrite lookup_insert_ne].
        - rewrite lookup_insert_ne, Hbo in Hrun by done. by injection Hrun as <- <-. }
    destruct (inv_holds_tree _ _ _ Hinv Hbo) as (ts & _ & Hreprs & Hnds & _).
    destruct (BinaryTree_copy_spec w o0 other bo ts Ho0 Hbo Hreprs Hnds)
      as (r1 & w1 & t' & Hrun1 & _ & Hfresh & _ & Hres).
    rewrite Hrun1 in Hrun. injection Hrun as -> ->.
    destruct Hres as [(_ & _ & ->) | (_ & _ & ->)]; [| done].
    cbn [objs]. rewrite lookup_insert_ne by done. split; [done |].
    apply frame_graft; [done | done | by rewrite lookup_insert_ne].
  - destruct (decide (o0 = other)) as [-> | Hne'].
    { unfold operator_assign in Hrun. rewrite decide_True in Hrun by done.
      by injection Hrun as <- <-. }
    rewrite operator_assign_unfold in Hrun by done.
    destruct (objs w !! o0) as [b0 |] eqn:Ho0.
    2:{ unfold bind at 1 2 in Hrun. unfold destroy_root in Hrun.
        rewrite get_obj_missing in Hrun by done. by injection Hrun as <- <-. }
    destruct (inv_holds_tree _ _ _ Hinv Ho0) as (t0 & Hholds0 & Hrepr0 & Hnd0 & _).
    rewrite (bind_ok _ _ _ _ _ (operator_assign_reset _ _ _ _ Ho0 Hrepr0 Hnd0)) in Hrun.
    set (w1 := mkWorld (free_all (addrs t0) (heap w)) (<[o0 := mkBinaryTree None 0]> (objs w))
                 (capacity w)) in *.
    assert (Hobjs1 : objs w1 !! o = objs w !! o) by (cbn; by rewrite lookup_insert_ne).
    assert (Hholds1 : holds w1 o t) by (by apply (frame_free_all w o o0 t t0)).
    assert (Hthis1 : objs w1 !! o0 = Some (mkBinaryTree None 0)) by apply lookup_insert_eq.
    assert (Hinv1 : inv w1).
    { by apply (inv_released w o0 t0 (Some (mkBinaryTree None 0)) Hinv Hholds0); intros ? [= <-]. }
    destruct (objs w1 !! other) as [bo |] eqn:Hbo.
    2:{ unfold copy_from, try_catch in Hrun. rewrite get_obj_missing in Hrun by done.
        by injection Hrun as <- <-. }
    destruct (inv_holds_tree _ _ _ Hinv1 Hbo) as (ts & _ & Hreprs & Hnds & _).
    destruct (copy_from_spec w1 o0 _ other bo ts Hthis1 eq_refl Hbo Hreprs Hnds)
      as (r1 & w2 & t' & Hcopy & _ & Hfresh & _ & Hres).
    rewrite Hcopy in Hrun. injection Hrun as -> ->.
    destruct Hres as [(_ & _ & ->) | (_ & _ & ->)]; destruct t' as [| a l d r']; try done.
    + cbn [objs]. rewrite lookup_insert_ne by done. rewrite Hobjs1. split; [done |].
      apply frame_graft; [done | done | by rewrite lookup_insert_ne].
    + cbn [objs]. rewrite lookup_insert_ne by done. rewrite Hobjs1. split; [done |].
      apply frame_same_heap; [done | by rewrite lookup_insert_ne].
  - destruct (objs w !! o0) as [b0 |] eqn:Ho0.
    { unfold subtree in Hrun. unfold bind at 1 in Hrun.
      rewrite BinaryTree_default_spec, Ho0 in Hrun. by injection Hrun as <- <-. }
    destruct (objs w !! this) as [bt |] eqn:Hbt.
    2:{ unfold subtree in Hrun. unfold bind at 1 in Hrun.
        rewrite BinaryTree_default_spec, Ho0 in Hrun.
        unfold try_catch, bind, get_obj in Hrun. cbn [objs] in Hrun.
        destruct (decide (o0 = this)) as [-> | Hne'].
        - rewrite lookup_insert_eq in Hrun. cbn in Hrun. injection Hrun as <- <-.
          cbn [objs]. rewrite lookup_insert_ne by done. split; [done |].
          apply frame_same_heap; [done | by rewrite lookup_insert_ne].
        - rewrite lookup_insert_ne, Hbt in Hrun by done. by injection Hrun as <- <-. }
    destruct (inv_holds_tree _ _ _ Hinv Hbt) as (t0 & _ & Hrepr0 & Hnd0 & _).
    destruct (subtree_spec w this bt t0 v o0 Ho0 Hbt Hrepr0 Hnd0 (inv_size _ Hinv)
                (inv_capacity _ Hinv)) as (r1 & w1 & t' & Hsub & _ & Hfresh & _ & Hres).
    rewrite Hsub in Hrun. injection Hrun as -> ->.
    destruct Hres as [(_ & _ & ->) | (_ & _ & ->)]; [| done].
    cbn [objs]. rewrite lookup_insert_ne by done. split; [done |].
    apply frame_graft; [done | done | by rewrite lookup_insert_ne].
  - destruct (objs w !! o0) as [b0 |] eqn:Ho0.
    2:{ unfold BinaryTree_destroy, destroy_root in Hrun. unfold bind at 1 in Hrun.
        rewrite get_obj_missing in Hrun by done. by injection Hrun as <- <-. }
    destruct (inv_holds_tree _ _ _ Hinv Ho0) as (t0 & Hholds0 & Hrepr0 & Hnd0 & _).
    rewrite (BinaryTree_destroy_spec _ _ _ _ Ho0 Hrepr0 Hnd0) in Hrun.
    injection Hrun as <- <-. cbn [objs]. rewrite lookup_delete_ne by done. split; [done |].
    apply (frame_free_all w o o0 t t0); [done | done | done | done |].
    by rewrite lookup_delete_ne.
Qed.


(** X15. An operation leaves every container other than the one it
    constructs, changes or destroys as it was: the same nodes, the same
    tree and the same count.  In particular a copy shares nothing with
    its source: no later operation on one of them shows in the other. *)
Theorem other_containers_untouched c w r w' o t :
  reachable w → step c w = (r, w') → (r = Ok tt ∨ ∃ e, r = Throw e) →
  o ≠ target c → holds w o t →
  objs w' !! o = objs w !! o ∧ holds w' o t.
Proof. intros Hreach. apply step_frame. by apply reachable_inv. Qed.

Lemma confined_same w o : inv w → confined w w o.
Proof.
  intros Hinv. destruct (objs w !! o) as [bt |] eqn:Hbt.
  - destruct (inv_holds_tree _ _ _ Hinv Hbt) as (t & Hholds & _).
    exists t. split; [by left |]. intros k Hk.
    destruct (decide (k ∈ addrs t)) as [Hin | Hout]; [by left | right].
    split; [done |]. intros t0 Ht0. by rewrite (holds_det _ _ _ _ Ht0 Hholds).
  - exists Leaf. split; [by right |]. intros k Hk. right. split; [done |].
    intros t0 (bt & Hbt' & _). by rewrite Hbt in Hbt'.
Qed.

Lemma confined_construct w o t' c :
  objs w !! o = None → NoDup (addrs t') →
  confined w (mkWorld (graft t' (heap w)) (<[o := mkBinaryTree (rootp t') c]> (objs w))
                (capacity w)) o.
Proof.
  intros Ho Hnd. exists t'. split.
  - left. eexists. split_and!; [apply lookup_insert_eq | by apply graft_repr | done].
  - intros k Hk. cbn [heap] in Hk.
    destruct (decide (k ∈ addrs t')) as [Hin | Hout]; [by left | right].
    rewrite lookup_graft_other in Hk by done. split; [done |].
    intros t0 (bt & Hbt & _). by rewrite Ho in Hbt.
Qed.

Lemma confined_replace w w' o t0 t' bt' :
  holds w o t0 → NoDup (addrs t') →
  heap w' = graft t' (free_all (addrs t0) (heap w)) →
  objs w' !! o = Some bt' → root bt' = rootp t' →
  confined w w' o.
Proof.
  intros Hholds Hnd Hheap Hbt' Hroot. exists t'. split.
  - left. exists bt'. split_and!; [done | | done]. rewrite Hheap, Hroot. by apply graft_repr.
  - intros k Hk. rewrite Hheap in Hk.
    destruct (decide (k ∈ addrs t')) as [Hin | Hout]; [by left | right].
    rewrite lookup_graft_other, lookup_free_all in Hk by done.
    case_decide as Hk0; [by destruct Hk |]. split; [done |].
    intros t1 Ht1. by rewrite (holds_det _ _ _ _ Ht1 Hholds).
Qed.

Lemma graft_over t0 t' h :
  addrs t0 ⊆ addrs t' → graft t' (free_all (addrs t0) h) = graft t' h.
Proof.
  intros Hsub. apply map_eq. intros k. rewrite !lookup_graft.
  destruct (tree_lookup t' k) eqn:Hk; [done |]. apply tree_lookup_not_in in Hk.
  rewrite lookup_free_all, decide_False; [done |]. intros Hk0. by apply Hk, Hsub.
Qed.

Lemma step_confined c w r w' :
  inv w → step c w = (r, w') → (r = Ok tt ∨ r = Throw DuplicateInsertionError) →
  confined w w' (target c).
Proof.
  intros Hinv Hrun Hr.
  assert (Hr' : r ≠ Undefined) by (by destruct Hr as [-> | ->]).
  assert (Hr'' : r ≠ Throw BadAlloc) by (by destruct Hr as [-> | ->]).
  destruct c as [o0 | o0 values | o0 v | o0 other | o0 other | o0 this v | o0];
    cbn [step target] in Hrun |- *.
  - rewrite BinaryTree_default_spec in Hrun.
    destruct (objs w !! o0) eqn:Ho0; injection Hrun as <- <-; [done |].
    apply (confined_construct w o0 Leaf 0); [done | constructor].
  - destruct (objs w !! o0) as [b0 |] eqn:Ho0.
    { unfold BinaryTree_range in Hrun. rewrite constructing_spec, Ho0 in Hrun.
      by injection Hrun as <- <-. }
    destruct (BinaryTree_range_spec w o0 values Ho0) as (r1 & w1 & Hrun1 & Hres).
    rewrite Hrun1 in Hrun. injection Hrun as -> ->.
    destruct (s_build values SLeaf).
    + destruct Hres as [(_ & t' & c' & -> & Hnd & _) | (-> & _)]; [| done].
      by apply confined_construct.
    + destruct Hres as [(_ & ->) | (-> & _)]; [| done]. by apply confined_same.
  - destruct (objs w !! o0) as [b0 |] eqn:Ho0.
    2:{ unfold insert, try_catch in Hrun. rewrite get_obj_missing in Hrun by done.
        by injection Hrun as <- <-. }
    destruct (inv_holds_tree _ _ _ Hinv Ho0) as (t0 & Hholds0 & Hrepr0 & Hnd0 & _).
    rewrite (insert_spec _ _ _ _ _ Ho0 Hrepr0 Hnd0) in Hrun.
    destruct (t_insert (fresh (dom (heap w))) v t0) as [t' |] eqn:Hins.
    2:{ injection Hrun as <- <-. by apply confined_same. }
    case_decide; injection Hrun as <- <-; [| done].
    eapply (confined_replace w _ o0 t0 t'); cbn [heap objs];
      [done | | | apply lookup_insert_eq | done].
    + eapply t_insert_NoDup; [done | by eapply repr_fresh | done].
    + rewrite graft_over; [done |]. intros k Hk.
      rewrite (t_insert_addrs _ _ _ _ Hins). by right.
  - destruct (objs w !! o0) as [b0 |] eqn:Ho0.
    { unfold BinaryTree_copy in Hrun. rewrite constructing_spec, Ho0 in Hrun.
      by injection Hrun as <- <-. }
    destruct (objs w !! other) as [bo |] eqn:Hbo.
    2:{ unfold BinaryTree_copy in Hrun. rewrite constructing_spec, Ho0 in Hrun.
        unfold copy_from, try_catch, bind, get_obj in Hrun. cbn [objs] in Hrun.
        destruct (decide (o0 = other)) as [-> | Hne'].
        - rewrite lookup_insert_eq in Hrun. cbn in Hrun. injection Hrun as <- <-.
          apply (confined_construct w other Leaf 0); [done | constructor].
        - rewrite lookup_insert_ne, Hbo in Hrun by done. by injection Hrun as <- <-. }
    destruct (inv_holds_tree _ _ _ Hinv Hbo) as (ts & _ & Hreprs & Hnds & _).
    destruct (BinaryTree_copy_spec w o0 other bo ts Ho0 Hbo Hreprs Hnds)
      as (r1 & w1 & t' & Hrun1 & Hnd' & _ & _ & Hres).
    rewrite Hrun1 in Hrun. injection Hrun as -> ->.
    destruct Hres as [(_ & _ & ->) | (-> & _)]; [| done].
    by apply confined_construct.
  - destruct (decide (o0 = other)) as [-> | Hne'].
    { unfold operator_assign in Hrun. rewrite decide_True in Hrun by done.
      injection Hrun as <- <-. by apply confined_same. }
    rewrite operator_assign_unfold in Hrun by done.
    destruct (objs w !! o0) as [b0 |] eqn:Ho0.
    2:{ unfold bind at 1 2 in Hrun. unfold destroy_root in Hrun.
        rewrite get_obj_missing in Hrun by done. by injection Hrun as <- <-. }
    destruct (inv_holds_tree _ _ _ Hinv Ho0) as (t0 & Hholds0 & Hrepr0 & Hnd0 & _).
    rewrite (bind_ok _ _ _ _ _ (operator_assign_reset _ _ _ _ Ho0 Hrepr0 Hnd0)) in Hrun.
    set (w1 := mkWorld (free_all (addrs t0) (heap w)) (<[o0 := mkBinaryTree None 0]> (objs w))
                 (capacity w)) in *.
    assert (Hthis1 : objs w1 !! o0 = Some (mkBinaryTree None 0)) by apply lookup_insert_eq.
    assert (Hinv1 : inv w1).
    { by apply (inv_released w o0 t0 (Some (mkBinaryTree None 0)) Hinv Hholds0); intros ? [= <-]. }
    destruct (objs w1 !! other) as [bo |] eqn:Hbo.
    2:{ unfold copy_from, try_catch in Hrun. rewrite get_obj_missing in Hrun by done.
        by injection Hrun as <- <-. }
    destruct (inv_holds_tree _ _ _ Hinv1 Hbo) as (ts & _ & Hreprs & Hnds & _).
    destruct (copy_from_spec w1 o0 _ other bo ts Hthis1 eq_refl Hbo Hreprs Hnds)
      as (r1 & w2 & t' & Hcopy & Hnd' & _ & _ & Hres).
    rewrite Hcopy in Hrun. injection Hrun as -> ->.
    destruct Hres as [(_ & _ & ->) | (-> & _)]; [| done].
    destruct t' as [| a l d r'].
    + eapply (confined_replace w w1 o0 t0 Leaf); [done | constructor | done | done | done].
    + eapply (confined_replace w _ o0 t0 (Nd a l d r')); cbn [heap objs];
        [done | done | done | apply lookup_insert_eq | done].
  - destruct (objs w !! o0) as [b0 |] eqn:Ho0.
    { unfold subtree in Hrun. unfold bind at 1 in Hrun.
      rewrite BinaryTree_default_spec, Ho0 in Hrun. by injection Hrun as <- <-. }
    destruct (objs w !! this) as [bt |] eqn:Hbt.
    2:{ unfold subtree in Hrun. unfold bind at 1 in Hrun.
        rewrite BinaryTree_default_spec, Ho0 in Hrun.
        unfold try_catch, bind, get_obj in Hrun. cbn [objs] in Hrun.
        destruct (decide (o0 = this)) as [-> | Hne'].
        - rewrite lookup_insert_eq in Hrun. cbn in Hrun. injection Hrun as <- <-.
          apply (confined_construct w this Leaf 0); [done | constructor].
        - rewrite lookup_insert_ne, Hbt in Hrun by done. by injection Hrun as <- <-. }
    destruct (inv_holds_tree _ _ _ Hinv Hbt) as (t0 & _ & Hrepr0 & Hnd0 & _).
    destruct (subtree_spec w this bt t0 v o0 Ho0 Hbt Hrepr0 Hnd0 (inv_size _ Hinv)
                (inv_capacity _ Hinv)) as (r1 & w1 & t' & Hsub & Hnd' & _ & _ & Hres).
    rewrite Hsub in Hrun. injection Hrun as -> ->.
    destruct Hres as [(_ & _ & ->) | (-> & _)]; [| done].
    by apply confined_construct.
  - destruct (objs w !! o0) as [b0 |] eqn:Ho0.
    2:{ unfold BinaryTree_destroy, destroy_root in Hrun. unfold bind at 1 in Hrun.
        rewrite get_obj_missing in Hrun by done. by injection Hrun as <- <-. }
    destruct (inv_holds_tree _ _ _ Hinv Ho0) as (t0 & Hholds0 & Hrepr0 & Hnd0 & _).
    rewrite (BinaryTree_destroy_spec _ _ _ _ Ho0 Hrepr0 Hnd0) in Hrun.
    injection Hrun as <- <-. exists Leaf. split.
    + right. cbn [objs]. by rewrite lookup_delete_eq.
    + intros k Hk. right. cbn [heap] in Hk. rewrite lookup_free_all in Hk.
      case_decide as Hk0; [by destruct Hk |]. split; [done |].
      intros t1 Ht1. by rewrite (holds_det _ _ _ _ Ht1 Hholds0).
Qed.

Lemma owned_step c w r w' :
  inv w → owned w → step c w = (r, w') → (r = Ok tt ∨ r = Throw DuplicateInsertionError) →
  owned w'.
Proof.
  intros Hinv Hown Hrun Hr k Hk.
  destruct (step_confined _ _ _ _ Hinv Hrun Hr) as (t' & Htarget & Hconf).
  destruct (Hconf k Hk) as [Hin | [Hlive Hout]].
  - destruct Htarget as [Hholds | [_ ->]]; [by exists (target c), t' |].
    by apply elem_of_nil in Hin.
  - destruct (Hown k Hlive) as (o & t & Hholds & Hin). exists o, t. split; [| done].
    assert (Hne : o ≠ target c) by (intros ->; by apply (Hout t)).
    apply (step_frame c w r w' o t Hinv Hrun); [| done | done].
    destruct Hr as [-> | ->]; [by left | right; by eexists].
Qed.

Lemma owned_run cs : ∀ w w', inv w → owned w → run cs w = Some w' → owned w'.
Proof.
  induction cs as [| c cs IH]; intros w w' Hinv Hown Hrun; cbn in Hrun.
  - by injection Hrun as <-.
  - destruct (step c w) as [r w1] eqn:Hstep.
    destruct r as [[] | [] | |]; try done.
    + apply (IH w1); [| | done].
      * eapply inv_step; [done | exact Hstep | by left].
      * eapply owned_step; [done | done | exact Hstep | by left].
    + apply (IH w1); [| | done].
      * eapply inv_step; [done | exact Hstep | by right].
      * eapply owned_step; [done | done | exact Hstep | by right].
Qed.

(** X16. Nothing leaks and nothing is shared: in every world that the
    operations on containers reach, each node of the free store is a node
    of one container and of no other, so that once the containers are
    destroyed the free store is empty. *)
Theorem no_node_is_lost w :
  reachable w →
  (∀ k, is_Some (heap w !! k) →
     ∃ o t, holds w o t ∧ k ∈ addrs t ∧
            ∀ o' t', holds w o' t' → k ∈ addrs t' → o' = o) ∧
  (objs w = ∅ → heap w = ∅).
Proof.
  intros Hreach. pose proof (reachable_inv _ Hreach) as Hinv.
  assert (Hown : owned w).
  { destruct Hreach as (cs & cap & Hcap & Hrun).
    apply (owned_run cs (initial cap)); [by apply inv_initial | | done].
    intros k [n Hn]. cbn [initial heap] in Hn. by rewrite lookup_empty in Hn. }
  split.
  - intros k Hk. destruct (Hown k Hk) as (o & t & Hholds & Hin).
    exists o, t. split_and!; [done | done |]. intros o' t' Hholds' Hin'.
    destruct (decide (o' = o)) as [| Hne]; [done |].
    by destruct (inv_disjoint _ Hinv o' o t' t Hne Hholds' Hholds k).
  - intros Hempty. apply map_empty. intros k.
    destruct (heap w !! k) as [n |] eqn:Hk; [| done].
    destruct (Hown k) as (o & t & (bt & Hbt & _) & _); [by eexists |].
    by rewrite Hempty, lookup_empty in Hbt.
Qed.

Lemma s_insert_spine y xs :
  (∀ x, x ∈ xs → equal y x = false ∧ compare y x = false) →
  s_insert y (spine xs) = Some (spine (xs ++ [y])).
Proof.
  induction xs as [| x xs IH]; intros Hy; cbn [spine s_insert app]; [done |].
  destruct (Hy x) as [-> ->]; [by left |].
  rewrite IH; [done |]. intros x' Hx'. apply Hy. by right.
Qed.

Lemma right_chain_snoc xs y ys :
  right_chain (xs ++ y :: ys) →
  (∀ x, x ∈ xs → equal y x = false ∧ compare y x = false) ∧ right_chain ((xs ++ [y]) ++ ys).
Proof.
  rewrite <- app_assoc. cbn [app]. intros Hchain. split; [| done].
  induction xs as [| x xs IH]; [by intros x ?%elem_of_nil |].
  destruct Hchain as [Hx Hchain]. intros x' [-> | Hx']%elem_of_cons.
  - apply Hx. apply elem_of_app. right. by left.
  - by apply IH.
Qed.

Lemma s_build_spine ys : ∀ xs,
  right_chain (xs ++ ys) → s_build ys (spine xs) = Some (spine (xs ++ ys)).
Proof.
  induction ys as [| y ys IH]; intros xs Hchain; cbn [s_build].
  - by rewrite app_nil_r.
  - apply right_chain_snoc in Hchain as [Hy Hchain].
    rewrite (s_insert_spine _ _ Hy), (IH _ Hchain). by rewrite <- app_assoc.
Qed.

Lemma spine_height xs : ∀ t, erase t = spine xs → height t = length xs ∧ inorder t = xs.
Proof.
  induction xs as [| x xs IH]; intros [| a l d r]; cbn; try done.
  intros [= Hl <- Hr]. destruct l; [| done]. destruct (IH _ Hr) as [-> ->]. done.
Qed.

(** X17. The container does not balance: when each element of the
    sequence is not equal to and not ordered before any earlier one (a
    sequence in ascending order, for consistent relations), the
    constructor from the sequence builds a chain of right children whose
    height is the number of elements. *)
Theorem ascending_input_builds_a_chain w this values :
  objs w !! this = None → size (heap w) + length values ≤ capacity w →
  right_chain values →
  ∃ w' t, BinaryTree_range this values w = (Ok tt, w') ∧ holds w' this t ∧
          erase t = spine values ∧ height t = length values ∧ inorder t = values.
Proof.
  intros Hthis Hroom Hchain.
  destruct (BinaryTree_range_spec w this values Hthis) as (r & w1 & Hrun & Hres).
  pose proof (s_build_spine values [] Hchain) as Hbuild. cbn [spine app] in Hbuild.
  rewrite Hbuild in Hres.
  destruct Hres as [(-> & t' & c' & -> & Hnd & Hfresh & Herase) | (_ & _ & ?)]; [| lia].
  eexists _, t'. split_and!; [done | | done | by apply spine_height..].
  eexists. split_and!; [apply lookup_insert_eq | by apply graft_repr | done].
Qed.


Lemma placed_descent {HC : Consistent} v t x :
  placed t → x ∈ inorder t → equal v x = true → ∃ x', descent v t x' ∧ equal v x' = true.
Proof.
  induction t as [| b l IHl e r IHr]; cbn [placed inorder].
  - intros _ Hx. by apply elem_of_nil in Hx.
  - intros (Hleft & Hright & Hpl & Hpr) Hx Hvx.
    destruct (equal v e) eqn:Hve; [exists e; split; [constructor | done] |].
    pose proof (compare_equal_l v x e Hvx) as Hcmp.
    apply elem_of_app in Hx as [Hx | [-> | Hx]%elem_of_cons].
    + destruct (Hleft _ Hx) as [_ Hxe]. destruct (IHl Hpl Hx Hvx) as (x' & Hdesc & Hvx').
      exists x'. split; [| done]. apply descent_left; [done | congruence | done].
    + congruence.
    + destruct (Hright _ Hx) as [_ Hxe]. destruct (IHr Hpr Hx Hvx) as (x' & Hdesc & Hvx').
      exists x'. split; [| done]. apply descent_right; [done | congruence | done].
Qed.

(** X18. With consistent relations the container is a set: inserting a
    value that is equal to an element, wherever that element is in the
    tree, throws the duplicate insertion error and changes nothing. *)
Theorem insert_rejects_equal_values {HC : Consistent} w this t v x :
  reachable w → holds w this t → x ∈ inorder t → equal v x = true →
  insert this v w = (Throw DuplicateInsertionError, w).
Proof.
  intros Hreach Hholds Hx Hvx. pose proof Hholds as (bt & Hbt & Hrepr & Hnd).
  destruct (reachable_holds _ _ _ Hreach Hbt) as (t0 & _ & Hrepr0 & _ & Hpl & _).
  rewrite <- (repr_det _ _ _ _ Hrepr Hrepr0) in Hpl. clear t0 Hrepr0.
  destruct (placed_descent v t x Hpl Hx Hvx) as (x' & Hdesc & Hvx').
  by apply (insert_duplicate w this t v x').
Qed.

End Further.

Lemma custom_type_consistent : Consistent (E := custom_type).
Proof.
  split; cbn; intros.
  - apply Z.eqb_sym.
  - apply Z.ltb_ge. apply Z.eqb_eq in H. lia.
  - apply Z.ltb_lt. apply Z.ltb_lt in H, H0. lia.
  - apply Z.ltb_lt. apply Z.eqb_neq in H. apply Z.ltb_ge in H0. lia.
  - apply Z.eqb_eq in H. by rewrite H.
Qed.

(** X19. [CustomTypeCompare] and [CustomTypeEqual] of main.cpp compare
    the [id] alone, as the [operator<] of [CustomType] does: iterating over
    a container of [CustomType] yields the elements by strictly ascending
    [id], and no two elements have the same [id] whatever their names. *)
Theorem custom_type_iterates_by_id (w : world CustomType.t) o :
  reachable (E := custom_type) w → is_Some (objs w !! o) →
  ∃ xs, elements_of (E := custom_type) o w = (Ok xs, w) ∧
        ∀ (i j : nat) x y, i < j → xs !! i = Some x → xs !! j = Some y →
                           (CustomType.id x < CustomType.id y)%Z.
Proof.
  intros Hreach [bt Hbt].
  destruct (reachable_holds _ _ _ Hreach Hbt) as (t & _ & Hrepr & Hnd & Hpl & _).
  exists (inorder t). split.
  - by apply (elements_of_spec (E := custom_type) w o bt t).
  - intros i j x y Hij Hi Hj. apply Z.ltb_lt.
    apply (ascending_lookup (E := custom_type) (inorder t) i j x y); [| done..].
    apply (placed_ascending (HC := custom_type_consistent)). done.
Qed.

Section Lifetime.
Context {T : Type} {E : Element T}.
Implicit Types (w : world T) (h : gmap positive (Node.t T)) (t : tree T) (v : T).

Lemma keeps_nodes_bind {A B} (m : M T A) (f : A → M T B) :
  keeps_nodes m → (∀ x, keeps_nodes (f x)) → keeps_nodes (bind m f).
Proof.
  intros Hm Hf w r w' k Hrun Hk. unfold bind in Hrun.
  destruct (m w) as [[x | e | |] w1] eqn:Hmw.
  - eapply Hf; [exact Hrun |]. by eapply Hm.
  - injection Hrun as <- <-. by eapply Hm.
  - injection Hrun as <- <-. by eapply Hm.
  - injection Hrun as <- <-. by eapply Hm.
Qed.

Lemma keeps_nodes_same_heap {A} (m : M T A) :
  (∀ w r w', m w = (r, w') → heap w' = heap w) → keeps_nodes m.
Proof. intros Hm w r w' k Hrun Hk. by rewrite (Hm _ _ _ Hrun). Qed.

Lemma keeps_nodes_load p : keeps_nodes (T := T) (load p).
Proof. apply keeps_nodes_same_heap. by intros w r w' [= _ <-]. Qed.

Lemma keeps_nodes_get_obj o : keeps_nodes (T := T) (get_obj o).
Proof.
  apply keeps_nodes_same_heap. intros w r w'. unfold get_obj.
  by destruct (objs w !! o); intros [= _ <-].
Qed.

Lemma keeps_nodes_new_Node v : keeps_nodes (new_Node v).
Proof.
  intros w r w' k Hrun Hk. unfold new_Node in Hrun.
  case_decide; injection Hrun as <- <-; [| done]. cbn [heap].
  rewrite lookup_insert. by case_decide.
Qed.

Lemma keeps_nodes_write_lvalue dest p : keeps_nodes (T := T) (write_lvalue dest p).
Proof.
  intros w r w' k Hrun Hk. destruct dest as [o | a | a]; cbn [write_lvalue] in Hrun.
  - unfold set_root, bind, get_obj, put_obj in Hrun.
    by destruct (objs w !! o); injection Hrun as <- <-.
  - unfold set_left in Hrun. destruct (heap w !! a); injection Hrun as <- <-; [| done].
    cbn [heap]. rewrite lookup_insert. by case_decide.
  - unfold set_right in Hrun. destruct (heap w !! a); injection Hrun as <- <-; [| done].
    cbn [heap]. rewrite lookup_insert. by case_decide.
Qed.

Lemma keeps_nodes_read_lvalue dest : keeps_nodes (T := T) (read_lvalue dest).
Proof.
  destruct dest as [o | a | a]; cbn [read_lvalue];
    (apply keeps_nodes_bind; [| intros x; apply keeps_nodes_same_heap; by intros w r w' [= _ <-]]).
  - apply keeps_nodes_get_obj.
  - apply keeps_nodes_load.
  - apply keeps_nodes_load.
Qed.

Lemma keeps_nodes_copy_subtree fuel : ∀ dest src, keeps_nodes (T := T) (copy_subtree fuel dest src).
Proof.
  induction fuel as [| fuel IH]; intros dest src; cbn [copy_subtree].
  { apply keeps_nodes_same_heap. by intros w r w' [= _ <-]. }
  destruct src as [s |]; [| apply keeps_nodes_same_heap; by intros w r w' [= _ <-]].
  apply keeps_nodes_bind; [apply keeps_nodes_load | intros n0].
  apply keeps_nodes_bind; [apply keeps_nodes_new_Node | intros a].
  apply keeps_nodes_bind; [apply keeps_nodes_write_lvalue | intros _].
  apply keeps_nodes_bind; [apply keeps_nodes_load | intros n1].
  apply keeps_nodes_bind.
  - destruct (Node.left n1); [| apply keeps_nodes_same_heap; by intros w r w' [= _ <-]].
    apply keeps_nodes_bind; [apply keeps_nodes_read_lvalue | intros [d |]]; [apply IH |].
    apply keeps_nodes_same_heap. by intros w r w' [= _ <-].
  - intros _. apply keeps_nodes_bind; [apply keeps_nodes_load | intros n2].
    destruct (Node.right n2); [| apply keeps_nodes_same_heap; by intros w r w' [= _ <-]].
    apply keeps_nodes_bind; [apply keeps_nodes_read_lvalue | intros [d |]]; [apply IH |].
    apply keeps_nodes_same_heap. by intros w r w' [= _ <-].
Qed.

(** With room for a node, [copy_subtree] of a node allocates its copy
    first, and the copy stays allocated however the call ends. *)
Lemma copy_subtree_first_node fuel dest s w r w' :
  is_Some (heap w !! s) → size (heap w) < capacity w →
  copy_subtree (S fuel) dest (Some s) w = (r, w') →
  is_Some (heap w' !! fresh (dom (heap w))).
Proof.
  intros [n Hs] Hroom Hrun. cbn [copy_subtree] in Hrun.
  assert (Hload : load (Some s) w = (Ok n, w)) by (apply load_ok; cbn; by rewrite Hs).
  rewrite (bind_ok _ _ _ _ _ Hload) in Hrun.
  rewrite (bind_ok _ _ _ _ _ (new_Node_ok _ _ Hroom)) in Hrun.
  revert Hrun. set (rest := bind _ _). intros Hrun.
  assert (Hrest : keeps_nodes rest).
  { unfold rest.
    apply keeps_nodes_bind; [apply keeps_nodes_write_lvalue | intros _].
    apply keeps_nodes_bind; [apply keeps_nodes_load | intros n1].
    apply keeps_nodes_bind.
    - destruct (Node.left n1); [| apply keeps_nodes_same_heap; by intros ? ? ? [= _ <-]].
      apply keeps_nodes_bind; [apply keeps_nodes_read_lvalue | intros [d |]];
        [apply keeps_nodes_copy_subtree |].
      apply keeps_nodes_same_heap. by intros ? ? ? [= _ <-].
    - intros _. apply keeps_nodes_bind; [apply keeps_nodes_load | intros n2].
      destruct (Node.right n2); [| apply keeps_nodes_same_heap; by intros ? ? ? [= _ <-]].
      apply keeps_nodes_bind; [apply keeps_nodes_read_lvalue | intros [d |]];
        [apply keeps_nodes_copy_subtree |].
      apply keeps_nodes_same_heap. by intros ? ? ? [= _ <-]. }
  eapply Hrest; [exact Hrun |]. cbn [heap]. rewrite lookup_insert_eq. by eexists.
Qed.


(** X20. An assignment that runs out of memory after it has allocated at
    least one node leaves the target with a dangling root: the handler
    releases the nodes built so far but does not reset [root].  The count
    of the target is 0, and every later use that follows the root, the
    destructor included, is undefined. *)
Theorem failed_assignment_leaves_a_dangling_root w this other t ts :
  reachable w → this ≠ other → holds w this t → holds w other ts →
  size (heap w) < capacity w + nodes t →
  capacity w + nodes t < size (heap w) + nodes ts →
  ∃ w' a,
    operator_assign this other w = (Throw BadAlloc, w') ∧
    objs w' !! this = Some (mkBinaryTree (Some a) 0) ∧ heap w' !! a = None ∧
    BinaryTree_destroy this w' = (Undefined, w').
Proof.
  intros Hreach Hne Hholds Hsrc Hfirst Hfull. pose proof (reachable_inv _ Hreach) as Hinv.
  pose proof Hholds as (bt & Hbt & Hrepr & Hnd).
  rewrite operator_assign_unfold by done.
  rewrite (bind_ok _ _ _ _ _ (operator_assign_reset _ _ _ _ Hbt Hrepr Hnd)).
  set (w1 := mkWorld (free_all (addrs t) (heap w)) (<[this := mkBinaryTree None 0]> (objs w))
               (capacity w)) in *.
  assert (Hthis1 : objs w1 !! this = Some (mkBinaryTree None 0)) by apply lookup_insert_eq.
  assert (Hsrc1 : holds w1 other ts).
  { apply (frame_free_all w other this ts t); [done | done | done | done |].
    cbn. by rewrite lookup_insert_ne. }
  destruct Hsrc1 as (bo & Hbo1 & Hreprs1 & Hnds).
  assert (Hsize1 : size (heap w1) + nodes t = size (heap w)).
  { apply (size_free_all_live (addrs t) (heap w)); [done |].
    intros k Hk. exact (repr_live _ _ _ _ Hrepr Hk). }
  destruct ts as [| s l d r0]; [cbn in Hfull; lia |].
  assert (Hroot : root bo = Some s) by (by destruct Hreprs1 as [-> _]).
  destruct (copy_root_spec w1 this _ (root bo) _ Hthis1 Hreprs1 Hnds)
    as (r & t' & Hcopy & Hnd' & Hfresh & Hsize & Hres).
  destruct Hres as [[-> Herase] | [-> _]].
  { pose proof (erase_nodes _ _ Herase) as Hn. cbn [capacity w1] in Hsize. lia. }
  destruct t' as [| a l' d' r'].
  { exfalso. unfold with_bound, depth_bound in Hcopy. rewrite Hroot in Hcopy.
    assert (Hroom1 : size (heap w1) < capacity w1) by (cbn [capacity w1]; lia).
    apply copy_subtree_first_node in Hcopy as [n Hn]; [| | done].
    - by rewrite fresh_heap in Hn.
    - apply (repr_live _ _ _ _ Hreprs1). cbn. set_solver. }
  unfold copy_from, try_catch.
  rewrite (bind_ok _ _ _ _ _ (get_obj_ok _ _ _ Hbo1)). rewrite Hroot. rewrite <- Hroot.
  rewrite (bind_throw _ _ _ _ _ Hcopy).
  erewrite (bind_ok (destroy_root this));
    [| erewrite (destroy_root_spec _ this _ (Nd a l' d' r'));
       [done | cbn; apply lookup_insert_eq
       | cbn [heap root rootp]; by apply (graft_repr (Nd a l' d' r')) | done]].
  cbn [heap objs capacity]. rewrite free_all_graft by done.
  eexists _, a. split; [done |]. cbn [objs heap].
  assert (Ha : heap w1 !! a = None).
  { apply Hfresh. cbn. set_solver. }
  split_and!; [apply lookup_insert_eq | done |].
  unfold BinaryTree_destroy, destroy_root, bind, get_obj, with_bound, depth_bound.
  cbn [objs]. rewrite lookup_insert_eq. cbn [destroy_tree root].
  unfold bind, load, lift. cbn [deref heap rootp]. by rewrite Ha.
Qed.

End Lifetime.

Section Validity.
Context {T : Type} {E : Element T}.
Implicit Types (w : world T) (h : gmap positive (Node.t T)) (t : tree T) (v : T).

Lemma t_insert_entries a v t t' :
  t_insert a v t = Some t' → entries t' ≡ₚ (a, v) :: entries t.
Proof.
  revert t'. induction t as [| b l IHl d r IHr]; intros t'; cbn [t_insert].
  - by intros [= <-].
  - destruct (equal v d); [done |]. destruct (compare v d).
    + destruct (t_insert a v l) as [l' |]; [| done]. intros [= <-]. cbn [entries].
      by rewrite (IHl l').
    + destruct (t_insert a v r) as [r' |]; [| done]. intros [= <-]. cbn [entries].
      rewrite (IHr r') by done. by rewrite <- !Permutation_middle, Permutation_swap.
Qed.

(** X21. A successful insertion moves no node: an iterator that stood at
    an element of the container before the insertion stands at the same
    element after it. *)
Theorem insert_keeps_iterators_valid w this t v w' k x root :
  holds w this t → insert this v w = (Ok tt, w') → (k, x) ∈ entries t →
  operator_deref (heap w) (const_iterator.mk (Some k) root) = Ok x ∧
  operator_deref (heap w') (const_iterator.mk (Some k) root) = Ok x.
Proof.
  intros (bt & Hbt & Hrepr & Hnd) Hrun Hk.
  destruct (insert_ok_holds _ _ _ _ _ _ Hbt Hrepr Hnd Hrun) as (t' & Hins & Hnd' & _ & ->).
  unfold operator_deref. cbn [const_iterator.current deref heap]. split.
  - destruct (entries_lookup _ _ _ _ _ Hrepr Hk) as (n & -> & <-). done.
  - assert (Hk' : (k, x) ∈ entries t').
    { rewrite (t_insert_entries _ _ _ _ Hins). by right. }
    destruct (entries_lookup _ _ _ _ _ (graft_repr t' (heap w) Hnd') Hk') as (n & -> & <-).
    done.
Qed.

End Validity.

Lemma string_less_consistent : Consistent (E := string_less).
Proof.
  assert (Hlt : ∀ x y, String.ltb x y = true ↔ OrderedTypeEx.String_as_OT.lt x y).
  { intros x y. unfold String.ltb. rewrite <- OrderedTypeEx.String_as_OT.cmp_lt. unfold OrderedTypeEx.String_as_OT.cmp.
    by destruct (String.compare x y). }
  split; cbn; intros.
  - apply String.eqb_sym.
  - apply String.eqb_eq in H as ->. apply not_true_is_false. rewrite Hlt.
    intros Hlt'. by apply OrderedTypeEx.String_as_OT.lt_not_eq in Hlt'.
  - apply Hlt. apply Hlt in H, H0. by eapply OrderedTypeEx.String_as_OT.lt_trans.
  - apply String.eqb_neq in H. unfold String.ltb in *.
    rewrite String.compare_antisym. destruct (String.compare x y) eqn:Hc; try done.
    by apply String.compare_eq_iff in Hc.
  - by apply String.eqb_eq in H as ->.
Qed.

(** X22. The relations that main.cpp configures for [int], for
    [std::string] and for [CustomType] meet the obligations of the
    caller, and each ordering is the [operator<] of its element type, so
    that the properties stated for consistent relations and for the
    iterator hold for these containers. *)
Theorem relations_of_main_are_consistent :
  (Consistent (E := int_less) ∧
   ∀ x y, @operator_lt Z int_less x y = @compare Z int_less x y) ∧
  (Consistent (E := string_less) ∧
   ∀ x y, @operator_lt string string_less x y = @compare string string_less x y) ∧
  (Consistent (E := custom_type) ∧
   ∀ x y, @operator_lt CustomType.t custom_type x y = @compare CustomType.t custom_type x y).
Proof.
  split_and!; try done.
  - exact int_less_consistent.
  - exact string_less_consistent.
  - exact custom_type_consistent.
Qed.

(** ** Further examples *)

Ltac solve_elements H :=
  cbn in H; repeat (apply elem_of_cons in H as [-> | H]); try (by apply elem_of_nil in H).

Lemma full_store_holds_b : holds full_store "b" (Nd 2 Leaf 2%Z (Nd 3 Leaf 3%Z Leaf)).
Proof.
  exists (mkBinaryTree (Some 2%positive) 2). split_and!.
  - vm_compute. reflexivity.
  - solve_repr.
  - apply (bool_decide_unpack (NoDup (addrs (Nd 2 Leaf 2%Z (Nd 3 Leaf 3%Z Leaf))))).
    vm_compute. exact I.
Defined.

Lemma treeEven_reachable : reachable (E := int_less) treeEven.
Proof.
  exists [Default "treeEven"; Insert "treeEven" 4; Insert "treeEven" 2; Insert "treeEven" 6;
          Insert "treeEven" 1; Insert "treeEven" 8; Insert "treeEven" 10]%Z, 16.
  split; vm_compute; reflexivity.
Defined.

Lemma treeEven_holds : holds treeEven "treeEven" treeEven_nodes.
Proof.
  exists (mkBinaryTree (Some 1%positive) 6). split_and!.
  - vm_compute. reflexivity.
  - unfold treeEven_nodes. solve_repr.
  - apply (bool_decide_unpack (NoDup (addrs treeEven_nodes))). vm_compute. exact I.
Defined.

Lemma custom_tree_reachable : reachable (E := custom_type) custom_tree.
Proof.
  exists [Default "tree"; Insert "tree" ct1; Insert "tree" ct2; Insert "tree" ct3;
          Insert "tree" ct4; Insert "tree" ct5], 16.
  split; vm_compute; reflexivity.
Defined.

Lemma custom_tree_holds : holds custom_tree "tree" custom_tree_nodes.
Proof.
  exists (mkBinaryTree (Some 1%positive) 5). split_and!.
  - vm_compute. reflexivity.
  - unfold custom_tree_nodes. solve_repr.
  - apply (bool_decide_unpack (NoDup (addrs custom_tree_nodes))). vm_compute. exact I.
Defined.

Lemma int_tree_copied_reachable : reachable (E := int_less) int_tree_copied.
Proof.
  exists [Default "tree"; Insert "tree" 5; Insert "tree" 3; Insert "tree" 8; Insert "tree" 1;
          Insert "tree" 4; Copy "copiedTree" "tree"]%Z, 16.
  split; vm_compute; reflexivity.
Defined.

Lemma int_tree_copied_holds : holds int_tree_copied "tree" int_tree_nodes.
Proof.
  exists (mkBinaryTree (Some 1%positive) 5). split_and!.
  - vm_compute. reflexivity.
  - unfold int_tree_nodes. solve_repr.
  - apply (bool_decide_unpack (NoDup (addrs int_tree_nodes))). vm_compute. exact I.
Defined.

Lemma copy_constructor_duplicates_witness :
  ∃ w' t',
    BinaryTree_copy "copiedTree" "tree" int_tree = (Ok tt, w') ∧
    holds w' "copiedTree" t' ∧ erase t' = erase int_tree_nodes ∧
    (∀ k, k ∈ addrs t' → heap int_tree !! k = None) ∧
    holds w' "tree" int_tree_nodes ∧
    size_ "copiedTree" w' = (Ok (Z.of_nat (nodes int_tree_nodes)), w').
Proof.
  apply (copy_constructor_duplicates (E := int_less) int_tree "copiedTree" "tree"
           int_tree_nodes);
    [exact int_tree_reachable | vm_compute; reflexivity | exact int_tree_holds
    | vm_compute; lia].
Defined.

Lemma copy_constructor_all_or_nothing_witness :
  snd (BinaryTree_copy "c" "b" full_store) = full_store.
Proof.
  destruct (copy_constructor_all_or_nothing (E := int_less) full_store "c" "b" BadAlloc
              (snd (BinaryTree_copy "c" "b" full_store))
              full_store_reachable ltac:(vm_compute; reflexivity)
              ltac:(vm_compute; reflexivity)) as [_ Hworld].
  exact Hworld.
Defined.

Lemma copy_then_destroy_witness :
  BinaryTree_destroy "copiedTree" int_tree_copied = (Ok tt, int_tree).
Proof.
  apply (copy_then_destroy (E := int_less) int_tree "copiedTree" "tree" int_tree_copied);
    [exact int_tree_reachable | vm_compute; reflexivity | vm_compute; reflexivity].
Defined.

Lemma destructor_releases_its_nodes_witness :
  ∃ w', BinaryTree_destroy "tree" int_tree = (Ok tt, w') ∧
        objs w' = delete "tree" (objs int_tree) ∧
        (∀ k, k ∈ addrs int_tree_nodes → heap w' !! k = None) ∧
        (∀ k, k ∉ addrs int_tree_nodes → heap w' !! k = heap int_tree !! k).
Proof. apply (destructor_releases_its_nodes int_tree "tree" int_tree_nodes int_tree_holds). Defined.

Lemma assignment_duplicates_witness :
  ∃ w' t',
    operator_assign "b" "a" full_store = (Ok tt, w') ∧
    holds w' "b" t' ∧ erase t' = erase (Nd 1 Leaf 1%Z Leaf) ∧
    holds w' "a" (Nd 1 Leaf 1%Z Leaf) ∧
    heap w' = graft t' (free_all [2%positive; 3%positive] (heap full_store)) ∧
    size_ "b" w' = (Ok 1%Z, w').
Proof.
  apply (assignment_duplicates (E := int_less) full_store "b" "a"
           (Nd 2 Leaf 2%Z (Nd 3 Leaf 3%Z Leaf)) (Nd 1 Leaf 1%Z Leaf));
    [exact full_store_reachable | discriminate | exact full_store_holds_b
    | exact full_store_holds | vm_compute; lia].
Defined.

Lemma insert_adds_one_node_witness :
  ∃ w' t',
    insert (E := int_less) "tree" 7%Z int_tree = (Ok tt, w') ∧ holds w' "tree" t' ∧
    s_insert (E := int_less) 7%Z (erase int_tree_nodes) = Some (erase t') ∧
    inorder t' ≡ₚ 7%Z :: inorder int_tree_nodes ∧
    size_ "tree" w' = (Ok 6%Z, w').
Proof.
  apply (insert_adds_one_node (E := int_less) int_tree "tree" int_tree_nodes 7%Z);
    [exact int_tree_reachable | exact int_tree_holds
    | intros x Hx; solve_elements Hx; reflexivity | vm_compute; lia].
Defined.

Lemma insert_then_exists_witness :
  (@equal Z int_less 7%Z 7%Z = true →
   exists_ (E := int_less) "tree" 7%Z (snd (insert (E := int_less) "tree" 7%Z int_tree))
     = (Ok true, snd (insert (E := int_less) "tree" 7%Z int_tree))) ∧
  (∀ x, exists_ (E := int_less) "tree" x int_tree = (Ok true, int_tree) →
        exists_ (E := int_less) "tree" x (snd (insert (E := int_less) "tree" 7%Z int_tree))
          = (Ok true, snd (insert (E := int_less) "tree" 7%Z int_tree))).
Proof.
  apply (insert_then_exists (E := int_less) int_tree "tree" int_tree_nodes 7%Z
           (snd (insert (E := int_less) "tree" 7%Z int_tree)));
    [exact int_tree_holds | vm_compute; reflexivity].
Defined.

Lemma insert_without_memory_witness :
  ∃ w',
    insert (E := int_less) "a" 9%Z full_store = (Throw BadAlloc, w') ∧
    heap w' = heap full_store ∧ holds w' "a" (Nd 1 Leaf 1%Z Leaf) ∧
    size_ "a" w' = (Ok 2%Z, w').
Proof.
  apply (insert_without_memory (E := int_less) full_store "a" (Nd 1 Leaf 1%Z Leaf) 9%Z);
    [exact full_store_reachable | exact full_store_holds
    | intros x Hx; solve_elements Hx; reflexivity | vm_compute; lia].
Defined.

Lemma printIF_writes_the_selected_witness :
  printIF (E := int_less) "treeEven" IsEven EmptyString treeEven =
    (Ok ("2 4 6 8 10 " ++ String (Ascii.ascii_of_nat 10) EmptyString)%string, treeEven).
Proof.
  apply (printIF_writes_the_selected (E := int_less) treeEven "treeEven" treeEven_nodes
           IsEven EmptyString);
    [reflexivity | exact treeEven_reachable | exact treeEven_holds].
Defined.

Lemma begin_is_first_witness :
  ∃ it x, begin_ (heap int_tree) (mkBinaryTree (Some 1%positive) 5) = Ok it ∧
          operator_deref (heap int_tree) it = Ok x ∧
          head (inorder int_tree_nodes) = Some x ∧
          ∀ i y, inorder int_tree_nodes !! S i = Some y → @compare Z int_less x y = true.
Proof.
  apply (begin_is_first (E := int_less) (HC := int_less_consistent) int_tree "tree"
           (mkBinaryTree (Some 1%positive) 5) int_tree_nodes);
    [exact int_tree_reachable | vm_compute; reflexivity | exact int_tree_holds | discriminate].
Defined.

Lemma increment_moves_to_the_next_witness :
  ∃ e, end_ (heap int_tree) (mkBinaryTree (Some 1%positive) 5) = Ok e ∧
    operator_inc (E := int_less) (heap int_tree) e = Ok e ∧
    operator_deref (heap int_tree) (const_iterator.mk (Some 5%positive) (Some 1%positive))
      = Ok 4%Z ∧
    operator_inc (E := int_less) (heap int_tree)
      (const_iterator.mk (Some 5%positive) (Some 1%positive))
      = Ok (const_iterator.mk (Some 1%positive) (Some 1%positive)).
Proof.
  apply (increment_moves_to_the_next (E := int_less) int_tree "tree"
           (mkBinaryTree (Some 1%positive) 5) int_tree_nodes
           [(4%positive, 1%Z); (2%positive, 3%Z)] 5%positive 4%Z
           [(1%positive, 5%Z); (3%positive, 8%Z)]);
    [reflexivity | exact int_tree_reachable | vm_compute; reflexivity | exact int_tree_holds
    | reflexivity].
Defined.

Lemma elements_stay_ordered_witness :
  @compare Z int_less 3%Z 5%Z = true ∧ @equal Z int_less 3%Z 5%Z = false.
Proof.
  apply (elements_stay_ordered (E := int_less) (HC := int_less_consistent) int_tree "tree"
           int_tree_nodes 1 3 3%Z 5%Z);
    [exact int_tree_reachable | exact int_tree_holds | lia | reflexivity | reflexivity].
Defined.

Lemma subtree_all_or_nothing_witness :
  snd (subtree (E := int_less) "b" 2%Z "c" full_store) = full_store.
Proof.
  destruct (subtree_all_or_nothing (E := int_less) full_store "b" 2%Z "c" BadAlloc
              (snd (subtree (E := int_less) "b" 2%Z "c" full_store))
              full_store_reachable ltac:(vm_compute; reflexivity)
              ltac:(vm_compute; reflexivity)) as [_ Hworld].
  exact Hworld.
Defined.

Lemma exists_iff_subtree_not_empty_witness :
  ∃ b w' st,
    exists_ (E := int_less) "tree" 3%Z int_tree = (Ok b, int_tree) ∧
    subtree (E := int_less) "tree" 3%Z "subtree" int_tree = (Ok tt, w') ∧
    objs w' !! "subtree" = Some st ∧ (b = true ↔ root st ≠ None).
Proof.
  apply (exists_iff_subtree_not_empty (E := int_less) int_tree "tree" int_tree_nodes 3%Z
           "subtree");
    [exact int_tree_reachable | exact int_tree_holds | vm_compute; reflexivity
    | vm_compute; lia].
Defined.

Lemma other_containers_untouched_witness :
  objs (snd (insert (E := int_less) "copiedTree" 7%Z int_tree_copied)) !! "tree"
    = objs int_tree_copied !! "tree" ∧
  holds (snd (insert (E := int_less) "copiedTree" 7%Z int_tree_copied)) "tree" int_tree_nodes.
Proof.
  apply (other_containers_untouched (E := int_less) (Insert "copiedTree" 7%Z)
           int_tree_copied (Ok tt)
           (snd (insert (E := int_less) "copiedTree" 7%Z int_tree_copied)) "tree"
           int_tree_nodes);
    [exact int_tree_copied_reachable | vm_compute; reflexivity | by left | discriminate
    | exact int_tree_copied_holds].
Defined.

Lemma ascending_input_builds_a_chain_witness :
  ∃ w' t,
    BinaryTree_range (E := custom_type) "tree" [ct1; ct2; ct3; ct4; ct5] (initial 16)
      = (Ok tt, w') ∧
    holds w' "tree" t ∧
    erase t = spine [ct1; ct2; ct3; ct4; ct5] ∧ height t = 5 ∧
    inorder t = [ct1; ct2; ct3; ct4; ct5].
Proof.
  apply (ascending_input_builds_a_chain (E := custom_type) (initial 16) "tree"
           [ct1; ct2; ct3; ct4; ct5]);
    [vm_compute; reflexivity | vm_compute; lia |].
  cbn [right_chain]. split_and!; try exact I; intros y Hy; solve_elements Hy; by split.
Defined.

Lemma insert_rejects_equal_values_witness :
  insert (E := custom_type) "tree" (CustomType.mk 2 "due") custom_tree
    = (Throw DuplicateInsertionError, custom_tree).
Proof.
  apply (insert_rejects_equal_values (E := custom_type) (HC := custom_type_consistent)
           custom_tree "tree" custom_tree_nodes (CustomType.mk 2 "due") ct2);
    [exact custom_tree_reachable | exact custom_tree_holds
    | apply (list_elem_of_lookup_2 _ 1); reflexivity | reflexivity].
Defined.

Lemma custom_type_iterates_by_id_witness :
  ∃ xs, elements_of (E := custom_type) "tree" custom_tree = (Ok xs, custom_tree) ∧
        ∀ (i j : nat) x y, i < j → xs !! i = Some x → xs !! j = Some y →
                           (CustomType.id x < CustomType.id y)%Z.
Proof.
  apply (custom_type_iterates_by_id custom_tree "tree");
    [exact custom_tree_reachable
    | exists (mkBinaryTree (Some 1%positive) 5); vm_compute; reflexivity].
Defined.

Lemma no_node_is_lost_witness :
  (∀ k, is_Some (heap int_tree_copied !! k) →
     ∃ o t, holds int_tree_copied o t ∧ k ∈ addrs t ∧
            ∀ o' t', holds int_tree_copied o' t' → k ∈ addrs t' → o' = o) ∧
  (objs int_tree_copied = ∅ → heap int_tree_copied = ∅).
Proof. apply (no_node_is_lost (E := int_less) int_tree_copied int_tree_copied_reachable). Defined.

Lemma failed_assignment_leaves_a_dangling_root_witness :
  ∃ w' a,
    operator_assign "a" "b" full_store = (Throw BadAlloc, w') ∧
    objs w' !! "a" = Some (mkBinaryTree (Some a) 0) ∧ heap w' !! a = None ∧
    BinaryTree_destroy "a" w' = (Undefined, w').
Proof.
  apply (failed_assignment_leaves_a_dangling_root (E := int_less) full_store "a" "b"
           (Nd 1 Leaf 1%Z Leaf) (Nd 2 Leaf 2%Z (Nd 3 Leaf 3%Z Leaf)));
    [exact full_store_reachable | discriminate | exact full_store_holds
    | exact full_store_holds_b | vm_compute; lia | vm_compute; lia].
Defined.

Lemma insert_keeps_iterators_valid_witness :
  operator_deref (heap int_tree) (const_iterator.mk (Some 2%positive) (Some 1%positive))
    = Ok 3%Z ∧
  operator_deref (heap (snd (insert (E := int_less) "tree" 7%Z int_tree)))
    (const_iterator.mk (Some 2%positive) (Some 1%positive)) = Ok 3%Z.
Proof.
  apply (insert_keeps_iterators_valid (E := int_less) int_tree "tree" int_tree_nodes 7%Z
           (snd (insert (E := int_less) "tree" 7%Z int_tree)) 2%positive 3%Z
           (Some 1%positive));
    [exact int_tree_holds | vm_compute; reflexivity
    | apply (list_elem_of_lookup_2 _ 1); reflexivity].
Defined.
